(** * string_replace.py: brand replacement for Android string resources

    A shallow embedding of
    [mobile/android/fenix/app/src/main/res/string_replace.py]
    and the properties of its four-pass text rewriter.

    Python strings are sequences of Unicode code points: a character is a
    code point in [N], a string is a list of them.  The regular
    expressions of the script are embedded as the matchers the [re]
    engine evaluates for them; [re.sub] and [str.replace] are the same
    left-to-right scan over a matcher. *)

From Stdlib Require Import String Ascii Decimal DecimalString.
From Stdlib Require Import List NArith Arith Bool Lia.
Import ListNotations.

Set Implicit Arguments.
Local Open Scope N_scope.
Local Open Scope list_scope.
Local Open Scope bool_scope.

(** ** Characters and strings *)

Definition char := N.
Definition pystr := list char.

(** A source literal (ASCII) as a list of code points. *)
Definition lit (s : string) : pystr :=
  map N_of_ascii (list_ascii_of_string s).
Arguments lit s%_string.

Definition c_quote : char := 34.      (* the double quote *)
Definition c_percent : char := 37.
Definition c_apos : char := 39.       (* the straight apostrophe *)
Definition c_lt : char := 60.
Definition c_gt : char := 62.
Definition c_backslash : char := 92.

(** ** String primitives *)

(** [s.startswith(p)] *)
Fixpoint prefix_of (p s : pystr) : bool :=
  match p, s with
  | [], _ => true
  | _ :: _, [] => false
  | a :: p', b :: s' => (a =? b) && prefix_of p' s'
  end.

(** [p in s] *)
Fixpoint contains (p s : pystr) : bool :=
  prefix_of p s ||
  match s with
  | [] => false
  | _ :: s' => contains p s'
  end.

(** The text after a literal prefix, when the literal is there. *)
Definition strip_prefix (p s : pystr) : option pystr :=
  if prefix_of p s then Some (skipn (length p) s) else None.

(** A negated character class under a star, [[^c]*]: the longest run of
    characters other than [c], and what follows it. *)
Fixpoint span_not (c : char) (s : pystr) : pystr * pystr :=
  match s with
  | [] => ([], [])
  | x :: s' =>
      if x =? c then ([], s)
      else let (a, b) := span_not c s' in (x :: a, b)
  end.

(** A lazy [.*?] (DOTALL) followed by the literal [p]: the text before the
    first occurrence of [p], and the text after that occurrence. *)
Fixpoint find_sub (p s : pystr) {struct s} : option (pystr * pystr) :=
  if prefix_of p s then Some ([], skipn (length p) s)
  else match s with
       | [] => None
       | x :: s' =>
           match find_sub p s' with
           | Some (a, b) => Some (x :: a, b)
           | None => None
           end
       end.

(** ** The substitution scan

    [re.sub(pattern, repl, s)] and [s.replace(old, new)] walk the text from
    left to right; where the pattern matches, the replacement is emitted
    and the scan resumes after the match, elsewhere the character is
    copied.  A matcher returns the captured groups and the length of the
    match; [skip] counts the characters of the current match still to be
    passed over.  No pattern of the script matches the empty string. *)

Section Scan.
Variable G : Type.
Variable m : pystr -> option (G * nat).
Variable repl : G -> pystr.

Fixpoint sub_from (skip : nat) (s : pystr) : pystr :=
  match s with
  | [] => []
  | c :: s' =>
      match skip with
      | S k => sub_from k s'
      | O =>
          match m s with
          | Some (g, len) => repl g ++ sub_from (pred len) s'
          | None => c :: sub_from 0 s'
          end
      end
  end.

Definition scan_sub (s : pystr) : pystr := sub_from 0 s.
End Scan.

(** [s.replace(old, new)] for a non-empty [old]. *)
Definition match_literal (old s : pystr) : option (unit * nat) :=
  if prefix_of old s then Some (tt, length old) else None.

Definition str_replace (old new s : pystr) : pystr :=
  scan_sub (match_literal old) (fun _ => new) s.

(** ** Pass 1: brand names *)

Definition Firefox : pystr := Eval cbv in lit "Firefox".
Definition Waterfox : pystr := Eval cbv in lit "Waterfox".
Definition Mozilla : pystr := Eval cbv in lit "Mozilla".
Definition BrowserWorks : pystr := Eval cbv in lit "BrowserWorks".
Definition Mozilla_Account : pystr := Eval cbv in lit "Mozilla Account".

Definition open_string : pystr := Eval cbv in lit "<string".
Definition close_string : pystr := Eval cbv in lit "</string>".

(** The three groups of [(<string[^>]*>)(.*?)(</string>)]. *)
Record entry := Entry {
  start_tag : pystr;
  string_content : pystr;
  end_tag : pystr
}.

Definition entry_text (e : entry) : pystr :=
  start_tag e ++ string_content e ++ end_tag e.

(** [(<string[^>]*>)(.*?)(</string>)] with [re.DOTALL], tried at the head
    of [s].  [[^>]*] is greedy, but giving characters back leaves a
    character other than [>] where [>] is required, so the tag ends at
    the first [>]; the lazy [.*?] stops at the first [</string>]. *)
Definition match_entry (s : pystr) : option (entry * nat) :=
  match strip_prefix open_string s with
  | None => None
  | Some r =>
      let (attrs, r1) := span_not c_gt r in
      match strip_prefix [c_gt] r1 with
      | None => None
      | Some r2 =>
          match find_sub close_string r2 with
          | None => None
          | Some (content, _) =>
              let e := Entry (open_string ++ attrs ++ [c_gt]) content close_string in
              Some (e, length (entry_text e))
          end
      end
  end.

(** The content of one entry after the brand rules. *)
Definition brand_content (c : pystr) : pystr :=
  let c1 := str_replace Firefox Waterfox c in
  if negb (contains Mozilla_Account c1)
  then str_replace Mozilla BrowserWorks c1
  else c1.

Definition replace_in_string (e : entry) : pystr :=
  start_tag e ++ brand_content (string_content e) ++ end_tag e.

Definition replace_brand_names (content : pystr) : pystr :=
  scan_sub match_entry replace_in_string content.

(** ** Pass 2: format specifiers *)

Definition tracker_open : pystr :=
  Eval cbv in
    lit "<string name=" ++ [c_quote] ++
    lit "trackers_blocked_panel_categorical_num_trackers_blocked" ++ [c_quote].

Definition pct_s : pystr := Eval cbv in lit "%s".
Definition pct_d : pystr := Eval cbv in lit "%d".
Definition pct_1s : pystr := Eval cbv in lit "%1$s".
Definition pct_2d : pystr := Eval cbv in lit "%2$d".

(** The groups of the format pattern: opening tag, text between the two
    specifiers, closing tag. *)
Record fmt_groups := FmtGroups {
  fmt_start : pystr;
  fmt_middle : pystr;
  fmt_end : pystr
}.

(** [(<string name="trackers_..."[^>]*>)%s([^%]*?)%d(</string>)] tried at
    the head of [s].  The lazy [[^%]*?] can only stop in front of a [%],
    and cannot pass one: the middle text is the run up to the first [%]. *)
Definition match_format (s : pystr) : option (fmt_groups * nat) :=
  match strip_prefix tracker_open s with
  | None => None
  | Some r =>
      let (attrs, r1) := span_not c_gt r in
      match strip_prefix [c_gt] r1 with
      | None => None
      | Some r2 =>
          match strip_prefix pct_s r2 with
          | None => None
          | Some r3 =>
              let (middle, r4) := span_not c_percent r3 in
              match strip_prefix pct_d r4 with
              | None => None
              | Some r5 =>
                  match strip_prefix close_string r5 with
                  | None => None
                  | Some _ =>
                      let tag := tracker_open ++ attrs ++ [c_gt] in
                      Some (FmtGroups tag middle close_string,
                            length tag + length pct_s + length middle
                            + length pct_d + length close_string)%nat
                  end
              end
          end
      end
  end.

Definition replace_format_specifiers (g : fmt_groups) : pystr :=
  fmt_start g ++ pct_1s ++ fmt_middle g ++ pct_2d ++ fmt_end g.

Definition fix_format_specifiers (content : pystr) : pystr :=
  scan_sub match_format replace_format_specifiers content.

(** ** Pass 3: apostrophes *)

(** [re.IGNORECASE] on a [str] pattern.  A cased pattern character is
    compiled to its lowercase [lo]; a text character [c] matches when the
    simple lowercase mapping of [c] is [lo] or one of the extra
    equivalents the [re] compiler lists for [lo].  The patterns of the
    script are ASCII, so the mapping is written out where its image is an
    ASCII letter: [A]-[Z], U+0130 (to [i]) and U+212A, the Kelvin sign
    (to [k]); on every other code point it is never compared equal to
    such a letter and is left as the identity.  The extra equivalents are
    U+0131 for [i] and U+017F for [s]. *)
Definition is_ascii_upper (c : char) : bool := (65 <=? c) && (c <=? 90).
Definition is_ascii_lower (c : char) : bool := (97 <=? c) && (c <=? 122).
Definition iscased (c : char) : bool := is_ascii_upper c || is_ascii_lower c.

Definition unicode_tolower (c : char) : char :=
  if is_ascii_upper c then c + 32
  else if c =? 304 then 105
  else if c =? 8490 then 107
  else c.

Definition ignorecase_fixes (lo : char) : list char :=
  if lo =? 105 then [305]
  else if lo =? 115 then [383]
  else [].

Definition char_match_ci (p c : char) : bool :=
  if iscased p
  then let lo := unicode_tolower p in
       existsb (N.eqb (unicode_tolower c)) (lo :: ignorecase_fixes lo)
  else c =? p.

Fixpoint prefix_ci (p s : pystr) : bool :=
  match p, s with
  | [], _ => true
  | _ :: _, [] => false
  | a :: p', b :: s' => char_match_ci a b && prefix_ci p' s'
  end.

Definition match_literal_ci (pat s : pystr) : option (unit * nat) :=
  if prefix_ci pat s then Some (tt, length pat) else None.

(** [re.sub(pattern, replacement, s, flags=re.IGNORECASE)] for a literal,
    non-empty pattern.  In the replacement template a backslash before an
    apostrophe is not an escape the template language knows, and both
    characters are kept: the emitted text is the template as written. *)
Definition re_sub_ci (pattern replacement s : pystr) : pystr :=
  scan_sub (match_literal_ci pattern) (fun _ => replacement) s.

Definition apostrophe_patterns : list (pystr * pystr) :=
  Eval cbv in
  [ (lit "BrowserWorks's", lit "BrowserWorks\'s");
    (lit "you're", lit "you\'re");
    (lit "you'll", lit "you\'ll");
    (lit "we're", lit "we\'re");
    (lit "we'll", lit "we\'ll");
    (lit "they're", lit "they\'re");
    (lit "they'll", lit "they\'ll");
    (lit "it's", lit "it\'s");
    (lit "that's", lit "that\'s");
    (lit "what's", lit "what\'s");
    (lit "here's", lit "here\'s");
    (lit "there's", lit "there\'s");
    (lit "let's", lit "let\'s");
    (lit "don't", lit "don\'t");
    (lit "doesn't", lit "doesn\'t");
    (lit "won't", lit "won\'t");
    (lit "can't", lit "can\'t");
    (lit "couldn't", lit "couldn\'t");
    (lit "wouldn't", lit "wouldn\'t");
    (lit "shouldn't", lit "shouldn\'t");
    (lit "mustn't", lit "mustn\'t");
    (lit "haven't", lit "haven\'t");
    (lit "hasn't", lit "hasn\'t");
    (lit "hadn't", lit "hadn\'t");
    (lit "isn't", lit "isn\'t");
    (lit "wasn't", lit "wasn\'t");
    (lit "weren't", lit "weren\'t");
    (lit "aren't", lit "aren\'t") ].

(** The loop over the pattern list, on the content of one entry. *)
Definition apostrophes_content (c : pystr) : pystr :=
  fold_left (fun acc pr => re_sub_ci (fst pr) (snd pr) acc) apostrophe_patterns c.

Definition fix_apostrophes_in_string (e : entry) : pystr :=
  start_tag e ++ apostrophes_content (string_content e) ++ end_tag e.

Definition fix_apostrophes (content : pystr) : pystr :=
  scan_sub match_entry fix_apostrophes_in_string content.

(** ** Pass 4 and the pipeline of [process_file] *)

Definition artifact : pystr := Eval cbv in [c_quote; c_gt; c_gt].
Definition artifact_fixed : pystr := Eval cbv in [c_quote; c_gt].

Definition clean_artifacts (content : pystr) : pystr :=
  str_replace artifact artifact_fixed content.

(** What [process_file] writes back for a file that reads as [content]. *)
Definition transform (content : pystr) : pystr :=
  let content := replace_brand_names content in
  let content := fix_format_specifiers content in
  let content := fix_apostrophes content in
  clean_artifacts content.

(** ** Files, console and exceptions *)

(** An exception as the script sees it: its message. *)
Record exn := Exn { exn_message : pystr }.

Inductive result (A : Type) : Type :=
| Return (a : A)
| Raised (e : exn).
Arguments Return {A} a.
Arguments Raised {A} e.

(** [str(n)] for a count. *)
Definition str_of_nat (n : nat) : pystr :=
  lit (NilEmpty.string_of_uint (Nat.to_uint n)).

(** [glob.glob] of
    [mobile/android/fenix/app/src/main/res/values*/strings.xml]: the
    paths, relative to the working directory, of the files named
    [strings.xml] in a directory whose name begins with [values]; the
    star stands for any run of characters without [/]. *)
Definition values_dir : pystr :=
  Eval cbv in lit "mobile/android/fenix/app/src/main/res/values".
Definition strings_xml : pystr := Eval cbv in lit "/strings.xml".

Definition glob_match (path : pystr) : bool :=
  match strip_prefix values_dir path with
  | None => false
  | Some rest =>
      let (_, tail) := span_not 47 rest in
      if list_eq_dec N.eq_dec tail strings_xml then true else false
  end.

Module IO.
Section Run.
(** The file system is the environment of the script: its state [W],
    what globbing the fixed pattern finds, and reading and writing a
    file as UTF-8 text, either of which may raise. *)
Variable W : Type.
Variable glob_strings : W -> list pystr.
Variable read_text : W -> pystr -> result pystr.
Variable write_text : W -> pystr -> pystr -> result unit * W.
(** The standard output may refuse a line: the stream cannot encode it,
    or cannot be written to.  The environment says, from its state, the
    lines printed so far and the line, which exception [print] raises,
    if any; a line that is refused is not printed. *)
Variable print_error : W -> list pystr -> pystr -> option exn.

(** The state of a run: the file system and the lines printed so far. *)
Record state := State { world : W; console : list pystr }.

Definition io (A : Type) : Type := state -> result A * state.

Definition ret {A} (a : A) : io A := fun st => (Return a, st).

Definition bind {A B} (c : io A) (k : A -> io B) : io B :=
  fun st =>
    match c st with
    | (Return a, st') => k a st'
    | (Raised e, st') => (Raised e, st')
    end.

(** [try: body  except Exception as e: handler(e)] *)
Definition try_except {A} (body : io A) (handler : exn -> io A) : io A :=
  fun st =>
    match body st with
    | (Return a, st') => (Return a, st')
    | (Raised e, st') => handler e st'
    end.

Definition print (line : pystr) : io unit :=
  fun st =>
    match print_error (world st) (console st) line with
    | Some e => (Raised e, st)
    | None => (Return tt, State (world st) (console st ++ [line]))
    end.

Definition open_read (path : pystr) : io pystr :=
  fun st => (read_text (world st) path, st).

Definition open_write (path content : pystr) : io unit :=
  fun st =>
    let (r, w) := write_text (world st) path content in
    (r, State w (console st)).

Notation "x <- c ;; k" := (bind c (fun x => k))
  (at level 61, c at next level, right associativity).
Notation "c ;;; k" := (bind c (fun _ => k))
  (at level 61, right associativity).

Definition process_file (file_path : pystr) : io bool :=
  try_except
    (content <- open_read file_path ;;
     open_write file_path (transform content) ;;;
     ret true)
    (fun e =>
       print (lit "Error processing " ++ file_path ++ lit ": " ++ exn_message e) ;;;
       ret false).

(** The [for] loop of [process_string_files], with its counter. *)
Fixpoint process_each (files : list pystr) (success_count : nat) : io nat :=
  match files with
  | [] => ret success_count
  | file_path :: rest =>
      print (lit "Processing: " ++ file_path) ;;;
      ok <- process_file file_path ;;
      process_each rest (if ok then S success_count else success_count)
  end.

Definition process_string_files : io unit :=
  fun st =>
    let files := glob_strings (world st) in
    match files with
    | [] => print (lit "No strings.xml files found!") st
    | _ :: _ =>
        (print (lit "Found " ++ str_of_nat (length files)
                ++ lit " strings.xml files to process") ;;;
         success_count <- process_each files 0 ;;
         print ([10] ++ lit "Successfully processed " ++ str_of_nat success_count
                ++ lit "/" ++ str_of_nat (length files) ++ lit " files")) st
    end.

(** [main]: what the script will do, the run, and the commands to check
    it with. *)
Definition main : io unit :=
  print (lit "Starting comprehensive brand replacement...") ;;;
  print (lit "This script will:") ;;;
  print (lit "1. Replace Firefox " ++ [8594] ++ lit " Waterfox") ;;;
  print (lit "2. Replace Mozilla " ++ [8594]
         ++ lit " BrowserWorks (preserving Mozilla Account references)") ;;;
  print (lit "3. Fix format specifiers to use positional format") ;;;
  print (lit "4. Fix apostrophe escaping for Android strings") ;;;
  print (lit "5. Clean up any artifacts") ;;;
  print [] ;;;
  process_string_files ;;;
  print ([10] ++ lit "Brand replacement completed!") ;;;
  print ([10] ++ lit "Verification commands:") ;;;
  print (lit "grep -r '>.*Waterfox.*</string>' mobile/android/fenix/app/src/main/res/values*/strings.xml | wc -l") ;;;
  print (lit "grep -r '>.*BrowserWorks.*</string>' mobile/android/fenix/app/src/main/res/values*/strings.xml | wc -l") ;;;
  print (lit "grep -r 'Mozilla account' mobile/android/fenix/app/src/main/res/values*/strings.xml | wc -l").
End Run.
End IO.

(** * Vocabulary of the properties *)

(** ** Occurrences *)

(** [c in p], for a character. *)
Definition mem (c : char) (p : pystr) : bool := existsb (N.eqb c) p.

(** Number of positions of [s] at which [p] occurs. *)
Fixpoint occurrences (p s : pystr) : nat :=
  ((if prefix_of p s then 1 else 0) +
   match s with
   | [] => 0
   | _ :: s' => occurrences p s'
   end)%nat.

(** ** Matchers and the pieces of a scan *)

(** A matcher reports matches that are there: non-empty, and inside the
    text. *)
Definition matcher_ok (G : Type) (m : pystr -> option (G * nat)) : Prop :=
  forall s g len, m s = Some (g, len) ->
    exists a r, s = a ++ r /\ length a = len /\ a <> [].

(** A scan cuts the text into the matches it replaces and the characters
    it copies. *)
Fixpoint parts_from (G : Type) (m : pystr -> option (G * nat))
    (skip : nat) (s : pystr) : list (char + G) :=
  match s with
  | [] => []
  | c :: s' =>
      match skip with
      | S k => parts_from m k s'
      | O =>
          match m s with
          | Some (g, len) => inr g :: parts_from m (pred len) s'
          | None => inl c :: parts_from m 0 s'
          end
      end
  end.

Definition scan_parts (G : Type) (m : pystr -> option (G * nat)) (s : pystr)
    : list (char + G) :=
  parts_from m 0 s.

(** The text of a piece, with [repl] for the matches. *)
Definition render (G : Type) (repl : G -> pystr) (p : char + G) : pystr :=
  match p with
  | inl c => [c]
  | inr g => repl g
  end.

(** ** String entries *)

(** What a match of the entry pattern looks like. *)
Record is_entry (e : entry) : Prop := {
  entry_open : exists attrs,
    start_tag e = open_string ++ attrs ++ [c_gt] /\ ~ In c_gt attrs;
  entry_close : end_tag e = close_string;
  entry_first_close : contains close_string (string_content e) = false
}.

(** The brand pass and the apostrophe pass are the same scan, with a
    different function [f] applied to the content of each entry. *)
Definition on_content (f : pystr -> pystr) (e : entry) : pystr :=
  start_tag e ++ f (string_content e) ++ end_tag e.

Definition map_content (f : pystr -> pystr) (e : entry) : entry :=
  Entry (start_tag e) (f (string_content e)) (end_tag e).

Definition map_piece (f : pystr -> pystr) (p : char + entry) : char + entry :=
  match p with
  | inl c => inl c
  | inr e => inr (map_content f e)
  end.

Definition sub_entries (f : pystr -> pystr) (text : pystr) : pystr :=
  scan_sub match_entry (on_content f) text.

(** The entries of a text and the characters between them. *)
Definition entry_parts (text : pystr) : list (char + entry) :=
  scan_parts match_entry text.

(** The text outside the content spans: every entry with its content
    taken out. *)
Definition outside_content (text : pystr) : pystr :=
  flat_map (render (on_content (fun _ => []))) (entry_parts text).

(** ** Sample texts *)

(** [<string name="NAME">CONTENT</string>] *)
Definition string_entry (name content : pystr) : pystr :=
  lit "<string name=" ++ [c_quote] ++ name ++ [c_quote; c_gt]
  ++ content ++ close_string.

(** [<string-array name="a"><item>ITEM</item></string-array>] followed by
    [<string name="b">x</string>]. *)
Definition array_sample (item : pystr) : pystr :=
  lit "<string-array name=" ++ [c_quote] ++ lit "a" ++ [c_quote; c_gt]
  ++ lit "<item>" ++ item ++ lit "</item></string-array>"
  ++ string_entry (lit "b") (lit "x").

(** [<string name="trackers_..."ATTRS>CONTENT</string>] *)
Definition tracker_entry (attrs content : pystr) : pystr :=
  tracker_open ++ attrs ++ [c_gt] ++ content ++ close_string.

(** ** Matches of the format pattern *)

(** The text a match of the format pattern stands for. *)
Definition format_text (g : fmt_groups) : pystr :=
  fmt_start g ++ pct_s ++ fmt_middle g ++ pct_d ++ fmt_end g.

(** What a match of the format pattern looks like: the opening tag of
    the tracker entry, a middle text without [%], and the closing tag. *)
Record is_format_match (g : fmt_groups) : Prop := {
  format_open : exists attrs,
    fmt_start g = tracker_open ++ attrs ++ [c_gt] /\ ~ In c_gt attrs;
  format_middle : ~ In c_percent (fmt_middle g);
  format_close : fmt_end g = close_string
}.

(** ** Letter case *)

(** A representative of the letters a case-insensitive pattern character
    matches. *)
Definition casefold (c : char) : char :=
  let l := unicode_tolower c in
  if l =? 305 then 105 else if l =? 383 then 115 else l.

Definition fold_str (s : pystr) : pystr := map casefold s.

(** The characters of the listed patterns: letters and the apostrophe. *)
Definition pattern_char (p : char) : bool := iscased p || (p =? c_apos).

(** ** Escaping by context *)

(** One walk over the text, with the text already passed (nearest
    character first) and the text to come at hand: an apostrophe that the
    test accepts gets a backslash. *)
Fixpoint escape_with (test : pystr -> pystr -> bool)
    (before_rev s : pystr) : pystr :=
  match s with
  | [] => []
  | c :: s' =>
      (if (c =? c_apos) && test before_rev s' then [c_backslash; c] else [c])
      ++ escape_with test (c :: before_rev) s'
  end.

(** The apostrophe of the form [u'v]: [u] ends the text before it and
    [v] begins the text after it. *)
Definition in_form (u v before_rev after : pystr) : bool :=
  prefix_of (rev u) before_rev && prefix_of v after.

(** No occurrence of the form [u'v] has begun in the text already
    passed. *)
Definition none_pending (u v before_rev s : pystr) : Prop :=
  forall u1 u2, u = u1 ++ u2 -> u1 <> [] ->
    prefix_of (rev u1) before_rev = true ->
    prefix_of (u2 ++ c_apos :: v) s = false.

(** The text already passed, as the input has it and as the output has
    it after earlier escapes. *)
Inductive escaped_ctx : pystr -> pystr -> Prop :=
| ctx_nil : escaped_ctx [] []
| ctx_plain c xs ys :
    escaped_ctx xs ys -> escaped_ctx (c :: xs) (c :: ys)
| ctx_escaped xs ys :
    escaped_ctx xs ys -> escaped_ctx (c_apos :: xs) (c_apos :: c_backslash :: ys).

(** ** The listed forms *)

(** A pattern of the list, cut at its apostrophe. *)
Definition split_form (pat : pystr) : pystr * pystr :=
  let (u, r) := span_not c_apos pat in (u, tl r).

Definition listed_forms : list (pystr * pystr) :=
  map (fun pr => split_form (fst pr)) apostrophe_patterns.

(** An apostrophe stands in a listed form when, letter case aside, the
    text before it ends with the part of a form before its apostrophe and
    the text after it begins with the part after. *)
Definition in_listed_form (before_rev after : pystr) : bool :=
  existsb (fun f => prefix_ci (rev (fst f)) before_rev && prefix_ci (snd f) after)
          listed_forms.

(** The text with a backslash before every apostrophe that stands in a
    listed form, and nothing else changed. *)
Definition escape_listed (s : pystr) : pystr :=
  escape_with in_listed_form [] s.

(** The escape test of a list of pairs, on case-folded text. *)
Definition folded_test (L : list (pystr * pystr)) (b a : pystr) : bool :=
  existsb (fun pr =>
             let f := split_form (fst pr) in
             in_form (fold_str (fst f)) (fold_str (snd f)) b a) L.

(** The same test with letter case set aside, on the text itself. *)
Definition ci_test (L : list (pystr * pystr)) (b a : pystr) : bool :=
  existsb (fun f => prefix_ci (rev (fst f)) b && prefix_ci (snd f) a)
          (map (fun pr => split_form (fst pr)) L).

(** One substitution of the loop, on case-folded text. *)
Definition folded_step (acc : pystr) (pr : pystr * pystr) : pystr :=
  str_replace (fold_str (fst pr)) (fold_str (snd pr)) acc.

Definition str_eqb (a b : pystr) : bool :=
  if list_eq_dec N.eq_dec a b then true else false.

(** What the apostrophe pass relies on, for one pair of the list: the
    pattern is letters around one apostrophe, the replacement is the
    pattern with a backslash before the apostrophe (letter case aside),
    and the pattern cannot overlap itself. *)
Definition pattern_ok (pr : pystr * pystr) : bool :=
  let (u, v) := split_form (fst pr) in
  let fu := fold_str u in
  let fv := fold_str v in
  forallb pattern_char (fst pr) &&
  forallb pattern_char u && forallb pattern_char v &&
  str_eqb (fold_str (fst pr)) (fu ++ c_apos :: fv) &&
  str_eqb (fold_str (snd pr)) (fu ++ c_backslash :: c_apos :: fv) &&
  negb (mem c_apos fu) && negb (mem c_backslash fu) &&
  negb (mem c_apos fv) && negb (mem c_backslash fv) &&
  match fu with
  | [] => false
  | a :: _ => negb (mem a fv)
  end.

(** ** Structure characters *)

(** The characters on which the structure of a file rests; the brand
    names and the escaped contractions have none of them. *)
Definition special_chars : pystr := [c_quote; c_percent; 47; c_lt; c_gt].

Definition plain (w : pystr) : bool :=
  forallb (fun ch => negb (mem ch w)) special_chars.

(** The characters no pass adds or removes. *)
Definition kept_chars : pystr := [c_quote; c_percent; 47; c_lt; c_apos].

(** [s.count(ch)] for a character. *)
Definition count_char (ch : char) (s : pystr) : nat := count_occ N.eq_dec s ch.

(** A pair of the list keeps to letters, apostrophe and backslash. *)
Definition pattern_frame (pr : pystr * pystr) : bool :=
  forallb pattern_char (fst pr) && mem c_apos (fst pr)
  && plain (snd pr) && mem c_apos (snd pr).

(** Two texts that cannot be told apart by an artifact that ends in them
    or lies in them. *)
Definition art_agree (t t' : pystr) : Prop :=
  prefix_of [c_gt] t = prefix_of [c_gt] t' /\
  prefix_of [c_gt; c_gt] t = prefix_of [c_gt; c_gt] t' /\
  contains artifact t = contains artifact t'.

(** ** Texts with characters put in

    The format pass puts [1$] and [2$] after a [%]; escaping puts a
    backslash before an apostrophe.  [inserted m foreign s s']: the text
    [s'] is [s] with characters of the class [foreign] put in around
    some occurrences of the character [m]. *)
Inductive inserted (m : char) (foreign : char -> bool) : pystr -> pystr -> Prop :=
| inserted_nil : inserted m foreign [] []
| inserted_copy c s s' :
    inserted m foreign s s' -> inserted m foreign (c :: s) (c :: s')
| inserted_at w1 w2 s s' :
    forallb foreign w1 = true -> forallb foreign w2 = true ->
    inserted m foreign s s' ->
    inserted m foreign (m :: s) (w1 ++ m :: w2 ++ s').

(** A literal the insertions cannot touch: it has neither [m] nor a
    character of the class. *)
Definition clear (m : char) (foreign : char -> bool) (q : pystr) : bool :=
  forallb (fun c => negb (c =? m) && negb (foreign c)) q.

Definition numbering_char (c : char) : bool := (c =? 49) || (c =? 50) || (c =? 36).

(** [s'] is [s] with position numbers put after some [%]. *)
Definition numbered : pystr -> pystr -> Prop := inserted c_percent numbering_char.

(** [s'] is [s] with a backslash put before some apostrophes. *)
Definition escaped : pystr -> pystr -> Prop :=
  inserted c_apos (fun c => c =? c_backslash).

(** ** Texts a second run leaves alone *)

(** A content span the brand rules have nothing to do on. *)
Definition brand_fixed (c : pystr) : Prop :=
  contains Firefox c = false /\
  (contains Mozilla_Account c = true \/ contains Mozilla c = false).

(** A property of the content of every entry of a text. *)
Definition every_content (P : pystr -> Prop) (text : pystr) : Prop :=
  Forall (fun p => match p with
                   | inl _ => True
                   | inr e => P (string_content e)
                   end)
         (entry_parts text).

(** The format pattern matches nowhere in the text. *)
Definition no_format_match (text : pystr) : Prop :=
  forall a b, text = a ++ b -> match_format b = None.

(** ** The outcome of a run *)

Module Run.
Section Outcome.
Variable W : Type.
Variable read_text : W -> pystr -> result pystr.
Variable write_text : W -> pystr -> pystr -> result unit * W.
Variable print_error : W -> list pystr -> pystr -> option exn.

(** The standard output accepts the lines of a list, whenever they are
    printed. *)
Definition accepted (lines : list pystr) : Prop :=
  forall w out line, In line lines -> print_error w out line = None.

Definition processing_line (path : pystr) : pystr := lit "Processing: " ++ path.

Definition error_line (path : pystr) (e : exn) : pystr :=
  lit "Error processing " ++ path ++ lit ": " ++ exn_message e.

Definition found_line (n : nat) : pystr :=
  lit "Found " ++ str_of_nat n ++ lit " strings.xml files to process".

Definition summary_line (successes total : nat) : pystr :=
  [10] ++ lit "Successfully processed " ++ str_of_nat successes
  ++ lit "/" ++ str_of_nat total ++ lit " files".

(** What happens to one file: the exception that stopped its processing,
    if any, and the file system afterwards. *)
Definition file_outcome (w : W) (path : pystr) : option exn * W :=
  match read_text w path with
  | Raised e => (Some e, w)
  | Return content =>
      match write_text w path (transform content) with
      | (Return _, w') => (None, w')
      | (Raised e, w') => (Some e, w')
      end
  end.

(** The files in order, each on the file system the ones before it left. *)
Fixpoint run_files (files : list pystr) (w : W) : list (pystr * option exn) * W :=
  match files with
  | [] => ([], w)
  | path :: rest =>
      let (o, w1) := file_outcome w path in
      let (os, w2) := run_files rest w1 in
      ((path, o) :: os, w2)
  end.

(** The lines one file adds to the console. *)
Definition report (po : pystr * option exn) : list pystr :=
  processing_line (fst po) ::
  match snd po with
  | None => []
  | Some e => [error_line (fst po) e]
  end.

Definition succeeded (po : pystr * option exn) : bool :=
  match snd po with
  | None => true
  | Some _ => false
  end.

Definition successes (os : list (pystr * option exn)) : nat :=
  length (filter succeeded os).

(** What a run prints, from the files found and what became of them. *)
Definition run_lines (os : list (pystr * option exn)) : list pystr :=
  match os with
  | [] => [lit "No strings.xml files found!"]
  | _ :: _ =>
      [found_line (length os)] ++ flat_map report os
      ++ [summary_line (successes os) (length os)]
  end.
End Outcome.

(** The lines [main] prints before the run and after it. *)
Definition banner : list pystr :=
  [ lit "Starting comprehensive brand replacement...";
    lit "This script will:";
    lit "1. Replace Firefox " ++ [8594] ++ lit " Waterfox";
    lit "2. Replace Mozilla " ++ [8594]
    ++ lit " BrowserWorks (preserving Mozilla Account references)";
    lit "3. Fix format specifiers to use positional format";
    lit "4. Fix apostrophe escaping for Android strings";
    lit "5. Clean up any artifacts";
    [] ].

Definition closing : list pystr :=
  [ [10] ++ lit "Brand replacement completed!";
    [10] ++ lit "Verification commands:";
    lit "grep -r '>.*Waterfox.*</string>' mobile/android/fenix/app/src/main/res/values*/strings.xml | wc -l";
    lit "grep -r '>.*BrowserWorks.*</string>' mobile/android/fenix/app/src/main/res/values*/strings.xml | wc -l";
    lit "grep -r 'Mozilla account' mobile/android/fenix/app/src/main/res/values*/strings.xml | wc -l" ].
End Run.

(** ** A file system in memory

    The simplest environment the script can run in: the files by path,
    each path once.  A file holds the text as [read()] returns it, or
    cannot be opened (a directory, a file without permission, bytes that
    are not UTF-8) and then holds the exception that opening or reading
    it raises.  Opening a path that is not there raises the exception the
    environment gives for it; writing creates the file. *)

Module MemFS.
Inductive file : Type :=
| Text (content : pystr)
| Unreadable (e : exn).

Definition fs : Type := list (pystr * file).

Definition has_path (path : pystr) (pf : pystr * file) : bool :=
  if list_eq_dec N.eq_dec (fst pf) path then true else false.

Definition lookup (path : pystr) (w : fs) : option file :=
  option_map snd (find (has_path path) w).

Definition store (path : pystr) (f : file) (w : fs) : fs :=
  if existsb (has_path path) w
  then map (fun pf => if has_path path pf then (path, f) else pf) w
  else w ++ [(path, f)].

Section Env.
Variable no_such_file : pystr -> exn.

Definition read_text (w : fs) (path : pystr) : result pystr :=
  match lookup path w with
  | Some (Text content) => Return content
  | Some (Unreadable e) => Raised e
  | None => Raised (no_such_file path)
  end.

End Env.

Definition write_text (w : fs) (path content : pystr) : result unit * fs :=
  match lookup path w with
  | Some (Unreadable e) => (Raised e, w)
  | _ => (Return tt, store path (Text content) w)
  end.

Definition glob_strings (w : fs) : list pystr := filter glob_match (map fst w).

(** One file rewritten, when it is a text. *)
Definition rewrite_file (pf : pystr * file) : pystr * file :=
  match snd pf with
  | Text content => (fst pf, Text (transform content))
  | Unreadable _ => pf
  end.

(** The file system with the files of a list rewritten, and with every
    file the pattern finds rewritten. *)
Definition rewrite_files (files : list pystr) (w : fs) : fs :=
  map (fun pf => if existsb (fun q => has_path q pf) files
                 then rewrite_file pf else pf) w.

Definition rewritten (w : fs) : fs :=
  map (fun pf => if glob_match (fst pf) then rewrite_file pf else pf) w.

(** What becomes of the file at a path: nothing when it is a text, the
    exception it holds otherwise. *)
Definition outcome (w : fs) (path : pystr) : option exn :=
  match lookup path w with
  | Some (Unreadable e) => Some e
  | _ => None
  end.

Definition outcomes (w : fs) : list (pystr * option exn) :=
  map (fun path => (path, outcome w path)) (glob_strings w).
End MemFS.

(** ** A standard output that encodes strictly

    [print] on a UTF-8 stream with the [strict] error handler: a line
    with a surrogate code point (as in a path with a byte that is not
    UTF-8) raises [UnicodeEncodeError], whose message names the first run
    of surrogates. *)

Definition is_surrogate (c : char) : bool := (55296 <=? c) && (c <=? 57343).

Definition hex_digit (d : N) : char :=
  nth (N.to_nat d) (lit "0123456789abcdef") 48.

Definition hex4 (c : char) : pystr :=
  [hex_digit (c / 4096); hex_digit ((c / 256) mod 16);
   hex_digit ((c / 16) mod 16); hex_digit (c mod 16)].

(** The first run of surrogates of a text, with its position. *)
Fixpoint surrogate_run (s : pystr) : pystr :=
  match s with
  | [] => []
  | c :: s' => if is_surrogate c then c :: surrogate_run s' else []
  end.

Fixpoint first_surrogates (start : nat) (s : pystr) : option (nat * pystr) :=
  match s with
  | [] => None
  | c :: s' =>
      if is_surrogate c then Some (start, surrogate_run s)
      else first_surrogates (S start) s'
  end.

Definition unicode_encode_error (start : nat) (run : pystr) : exn :=
  Exn match run with
      | [c] =>
          lit "'utf-8' codec can't encode character '\u" ++ hex4 c
          ++ lit "' in position " ++ str_of_nat start
          ++ lit ": surrogates not allowed"
      | _ =>
          lit "'utf-8' codec can't encode characters in position "
          ++ str_of_nat start ++ lit "-"
          ++ str_of_nat (start + length run - 1)
          ++ lit ": surrogates not allowed"
      end.

Definition strict_utf8 (W : Type) (_ : W) (_ : list pystr) (line : pystr) : option exn :=
  match first_surrogates 0 line with
  | Some (start, run) => Some (unicode_encode_error start run)
  | None => None
  end.


(** * Properties *)

(** ** Prefixes, runs and first occurrences *)

Lemma skipn_length_app (A : Type) (a r : list A) : skipn (length a) (a ++ r) = r.
Proof. induction a as [|x a IH]; simpl; auto. Qed.

Lemma app_same_length (A : Type) (a b r r' : list A) :
  a ++ r = b ++ r' -> length a = length b -> a = b /\ r = r'.
Proof.
  revert b. induction a as [|x a IH]; intros [|y b] H L; simpl in *;
    try discriminate; auto.
  injection H as -> H. injection L as L.
  destruct (IH _ H L) as [-> ->]. auto.
Qed.

Lemma prefix_of_cons a p b s :
  prefix_of (a :: p) (b :: s) = (a =? b) && prefix_of p s.
Proof. reflexivity. Qed.

Lemma prefix_of_app p r : prefix_of p (p ++ r) = true.
Proof.
  induction p as [|a p IH]; simpl; auto.
  rewrite N.eqb_refl, IH. reflexivity.
Qed.

Lemma prefix_of_split p : forall s,
  prefix_of p s = true -> s = p ++ skipn (length p) s.
Proof.
  induction p as [|a p IH]; intros [|b s] H; simpl in *; try discriminate; auto.
  apply andb_true_iff in H. destruct H as [Hab Hp].
  apply N.eqb_eq in Hab. subst b. f_equal. auto.
Qed.

Lemma prefix_of_true_iff p s :
  prefix_of p s = true <-> exists r, s = p ++ r.
Proof.
  split.
  - intros H. eexists. apply prefix_of_split, H.
  - intros [r ->]. apply prefix_of_app.
Qed.

Lemma strip_prefix_some p s r : strip_prefix p s = Some r -> s = p ++ r.
Proof.
  unfold strip_prefix. destruct (prefix_of p s) eqn:E; [|discriminate].
  intros [= <-]. apply prefix_of_split, E.
Qed.

Lemma strip_prefix_app p r : strip_prefix p (p ++ r) = Some r.
Proof.
  unfold strip_prefix. rewrite prefix_of_app, skipn_length_app. reflexivity.
Qed.

Lemma strip_prefix_cons c s : strip_prefix [c] (c :: s) = Some s.
Proof. apply (strip_prefix_app [c] s). Qed.

Lemma span_not_spec c : forall s a b,
  span_not c s = (a, b) ->
  s = a ++ b /\ ~ In c a /\ (b = [] \/ exists b', b = c :: b').
Proof.
  induction s as [|x s IH]; simpl; intros a b H.
  - injection H as <- <-. repeat split; auto.
  - destruct (N.eqb_spec x c) as [->|Hne].
    + injection H as <- <-. repeat split; eauto.
    + destruct (span_not c s) as [a' b'] eqn:E. injection H as <- <-.
      destruct (IH _ _ eq_refl) as (-> & Hn & Hb).
      repeat split; auto. intros [?|?]; [congruence|auto].
Qed.

Lemma span_not_app c a : forall b,
  ~ In c a -> span_not c (a ++ c :: b) = (a, c :: b).
Proof.
  induction a as [|x a IH]; simpl; intros b Hn.
  - rewrite N.eqb_refl. reflexivity.
  - destruct (N.eqb_spec x c) as [->|Hne]; [tauto|].
    rewrite IH by tauto. reflexivity.
Qed.

Lemma find_sub_spec p : forall s a b,
  find_sub p s = Some (a, b) -> s = a ++ p ++ b.
Proof.
  induction s as [|x s IH]; intros a b H.
  - simpl in H. destruct (prefix_of p []) eqn:E; [|discriminate].
    injection H as <- <-. simpl. apply prefix_of_split, E.
  - simpl in H. destruct (prefix_of p (x :: s)) eqn:E.
    + injection H as <- <-. simpl. apply prefix_of_split, E.
    + destruct (find_sub p s) as [[a' b']|] eqn:F; [|discriminate].
      injection H as <- <-. simpl. f_equal. auto.
Qed.

Lemma find_sub_here p s :
  prefix_of p s = true -> find_sub p s = Some ([], skipn (length p) s).
Proof. intros H. destruct s; simpl; rewrite H; reflexivity. Qed.

Lemma find_sub_none_contains p : forall s,
  find_sub p s = None -> contains p s = false.
Proof.
  induction s as [|x s IH]; simpl; intros H.
  - destruct (prefix_of p []); [discriminate|reflexivity].
  - destruct (prefix_of p (x :: s)); [discriminate|].
    destruct (find_sub p s) as [[? ?]|]; [discriminate|]. simpl. auto.
Qed.

Lemma contains_false_find_sub p : forall s,
  contains p s = false -> find_sub p s = None.
Proof.
  induction s as [|x s IH]; simpl; intros H.
  - rewrite orb_false_r in H. rewrite H. reflexivity.
  - apply orb_false_iff in H. destruct H as [H1 H2].
    rewrite H1, IH; auto.
Qed.

Lemma contains_app_r p a s : contains p s = true -> contains p (a ++ s) = true.
Proof.
  induction a as [|x a IH]; simpl; auto.
  intros H. rewrite IH by assumption. apply orb_true_r.
Qed.

Lemma contains_occ p a b : contains p (a ++ p ++ b) = true.
Proof.
  apply contains_app_r. destruct (p ++ b) eqn:E; simpl; rewrite <- E;
    rewrite prefix_of_app; reflexivity.
Qed.

Lemma contains_occ2 p a b t : contains p (a ++ b ++ p ++ t) = true.
Proof. rewrite app_assoc. apply contains_occ. Qed.

(** ** The substitution scan *)

Section ScanFacts.
Variable G : Type.
Variable m : pystr -> option (G * nat).
Variable repl : G -> pystr.

Lemma sub_from_skip a r :
  sub_from m repl (length a) (a ++ r) = sub_from m repl 0 r.
Proof. induction a as [|x a IH]; simpl; auto. Qed.

Lemma scan_sub_copy c s :
  m (c :: s) = None -> scan_sub m repl (c :: s) = c :: scan_sub m repl s.
Proof. unfold scan_sub. simpl. intros ->. reflexivity. Qed.

Lemma scan_sub_match s g a r :
  m s = Some (g, length a) -> a <> [] -> s = a ++ r ->
  scan_sub m repl s = repl g ++ scan_sub m repl r.
Proof.
  intros Hm Hne ->. destruct a as [|x a]; [congruence|].
  unfold scan_sub. simpl. simpl in Hm. rewrite Hm. simpl.
  rewrite sub_from_skip. reflexivity.
Qed.

Hypothesis m_ok : matcher_ok m.

(** Induction along the scan. *)
Lemma scan_ind (P : pystr -> Prop) :
  P [] ->
  (forall c s, m (c :: s) = None -> P s -> P (c :: s)) ->
  (forall g a r, m (a ++ r) = Some (g, length a) -> a <> [] -> P r -> P (a ++ r)) ->
  forall s, P s.
Proof.
  intros Hnil Hcopy Hmatch s.
  remember (length s) as n eqn:Hn.
  revert s Hn. induction n as [n IH] using lt_wf_ind. intros s Hn.
  destruct s as [|c s]; [exact Hnil|].
  destruct (m (c :: s)) as [[g len]|] eqn:E.
  - destruct (m_ok E) as (a & r & Hs & Hlen & Hne).
    rewrite Hs. apply Hmatch with g; auto.
    + rewrite <- Hs, Hlen. exact E.
    + apply (IH (length r)); auto.
      subst n. rewrite Hs, length_app. destruct a; [congruence|simpl; lia].
  - apply Hcopy; auto. apply (IH (length s)); auto. subst n. simpl. lia.
Qed.
End ScanFacts.

Lemma match_literal_ok old : old <> [] -> matcher_ok (match_literal old).
Proof.
  intros Hne s g len H. unfold match_literal in H.
  destruct (prefix_of old s) eqn:E; [|discriminate].
  injection H as _ <-. exists old, (skipn (length old) s).
  split; [apply prefix_of_split, E|auto].
Qed.

Lemma str_replace_hit old new r :
  old <> [] -> str_replace old new (old ++ r) = new ++ str_replace old new r.
Proof.
  intros Hne. unfold str_replace.
  apply scan_sub_match with (g := tt) (a := old); auto.
  unfold match_literal. rewrite prefix_of_app. reflexivity.
Qed.

Lemma str_replace_miss old new c s :
  prefix_of old (c :: s) = false ->
  str_replace old new (c :: s) = c :: str_replace old new s.
Proof.
  intros H. unfold str_replace. apply scan_sub_copy.
  unfold match_literal. rewrite H. reflexivity.
Qed.

(** Induction along [s.replace(old, _)]. *)
Lemma str_replace_ind old (P : pystr -> Prop) :
  old <> [] ->
  P [] ->
  (forall c s, prefix_of old (c :: s) = false -> P s -> P (c :: s)) ->
  (forall r, P r -> P (old ++ r)) ->
  forall s, P s.
Proof.
  intros Hne Hnil Hmiss Hhit.
  apply (scan_ind (match_literal_ok Hne)); auto.
  - intros c s H. apply Hmiss. unfold match_literal in H.
    destruct (prefix_of old (c :: s)); [discriminate|reflexivity].
  - intros g a r H _ Hr. unfold match_literal in H.
    destruct (prefix_of old (a ++ r)) eqn:E; [|discriminate].
    assert (Hlen : length old = length a) by congruence.
    apply prefix_of_split in E.
    destruct (app_same_length _ _ _ _ E (eq_sym Hlen)) as [-> _].
    apply Hhit, Hr.
Qed.

(** ** Replacements that do not interact with a pattern *)

Lemma mem_cons_false c a p :
  mem c (a :: p) = false -> (a =? c) = false /\ mem c p = false.
Proof.
  unfold mem. simpl. intros H. apply orb_false_iff in H.
  destruct H as [H1 H2]. rewrite N.eqb_sym. auto.
Qed.

Lemma mem_false_notin c p : mem c p = false -> ~ In c p.
Proof.
  unfold mem. intros H Hin.
  assert (existsb (N.eqb c) p = true); [|congruence].
  apply existsb_exists. exists c. split; auto. apply N.eqb_refl.
Qed.

Lemma contains_occurrences p s :
  contains p s = negb (Nat.eqb (occurrences p s) 0).
Proof.
  induction s as [|x s IH]; simpl.
  - destruct (prefix_of p []); reflexivity.
  - rewrite IH. destruct (prefix_of p (x :: s)); simpl; auto.
Qed.

Section Replace.
Variables (o n : char) (old' new' : pystr).
Local Abbreviation old := (o :: old').
Local Abbreviation new := (n :: new').

Lemma old_not_nil : old <> [].
Proof. discriminate. Qed.

(** A pattern using neither the first character of [old] nor that of
    [new] starts after the replacement where it started before. *)
Lemma prefix_of_str_replace p :
  mem o p = false -> mem n p = false ->
  forall s, prefix_of p (str_replace old new s) = prefix_of p s.
Proof.
  induction p as [|a p IH]; intros Ho Hn s; [reflexivity|].
  apply mem_cons_false in Ho. destruct Ho as [Hao Ho].
  apply mem_cons_false in Hn. destruct Hn as [Han Hn].
  destruct s as [|c s]; [reflexivity|].
  destruct (prefix_of old (c :: s)) eqn:E.
  - apply prefix_of_split in E. rewrite E.
    rewrite (str_replace_hit new _ old_not_nil).
    simpl. rewrite Hao, Han. reflexivity.
  - rewrite (str_replace_miss _ _ _ _ E). simpl. rewrite IH; auto.
Qed.

(** A pattern whose first character is in neither [old] nor [new] does
    not start inside them. *)
Lemma occurrences_skip a p x t :
  mem a x = false -> occurrences (a :: p) (x ++ t) = occurrences (a :: p) t.
Proof.
  induction x as [|c x IH]; intros H; [reflexivity|].
  apply mem_cons_false in H. destruct H as [Hc H].
  change ((c :: x) ++ t) with (c :: (x ++ t)).
  cbn [occurrences prefix_of]. rewrite N.eqb_sym in Hc. rewrite Hc. simpl. auto.
Qed.

Lemma occurrences_str_replace a p :
  mem o p = false -> mem n p = false ->
  mem a old = false -> mem a new = false ->
  forall s, occurrences (a :: p) (str_replace old new s) = occurrences (a :: p) s.
Proof.
  intros Ho Hn Hao Han.
  apply (str_replace_ind (old := old)); [discriminate|reflexivity| |].
  - intros c s E IH. rewrite (str_replace_miss _ _ _ _ E).
    cbn [occurrences prefix_of]. rewrite IH, prefix_of_str_replace; auto.
  - intros r IH. rewrite (str_replace_hit new _ old_not_nil).
    rewrite !occurrences_skip; auto.
Qed.

Lemma contains_str_replace a p :
  mem o p = false -> mem n p = false ->
  mem a old = false -> mem a new = false ->
  forall s, contains (a :: p) (str_replace old new s) = contains (a :: p) s.
Proof.
  intros. rewrite !contains_occurrences, occurrences_str_replace; auto.
Qed.

(** When [old] can neither start inside [new] nor overlap itself at its
    first character, nothing of it is left after the replacement. *)
Lemma str_replace_removes :
  mem o old' = false -> mem n old' = false -> mem o new = false ->
  forall s, occurrences old (str_replace old new s) = 0%nat.
Proof.
  intros Ho Hn Hon.
  apply (str_replace_ind (old := old)); [discriminate|reflexivity| |].
  - intros c s E IH. rewrite (str_replace_miss _ _ _ _ E).
    cbn [occurrences prefix_of] in *.
    rewrite IH, prefix_of_str_replace, E; auto.
  - intros r IH. rewrite (str_replace_hit new _ old_not_nil).
    rewrite occurrences_skip; auto.
Qed.

(** Without an occurrence there is nothing to replace. *)
Lemma str_replace_absent :
  forall s, occurrences old s = 0%nat -> str_replace old new s = s.
Proof.
  induction s as [|c s IH]; intros H; [reflexivity|].
  cbn [occurrences] in H.
  destruct (prefix_of old (c :: s)) eqn:E; [discriminate|].
  rewrite (str_replace_miss _ _ _ _ E), IH; auto.
Qed.
End Replace.

(** ** Brand rules on one content span *)

(** Replacing [Firefox] neither makes nor breaks an occurrence of
    [Mozilla Account]: the test the script runs after the first
    replacement is a test on the span as it was read. *)
Lemma protected_after_firefox c :
  contains Mozilla_Account (str_replace Firefox Waterfox c)
  = contains Mozilla_Account c.
Proof. apply contains_str_replace; reflexivity. Qed.

Lemma firefox_removed c :
  occurrences Firefox (str_replace Firefox Waterfox c) = 0%nat.
Proof. apply str_replace_removes; reflexivity. Qed.

Lemma mozilla_removed c :
  occurrences Mozilla (str_replace Mozilla BrowserWorks c) = 0%nat.
Proof. apply str_replace_removes; reflexivity. Qed.

Lemma mozilla_kept_by_firefox c :
  occurrences Mozilla (str_replace Firefox Waterfox c) = occurrences Mozilla c.
Proof. apply occurrences_str_replace; reflexivity. Qed.

Lemma firefox_kept_by_mozilla c :
  occurrences Firefox (str_replace Mozilla BrowserWorks c) = occurrences Firefox c.
Proof. apply occurrences_str_replace; reflexivity. Qed.

Lemma brand_content_cases c :
  brand_content c =
  if contains Mozilla_Account c
  then str_replace Firefox Waterfox c
  else str_replace Mozilla BrowserWorks (str_replace Firefox Waterfox c).
Proof.
  unfold brand_content. rewrite protected_after_firefox.
  destruct (contains Mozilla_Account c); reflexivity.
Qed.

(** X26.  The rules on one span.  On the content span the callback is
    given, [Firefox] is replaced in every case and none is left.  When
    the span contains [Mozilla Account], the result is the span after
    the [Firefox] replacement alone and every occurrence of [Mozilla] is
    still there; otherwise [Mozilla] is replaced throughout and none is
    left. *)
Theorem replace_in_string_protection (e : entry) :
  let c := string_content e in
  replace_in_string e = start_tag e ++ brand_content c ++ end_tag e /\
  occurrences Firefox (brand_content c) = 0%nat /\
  if contains Mozilla_Account c
  then brand_content c = str_replace Firefox Waterfox c /\
       occurrences Mozilla (brand_content c) = occurrences Mozilla c
  else brand_content c
         = str_replace Mozilla BrowserWorks (str_replace Firefox Waterfox c) /\
       occurrences Mozilla (brand_content c) = 0%nat.
Proof.
  intros c. split; [reflexivity|].
  rewrite (brand_content_cases c).
  destruct (contains Mozilla_Account c).
  - split; [apply firefox_removed|]. split; [reflexivity|].
    apply mozilla_kept_by_firefox.
  - split; [rewrite firefox_kept_by_mozilla; apply firefox_removed|].
    split; [reflexivity|apply mozilla_removed].
Qed.

(** ** The pieces of a scan

    A scan cuts the text into the matches it replaces and the characters
    it copies. *)

Section Parts.
Variable G : Type.
Variable m : pystr -> option (G * nat).

Lemma sub_from_parts repl : forall s skip,
  sub_from m repl skip s = flat_map (render repl) (parts_from m skip s).
Proof.
  induction s as [|c s IH]; intros skip; [reflexivity|].
  destruct skip as [|k]; simpl; [|apply IH].
  destruct (m (c :: s)) as [[g len]|]; simpl; rewrite IH; reflexivity.
Qed.

Lemma scan_sub_parts repl s :
  scan_sub m repl s = flat_map (render repl) (scan_parts m s).
Proof. apply sub_from_parts. Qed.

Lemma parts_from_skip a r : parts_from m (length a) (a ++ r) = parts_from m 0 r.
Proof. induction a as [|x a IH]; simpl; auto. Qed.

Lemma scan_parts_copy c s :
  m (c :: s) = None -> scan_parts m (c :: s) = inl c :: scan_parts m s.
Proof. unfold scan_parts. simpl. intros ->. reflexivity. Qed.

Lemma scan_parts_match s g a r :
  m s = Some (g, length a) -> a <> [] -> s = a ++ r ->
  scan_parts m s = inr g :: scan_parts m r.
Proof.
  intros Hm Hne ->. destruct a as [|x a]; [congruence|].
  unfold scan_parts. simpl. simpl in Hm. rewrite Hm. simpl.
  rewrite parts_from_skip. reflexivity.
Qed.

(** The text a match stands for. *)
Variable text_of : G -> pystr.
Hypothesis m_text : forall s g len,
  m s = Some (g, len) ->
  text_of g <> [] /\ len = length (text_of g) /\ exists r, s = text_of g ++ r.

Lemma m_text_ok : matcher_ok m.
Proof.
  intros s g len H. destruct (m_text H) as (Hne & -> & r & ->).
  exists (text_of g), r. auto.
Qed.

Lemma scan_sub_text s : scan_sub m text_of s = s.
Proof.
  revert s. apply (scan_ind m_text_ok).
  - reflexivity.
  - intros c s H IH. rewrite scan_sub_copy, IH; auto.
  - intros g a r H Hne IH.
    destruct (m_text H) as (_ & Hlen & r' & Hs).
    destruct (app_same_length _ _ _ _ Hs Hlen) as [-> ->].
    rewrite (@scan_sub_match _ m text_of _ _ _ _ H Hne eq_refl), IH.
    reflexivity.
Qed.

(** The pieces put back together are the text. *)
Lemma scan_parts_text s : flat_map (render text_of) (scan_parts m s) = s.
Proof. rewrite <- scan_sub_parts. apply scan_sub_text. Qed.
End Parts.

(** ** First occurrences of a literal that cannot overlap itself

    [</string>] has its first character nowhere else, and so have the
    other literals the entry patterns look for. *)

Section Anchored.
Variables (h : char) (p' : pystr).
Hypothesis h_fresh : mem h p' = false.
Local Abbreviation p := (h :: p').

Lemma prefix_of_before_anchor q : forall a u,
  mem h q = false -> prefix_of q (a ++ h :: u) = prefix_of q a.
Proof.
  induction q as [|y q IH]; intros a u Hq; [reflexivity|].
  apply mem_cons_false in Hq. destruct Hq as [Hy Hq].
  destruct a as [|z a]; simpl.
  - rewrite Hy. reflexivity.
  - rewrite IH; auto.
Qed.

Lemma prefix_of_anchored a t :
  a <> [] -> prefix_of p (a ++ p ++ t) = prefix_of p a.
Proof.
  destruct a as [|x a]; [congruence|]. intros _.
  simpl. rewrite prefix_of_before_anchor; auto.
Qed.

Lemma find_sub_anchored : forall s a b,
  find_sub p s = Some (a, b) <-> s = a ++ p ++ b /\ contains p a = false.
Proof.
  intros s a b. split.
  - revert a b. induction s as [|x s IH]; intros a b H.
    + simpl in H. discriminate.
    + cbn [find_sub] in H. destruct (prefix_of p (x :: s)) eqn:E.
      * injection H as <- <-. split; [exact (prefix_of_split _ _ E)|reflexivity].
      * destruct (find_sub p s) as [[a' b']|] eqn:F; [|discriminate].
        injection H as <- <-. destruct (IH _ _ eq_refl) as [-> Hc].
        split; [reflexivity|].
        cbn [contains]. rewrite Hc, orb_false_r.
        rewrite <- E. symmetry.
        apply (prefix_of_anchored (a := x :: a') b'). discriminate.
  - intros [-> Hc]. induction a as [|x a IH].
    + change ([] ++ p ++ b) with (p ++ b).
      rewrite find_sub_here by apply prefix_of_app.
      rewrite skipn_length_app. reflexivity.
    + cbn [contains] in Hc. apply orb_false_iff in Hc. destruct Hc as [H1 H2].
      change ((x :: a) ++ p ++ b) with (x :: (a ++ p ++ b)).
      cbn [find_sub].
      change (x :: a ++ p ++ b) with ((x :: a) ++ p ++ b).
      rewrite prefix_of_anchored by discriminate. rewrite H1, IH; auto.
Qed.
End Anchored.

(** ** String entries *)

Lemma find_close_spec s a b :
  find_sub close_string s = Some (a, b) <->
  s = a ++ close_string ++ b /\ contains close_string a = false.
Proof. apply find_sub_anchored. reflexivity. Qed.

Lemma match_entry_spec s e len :
  match_entry s = Some (e, len) ->
  is_entry e /\ len = length (entry_text e) /\ exists r, s = entry_text e ++ r.
Proof.
  unfold match_entry.
  destruct (strip_prefix open_string s) as [r|] eqn:E1; [|discriminate].
  destruct (span_not c_gt r) as [attrs r1] eqn:E2.
  destruct (strip_prefix [c_gt] r1) as [r2|] eqn:E3; [|discriminate].
  destruct (find_sub close_string r2) as [[content rest]|] eqn:E4; [|discriminate].
  intros H. injection H as <- <-.
  apply strip_prefix_some in E1. apply span_not_spec in E2.
  destruct E2 as (E2 & Hn & _). apply strip_prefix_some in E3.
  apply find_close_spec in E4. destruct E4 as [E4 Hc].
  split; [|split; [reflexivity|]].
  - constructor; simpl; eauto.
  - exists rest. unfold entry_text. simpl.
    rewrite E1, E2, E3, E4. rewrite <- !app_assoc. reflexivity.
Qed.

(** Conversely, an entry at the head of the text is matched. *)
Lemma match_entry_complete e r :
  is_entry e ->
  match_entry (entry_text e ++ r) = Some (e, length (entry_text e)).
Proof.
  intros [(attrs & Ho & Hn) Hc Hf]. destruct e as [t c cl].
  cbn [start_tag string_content end_tag] in *. subst t cl.
  unfold match_entry, entry_text. cbn [start_tag string_content end_tag].
  rewrite <- !app_assoc. rewrite strip_prefix_app.
  change ([c_gt] ++ c ++ close_string ++ r) with (c_gt :: c ++ close_string ++ r).
  rewrite span_not_app by assumption.
  change (c_gt :: c ++ close_string ++ r) with ([c_gt] ++ c ++ close_string ++ r).
  rewrite strip_prefix_app.
  assert (F : find_sub close_string (c ++ close_string ++ r) = Some (c, r))
    by (apply find_close_spec; auto).
  rewrite F. rewrite <- !app_assoc. reflexivity.
Qed.

Lemma match_entry_text s e len :
  match_entry s = Some (e, len) ->
  entry_text e <> [] /\ len = length (entry_text e) /\ exists r, s = entry_text e ++ r.
Proof.
  intros H. destruct (match_entry_spec _ H) as ([(attrs & Ho & _) _ _] & Hl & Hr).
  split; [|auto]. unfold entry_text. rewrite Ho. discriminate.
Qed.

(** ** Rewriting the content of entries

    The brand pass and the apostrophe pass are the same scan, with a
    different function applied to the content of each entry. *)

Lemma match_entry_ok : matcher_ok match_entry.
Proof. apply m_text_ok with (text_of := entry_text). apply match_entry_text. Qed.

Lemma entry_parts_text text : flat_map (render entry_text) (entry_parts text) = text.
Proof. apply scan_parts_text. apply match_entry_text. Qed.

Lemma sub_entries_parts f text :
  sub_entries f text = flat_map (render (on_content f)) (entry_parts text).
Proof. apply scan_sub_parts. Qed.

Lemma entry_parts_are_entries text :
  Forall (fun p => match p with inl _ => True | inr e => is_entry e end)
         (entry_parts text).
Proof.
  revert text. apply (scan_ind match_entry_ok).
  - constructor.
  - intros c s H IH. unfold entry_parts. rewrite scan_parts_copy by assumption.
    constructor; auto.
  - intros g a r H Hne IH. unfold entry_parts.
    rewrite (scan_parts_match match_entry r H Hne eq_refl). constructor; auto.
    apply (match_entry_spec _ H).
Qed.

Lemma sub_entries_copy f c s :
  match_entry (c :: s) = None -> sub_entries f (c :: s) = c :: sub_entries f s.
Proof. apply scan_sub_copy. Qed.

Lemma sub_entries_entry f e r :
  is_entry e ->
  sub_entries f (entry_text e ++ r) = on_content f e ++ sub_entries f r.
Proof.
  intros He. unfold sub_entries.
  apply scan_sub_match with (a := entry_text e); auto.
  - apply match_entry_complete, He.
  - destruct He as [(attrs & Ho & _) _ _]. unfold entry_text. rewrite Ho. discriminate.
Qed.

(** Induction along the entry scan. *)
Lemma entries_ind (P : pystr -> Prop) :
  P [] ->
  (forall c s, match_entry (c :: s) = None -> P s -> P (c :: s)) ->
  (forall e r, is_entry e -> P r -> P (entry_text e ++ r)) ->
  forall s, P s.
Proof.
  intros Hnil Hcopy Hentry. apply (scan_ind match_entry_ok); auto.
  intros g a r H Hne Hr.
  destruct (match_entry_spec _ H) as (He & Hlen & r' & Hs).
  destruct (app_same_length _ _ _ _ Hs Hlen) as [-> ->].
  apply Hentry; auto.
Qed.

Lemma match_entry_head c s : c <> c_lt -> match_entry (c :: s) = None.
Proof.
  intros Hc. unfold match_entry, strip_prefix, open_string. cbn [prefix_of].
  destruct (N.eqb_spec 60 c) as [E|E]; [|reflexivity].
  exfalso. apply Hc. symmetry. exact E.
Qed.

Section ContentMap.
Variable f : pystr -> pystr.
Hypothesis f_close : forall c,
  contains close_string c = false -> contains close_string (f c) = false.

Lemma is_entry_map e : is_entry e -> is_entry (map_content f e).
Proof.
  intros [Ho Hc Hf]. constructor; simpl; auto.
Qed.

Lemma on_content_text e : on_content f e = entry_text (map_content f e).
Proof. reflexivity. Qed.

(** A literal without [<] starts in the output where it started in the
    input: nothing before the first tag is touched. *)
Lemma prefix_of_sub_entries q :
  mem c_lt q = false ->
  forall s, prefix_of q (sub_entries f s) = prefix_of q s.
Proof.
  induction q as [|y q IH]; intros Hq s; [reflexivity|].
  apply mem_cons_false in Hq. destruct Hq as [Hy Hq].
  destruct s as [|c s]; [reflexivity|].
  destruct (match_entry (c :: s)) as [[e len]|] eqn:E.
  - destruct (match_entry_spec _ E) as (He & _ & r & Hs).
    rewrite Hs, sub_entries_entry by assumption.
    destruct He as [(attrs & Ho & _) _ _].
    unfold on_content, entry_text. rewrite Ho.
    unfold open_string, c_lt in *. cbn [app prefix_of]. rewrite Hy. reflexivity.
  - rewrite sub_entries_copy by assumption. simpl. rewrite IH; auto.
Qed.

Lemma contains_close_sub_entries :
  forall s, contains close_string (sub_entries f s) = contains close_string s.
Proof.
  apply entries_ind.
  - reflexivity.
  - intros c s E IH. rewrite sub_entries_copy by assumption.
    cbn [contains]. rewrite IH. f_equal.
    unfold close_string. rewrite !prefix_of_cons. f_equal.
    apply prefix_of_sub_entries. reflexivity.
  - intros e r He _. rewrite sub_entries_entry by assumption.
    destruct He as [_ Hc _]. unfold on_content, entry_text. rewrite Hc.
    rewrite <- !app_assoc, !contains_occ2. reflexivity.
Qed.

(** The tag that opens at the head of the text ends at the same place
    before and after, and a closing tag follows it in the output
    exactly when one follows it in the input. *)
Lemma span_gt_sub_entries : forall s a b,
  span_not c_gt s = (a, b) ->
  exists b', span_not c_gt (sub_entries f s) = (a, b') /\
    match strip_prefix [c_gt] b, strip_prefix [c_gt] b' with
    | Some t, Some t' => contains close_string t' = contains close_string t
    | None, None => True
    | _, _ => False
    end.
Proof.
  intros s. pattern s. revert s. apply entries_ind.
  - intros a b H. injection H as <- <-. exists []. split; reflexivity.
  - intros c s E IH a b H. rewrite sub_entries_copy by assumption.
    simpl in H |- *. destruct (N.eqb_spec c c_gt) as [->|Hne].
    + injection H as <- <-. eexists. split; [reflexivity|].
      rewrite !strip_prefix_cons. apply contains_close_sub_entries.
    + destruct (span_not c_gt s) as [a0 b0] eqn:E0. injection H as <- <-.
      destruct (IH _ _ eq_refl) as (b' & -> & Hb). exists b'. split; auto.
  - intros e r He _ a b H. rewrite sub_entries_entry by assumption.
    destruct He as [(attrs & Ho & Hn) Hc _].
    unfold on_content, entry_text in *. rewrite Ho, Hc in *.
    assert (Hn' : ~ In c_gt (open_string ++ attrs)).
    { intros Hin. apply in_app_or in Hin. destruct Hin as [Hin|Hin]; [|tauto].
      revert Hin. apply mem_false_notin. reflexivity. }
    assert (R : forall x y : pystr,
               ((open_string ++ attrs ++ [c_gt]) ++ x ++ close_string) ++ y
               = (open_string ++ attrs) ++ c_gt :: (x ++ close_string ++ y)).
    { intros x y. rewrite <- !app_assoc. reflexivity. }
    rewrite R in H. rewrite R.
    rewrite span_not_app in H by exact Hn'.
    apply pair_equal_spec in H. destruct H as [<- <-].
    rewrite span_not_app by exact Hn'. eexists. split; [reflexivity|].
    rewrite !strip_prefix_cons, !contains_occ. reflexivity.
Qed.

(** Where the input has no entry, the output has none. *)
Lemma match_entry_none_sub c s :
  match_entry (c :: s) = None -> match_entry (c :: sub_entries f s) = None.
Proof.
  intros H. destruct (prefix_of open_string (c :: s)) eqn:Ep.
  - apply prefix_of_split in Ep.
    remember (skipn (length open_string) (c :: s)) as t eqn:Ht. clear Ht.
    unfold open_string in Ep. cbn [app] in Ep. injection Ep as -> ->.
    rewrite !sub_entries_copy by (apply match_entry_head; discriminate).
    change (match_entry (open_string ++ sub_entries f t) = None).
    change (match_entry (open_string ++ t) = None) in H.
    unfold match_entry in *. rewrite strip_prefix_app in *.
    destruct (span_not c_gt t) as [a b] eqn:E2.
    destruct (span_gt_sub_entries _ E2) as (b' & -> & Hb).
    destruct (strip_prefix [c_gt] b) as [u|], (strip_prefix [c_gt] b') as [u'|];
      try contradiction; auto.
    destruct (find_sub close_string u) as [[? ?]|] eqn:F; [discriminate|].
    apply find_sub_none_contains in F. rewrite <- Hb in F.
    apply contains_false_find_sub in F. rewrite F. reflexivity.
  - unfold match_entry, strip_prefix.
    unfold open_string in *. rewrite prefix_of_cons in *.
    rewrite prefix_of_sub_entries by reflexivity. rewrite Ep. reflexivity.
Qed.

(** The output has the entries of the input, with their content
    rewritten, and the same characters between them. *)
Lemma entry_parts_sub_entries :
  forall s, entry_parts (sub_entries f s) = map (map_piece f) (entry_parts s).
Proof.
  apply entries_ind.
  - reflexivity.
  - intros c s E IH. rewrite sub_entries_copy by assumption.
    unfold entry_parts in *.
    rewrite !scan_parts_copy; auto using match_entry_none_sub.
    simpl. f_equal. exact IH.
  - intros e r He IH. rewrite sub_entries_entry, on_content_text by assumption.
    pose proof (is_entry_map He) as He'.
    unfold entry_parts in *.
    assert (Hne : forall e0, is_entry e0 -> entry_text e0 <> []).
    { intros e0 [(attrs & Ho & _) _ _]. unfold entry_text. rewrite Ho. discriminate. }
    rewrite (scan_parts_match match_entry _ (match_entry_complete _ He') (Hne _ He') eq_refl).
    rewrite (scan_parts_match match_entry _ (match_entry_complete _ He) (Hne _ He) eq_refl).
    simpl. f_equal. exact IH.
Qed.

(** Two content rewrites in a row are one. *)
Lemma sub_entries_fuse g s :
  sub_entries g (sub_entries f s) = sub_entries (fun c => g (f c)) s.
Proof.
  rewrite (sub_entries_parts g), entry_parts_sub_entries, (sub_entries_parts _ s).
  rewrite flat_map_concat_map, map_map, <- flat_map_concat_map.
  apply flat_map_ext. intros [c|e]; reflexivity.
Qed.
End ContentMap.

(** ** The brand pass on a file *)

Lemma brand_content_close c :
  contains close_string (brand_content c) = contains close_string c.
Proof.
  rewrite brand_content_cases. destruct (contains Mozilla_Account c).
  - apply contains_str_replace; reflexivity.
  - transitivity (contains close_string (str_replace Firefox Waterfox c));
      apply contains_str_replace; reflexivity.
Qed.

Lemma brand_content_close_free c :
  contains close_string c = false -> contains close_string (brand_content c) = false.
Proof. rewrite brand_content_close. auto. Qed.

Lemma outside_content_sub_entries f text :
  (forall c, contains close_string c = false -> contains close_string (f c) = false) ->
  outside_content (sub_entries f text) = outside_content text.
Proof.
  intros Hf. unfold outside_content. rewrite entry_parts_sub_entries by assumption.
  rewrite flat_map_concat_map, map_map, <- flat_map_concat_map.
  apply flat_map_ext. intros [c|e]; reflexivity.
Qed.

(** X24.  The brand pass cuts the text into the spans of the entry
    pattern and the characters between them.  The characters between
    entries, the opening tag (with its attributes) and the closing tag
    of every entry are copied; only the content between the tags is
    rewritten.  The output has the same entries at the same places, and
    the text outside their content spans is that of the input. *)
Theorem replace_brand_names_frame (text : pystr) :
  let parts := entry_parts text in
  flat_map (render entry_text) parts = text /\
  Forall (fun p => match p with inl _ => True | inr e => is_entry e end) parts /\
  replace_brand_names text
    = flat_map (render (fun e =>
        start_tag e ++ brand_content (string_content e) ++ end_tag e)) parts /\
  entry_parts (replace_brand_names text) = map (map_piece brand_content) parts /\
  outside_content (replace_brand_names text) = outside_content text.
Proof.
  cbv zeta. split; [apply entry_parts_text|].
  split; [apply entry_parts_are_entries|].
  split; [apply (sub_entries_parts brand_content)|].
  split.
  - apply entry_parts_sub_entries, brand_content_close_free.
  - apply outside_content_sub_entries, brand_content_close_free.
Qed.

(** ** Sample texts *)

(** ** The artifact cleanup *)

Lemma clean_artifacts_occurrence a b :
  clean_artifacts (a ++ artifact ++ b)
  = clean_artifacts a ++ artifact_fixed ++ clean_artifacts b.
Proof.
  unfold clean_artifacts. revert a.
  apply (str_replace_ind (old := artifact)); [discriminate| | |].
  - apply (str_replace_hit artifact_fixed b (old := artifact)). discriminate.
  - intros c s E IH.
    change ((c :: s) ++ artifact ++ b) with (c :: (s ++ artifact ++ b)).
    rewrite !str_replace_miss, IH; auto.
    change (c :: s ++ artifact ++ b) with ((c :: s) ++ artifact ++ b).
    unfold artifact in *. rewrite prefix_of_anchored; auto. discriminate.
  - intros r IH. rewrite <- app_assoc.
    rewrite !str_replace_hit, IH by discriminate. rewrite <- app_assoc. reflexivity.
Qed.

(** C7.  The cleanup is the last step of the pipeline, applied to the
    whole text the three passes produced; every occurrence of the
    artifact in that text, whatever surrounds it, becomes the two
    characters of the fixed form. *)
Theorem clean_artifacts_everywhere :
  (forall content,
     transform content
     = clean_artifacts
         (fix_apostrophes (fix_format_specifiers (replace_brand_names content)))) /\
  (forall a b,
     clean_artifacts (a ++ artifact ++ b)
     = clean_artifacts a ++ artifact_fixed ++ clean_artifacts b) /\
  (forall t, occurrences artifact t = 0%nat -> clean_artifacts t = t).
Proof.
  split; [reflexivity|]. split; [apply clean_artifacts_occurrence|].
  intros t. apply str_replace_absent.
Qed.

(** ** Letter case under the apostrophe pass *)

(** C2.  The replacement of a contraction is the text of the list, in the
    letter case of the list: [IT'S] in an entry comes out as [it\'s], not
    as [IT\'S]. *)
Theorem uppercase_contraction_is_lowercased :
  fix_apostrophes (string_entry (lit "a") (lit "IT'S"))
    = string_entry (lit "a") (lit "it\'s") /\
  transform (string_entry (lit "a") (lit "IT'S"))
    = string_entry (lit "a") (lit "it\'s") /\
  fix_apostrophes (string_entry (lit "a") (lit "IT'S"))
    <> string_entry (lit "a") (lit "IT\'S").
Proof.
  split; [vm_compute; reflexivity|]. split; [vm_compute; reflexivity|].
  vm_compute. discriminate.
Qed.

(** ** Tags that only begin with [string] *)

(** C10.  A [<string-array ...>] tag opens a span for the entry pattern:
    up to the next [</string>], the items of the array and the tags
    around them are rewritten by the brand pass and by the apostrophe
    pass. *)
Theorem string_array_is_rewritten :
  let text := array_sample (lit "Firefox isn't Mozilla") in
  (exists e len,
     match_entry text = Some (e, len) /\
     start_tag e = lit "<string-array name=" ++ [c_quote] ++ lit "a" ++ [c_quote; c_gt] /\
     string_content e
       = lit "<item>Firefox isn't Mozilla</item></string-array><string name="
         ++ [c_quote] ++ lit "b" ++ [c_quote; c_gt] ++ lit "x") /\
  replace_brand_names text = array_sample (lit "Waterfox isn't BrowserWorks") /\
  fix_apostrophes text = array_sample (lit "Firefox isn\'t Mozilla") /\
  transform text = array_sample (lit "Waterfox isn\'t BrowserWorks").
Proof.
  cbv zeta. split.
  - eexists. eexists. split; [vm_compute; reflexivity|].
    split; vm_compute; reflexivity.
  - repeat split; vm_compute; reflexivity.
Qed.

(** C1.  The span the brand pass works on runs from any tag that begins
    with [<string] to the next [</string>].  After a string-array that
    holds [Mozilla Account], the entry [b] lies in such a span: its
    [Mozilla] is kept, although the content of the entry has no
    [Mozilla Account].  On its own, the same entry has its [Mozilla]
    replaced. *)
Theorem mozilla_protected_by_another_entry :
  let b := string_entry (lit "b") (lit "Mozilla is here") in
  let text :=
    lit "<string-array name=" ++ [c_quote] ++ lit "a" ++ [c_quote; c_gt]
    ++ lit "<item>Mozilla Account</item></string-array>" ++ b in
  replace_brand_names text = text /\
  transform text = text /\
  contains Mozilla_Account (lit "Mozilla is here") = false /\
  replace_brand_names b = string_entry (lit "b") (lit "BrowserWorks is here").
Proof. cbv zeta. repeat split; vm_compute; reflexivity. Qed.

(** C5.  In such a span the brand pass rewrites what stands between the
    string-array and the next entry, and the opening tag of that entry:
    a comment and the value of a [name] attribute come out changed. *)
Theorem brand_pass_rewrites_outside_entries :
  let head :=
    lit "<string-array name=" ++ [c_quote] ++ lit "a" ++ [c_quote; c_gt]
    ++ lit "<item>x</item></string-array>" in
  replace_brand_names
    (head ++ lit "<!-- Firefox docs -->" ++ string_entry (lit "Firefox_label") (lit "y"))
  = head ++ lit "<!-- Waterfox docs -->" ++ string_entry (lit "Waterfox_label") (lit "y") /\
  transform
    (head ++ lit "<!-- Firefox docs -->" ++ string_entry (lit "Firefox_label") (lit "y"))
  = head ++ lit "<!-- Waterfox docs -->" ++ string_entry (lit "Waterfox_label") (lit "y").
Proof. cbv zeta. split; vm_compute; reflexivity. Qed.

(** ** The format pattern *)

Lemma match_format_spec s g len :
  match_format s = Some (g, len) ->
  is_format_match g /\ len = length (format_text g) /\ exists r, s = format_text g ++ r.
Proof.
  unfold match_format.
  destruct (strip_prefix tracker_open s) as [r|] eqn:E1; [|discriminate].
  destruct (span_not c_gt r) as [attrs r1] eqn:E2.
  destruct (strip_prefix [c_gt] r1) as [r2|] eqn:E3; [|discriminate].
  destruct (strip_prefix pct_s r2) as [r3|] eqn:E4; [|discriminate].
  destruct (span_not c_percent r3) as [middle r4] eqn:E5.
  destruct (strip_prefix pct_d r4) as [r5|] eqn:E6; [|discriminate].
  destruct (strip_prefix close_string r5) as [r6|] eqn:E7; [|discriminate].
  intros H. assert (H' : (FmtGroups (tracker_open ++ attrs ++ [c_gt]) middle close_string,
                          (length (tracker_open ++ attrs ++ [c_gt]) + length pct_s
                           + length middle + length pct_d + length close_string)%nat)
                         = (g, len)) by congruence.
  clear H. apply pair_equal_spec in H'. destruct H' as [<- <-].
  apply strip_prefix_some in E1, E3, E4, E6, E7.
  apply span_not_spec in E2, E5.
  destruct E2 as (E2 & Hn2 & _). destruct E5 as (E5 & Hn5 & _).
  split; [|split].
  - constructor; cbn [fmt_start fmt_middle fmt_end]; eauto.
  - unfold format_text. cbn [fmt_start fmt_middle fmt_end].
    rewrite !length_app. lia.
  - exists r6. unfold format_text. cbn [fmt_start fmt_middle fmt_end].
    rewrite E1, E2, E3, E4, E5, E6, E7. rewrite <- !app_assoc. reflexivity.
Qed.

Lemma match_format_complete g r :
  is_format_match g ->
  match_format (format_text g ++ r) = Some (g, length (format_text g)).
Proof.
  intros [(attrs & Ho & Hn) Hm Hc]. destruct g as [t middle cl].
  cbn [fmt_start fmt_middle fmt_end] in *. subst t cl.
  unfold match_format, format_text. cbn [fmt_start fmt_middle fmt_end].
  assert (R1 : ((tracker_open ++ attrs ++ [c_gt]) ++ pct_s ++ middle ++ pct_d ++ close_string) ++ r
               = tracker_open ++ attrs ++ c_gt :: (pct_s ++ middle ++ c_percent :: (lit "d" ++ close_string ++ r))).
  { rewrite <- !app_assoc. reflexivity. }
  rewrite R1, strip_prefix_app, span_not_app, strip_prefix_cons, strip_prefix_app by assumption.
  rewrite span_not_app by assumption.
  change (c_percent :: lit "d" ++ close_string ++ r) with (pct_d ++ close_string ++ r).
  rewrite !strip_prefix_app. f_equal. f_equal.
  rewrite !length_app. simpl. lia.
Qed.

Lemma format_text_not_nil g : is_format_match g -> format_text g <> [].
Proof.
  intros [(attrs & Ho & _) _ _]. unfold format_text. rewrite Ho. discriminate.
Qed.

Lemma match_format_head c s : c <> c_lt -> match_format (c :: s) = None.
Proof.
  intros Hc. unfold match_format, strip_prefix, tracker_open.
  rewrite prefix_of_cons.
  destruct (N.eqb_spec 60 c) as [E|E]; [|reflexivity].
  exfalso. apply Hc. symmetry. exact E.
Qed.

Lemma fix_format_match g r :
  is_format_match g ->
  fix_format_specifiers (format_text g ++ r)
  = replace_format_specifiers g ++ fix_format_specifiers r.
Proof.
  intros Hg. unfold fix_format_specifiers.
  apply scan_sub_match with (a := format_text g); auto.
  - apply match_format_complete, Hg.
  - apply format_text_not_nil, Hg.
Qed.

(** A scan that finds no match at any position copies the text. *)
Lemma scan_sub_idle (G : Type) (m : pystr -> option (G * nat)) repl : forall s,
  (forall a b, s = a ++ b -> m b = None) -> scan_sub m repl s = s.
Proof.
  induction s as [|c s IH]; intros H; [reflexivity|].
  rewrite scan_sub_copy by (apply (H []); reflexivity).
  f_equal. apply IH. intros a b ->. apply (H (c :: a)). reflexivity.
Qed.

(** A match has both specifiers: at least two [%]. *)
Lemma match_format_percent s g len :
  match_format s = Some (g, len) -> (2 <= count_occ N.eq_dec s c_percent)%nat.
Proof.
  intros H. destruct (match_format_spec _ H) as (_ & _ & r & ->).
  unfold format_text. rewrite !count_occ_app.
  change (count_occ N.eq_dec pct_s c_percent) with 1%nat.
  change (count_occ N.eq_dec pct_d c_percent) with 1%nat. lia.
Qed.

Lemma match_format_few_percent s :
  (count_occ N.eq_dec s c_percent < 2)%nat -> match_format s = None.
Proof.
  intros H. destruct (match_format s) as [[g len]|] eqn:E; [|reflexivity].
  apply match_format_percent in E. lia.
Qed.

(** A match begins with the opening of the tracker entry. *)
Lemma match_format_open s :
  prefix_of tracker_open s = false -> match_format s = None.
Proof. intros H. unfold match_format, strip_prefix. rewrite H. reflexivity. Qed.

Lemma contains_suffix_false p a b :
  contains p (a ++ b) = false -> contains p b = false.
Proof.
  intros H. destruct (contains p b) eqn:E; [|reflexivity].
  rewrite contains_app_r in H; auto.
Qed.

Lemma contains_prefix_false p s :
  contains p s = false -> prefix_of p s = false.
Proof. destruct s; simpl; intros H; apply orb_false_iff in H; tauto. Qed.

(** A text in which the opening of the tracker entry does not occur is
    left as it is. *)
Lemma fix_format_absent t :
  contains tracker_open t = false -> fix_format_specifiers t = t.
Proof.
  intros H. apply scan_sub_idle. intros a b ->.
  apply match_format_open, contains_prefix_false, contains_suffix_false with a, H.
Qed.

(** Where a text is cut at the first [c], the cut is unique. *)
Lemma split_at_first (c : char) : forall u u' v v',
  u ++ c :: v = u' ++ c :: v' -> ~ In c u -> ~ In c u' -> u = u' /\ v = v'.
Proof.
  induction u as [|x u IH]; intros [|y u'] v v' H Hu Hu'; simpl in *.
  - injection H as ->. auto.
  - injection H as <- _. tauto.
  - injection H as -> _. tauto.
  - injection H as -> H. destruct (IH _ _ _ H) as [-> ->]; auto.
Qed.

(** A text that ends with its only occurrence of a literal that cannot
    overlap itself is cut by that literal in one way. *)
Lemma anchored_unique (h : char) (p' : pystr) :
  mem h p' = false ->
  forall a x r,
    a ++ h :: p' = x ++ (h :: p') ++ r -> contains (h :: p') a = false ->
    x = a /\ r = [].
Proof.
  intros Hh. induction a as [|c a IH]; intros x r H Hc.
  - assert (L : length (h :: p') = (length x + (length (h :: p') + length r))%nat).
    { change ([] ++ h :: p') with (h :: p') in H. rewrite H at 1.
      rewrite !length_app. reflexivity. }
    assert (length x = 0%nat /\ length r = 0%nat) as [Lx Lr] by lia.
    apply length_zero_iff_nil in Lx, Lr. auto.
  - cbn [contains] in Hc. apply orb_false_iff in Hc. destruct Hc as [Hp Hc].
    destruct x as [|y x].
    + exfalso. change ([] ++ (h :: p') ++ r) with ((h :: p') ++ r) in H.
      assert (E : prefix_of (h :: p') ((c :: a) ++ (h :: p') ++ []) = true).
      { rewrite app_nil_r, H. apply prefix_of_app. }
      rewrite (prefix_of_anchored h p' Hh (a := c :: a) []) in E by discriminate.
      congruence.
    + injection H as -> H. destruct (IH _ _ H Hc) as [-> ->]. auto.
Qed.

Lemma contains_close_unique a x r :
  a ++ close_string = x ++ close_string ++ r ->
  contains close_string a = false -> x = a /\ r = [].
Proof. apply anchored_unique. reflexivity. Qed.

(** ** The format pass on the tracker entry *)

Lemma tracker_entry_target_text attrs middle :
  tracker_entry attrs (pct_s ++ middle ++ pct_d)
  = format_text (FmtGroups (tracker_open ++ attrs ++ [c_gt]) middle close_string).
Proof.
  unfold tracker_entry, format_text. cbn [fmt_start fmt_middle fmt_end].
  rewrite <- !app_assoc. reflexivity.
Qed.

(** The rewrite of the tracker entry, whatever follows it. *)
Lemma fix_format_tracker_entry attrs middle r :
  ~ In c_gt attrs -> ~ In c_percent middle ->
  fix_format_specifiers (tracker_entry attrs (pct_s ++ middle ++ pct_d) ++ r)
  = tracker_entry attrs (pct_1s ++ middle ++ pct_2d) ++ fix_format_specifiers r.
Proof.
  intros Ha Hm. rewrite tracker_entry_target_text, fix_format_match.
  - unfold replace_format_specifiers, tracker_entry.
    cbn [fmt_start fmt_middle fmt_end]. rewrite <- !app_assoc. reflexivity.
  - constructor; cbn [fmt_start fmt_middle fmt_end]; eauto.
Qed.

(** No match begins in a tracker entry whose content is not [%s], a text
    without [%], and [%d]. *)
Lemma match_format_off_shape content :
  contains close_string content = false ->
  (forall middle, ~ In c_percent middle -> content <> pct_s ++ middle ++ pct_d) ->
  forall l, ~ In c_gt l ->
  match_format (l ++ [c_gt] ++ content ++ close_string) = None.
Proof.
  intros Hc Hshape l Hl.
  destruct (match_format (l ++ [c_gt] ++ content ++ close_string)) as [[g len]|] eqn:E;
    [exfalso|reflexivity].
  destruct (match_format_spec _ E) as ([(attrs' & Ho & Hn) Hm Hcl] & _ & r & Hs).
  unfold format_text in Hs. rewrite Ho, Hcl in Hs.
  assert (R : ((tracker_open ++ attrs' ++ [c_gt]) ++ pct_s ++ fmt_middle g ++ pct_d ++ close_string) ++ r
              = (tracker_open ++ attrs') ++ c_gt :: ((pct_s ++ fmt_middle g ++ pct_d) ++ close_string ++ r)).
  { rewrite <- !app_assoc. reflexivity. }
  rewrite R in Hs. change ([c_gt] ++ content ++ close_string)
    with (c_gt :: content ++ close_string) in Hs.
  apply split_at_first in Hs; auto.
  - destruct Hs as [_ Hs]. apply contains_close_unique in Hs; auto.
    destruct Hs as [Hs _]. apply (Hshape (fmt_middle g)); auto.
  - intros Hin. apply in_app_or in Hin. destruct Hin as [Hin|Hin]; [|tauto].
    revert Hin. apply mem_false_notin. reflexivity.
Qed.

Lemma fix_format_off_shape attrs content :
  ~ In c_gt attrs ->
  contains close_string content = false ->
  contains tracker_open content = false ->
  (forall middle, ~ In c_percent middle -> content <> pct_s ++ middle ++ pct_d) ->
  fix_format_specifiers (tracker_entry attrs content) = tracker_entry attrs content.
Proof.
  intros Ha Hc Ht Hshape. apply scan_sub_idle. intros a b Hab.
  unfold tracker_entry in Hab. rewrite (app_assoc tracker_open attrs) in Hab.
  apply app_eq_app in Hab. destruct Hab as (l & [[Hx Hb]|[Ha' Hb]]).
  - (* the position is in the opening tag *)
    subst b. apply match_format_off_shape; auto.
    intros Hin. assert (Hin' : In c_gt (tracker_open ++ attrs))
      by (rewrite Hx; apply in_or_app; auto).
    apply in_app_or in Hin'. destruct Hin' as [Hin'|Hin']; [|tauto].
    revert Hin'. apply mem_false_notin. reflexivity.
  - (* the position is after the opening tag *)
    destruct l as [|x l]; simpl in Hb.
    + subst b. apply match_format_head. discriminate.
    + injection Hb as _ Hb. apply app_eq_app in Hb.
      destruct Hb as (l2 & [[Hx Hb]|[Hx Hb]]).
      * (* in the content *)
        subst b. apply match_format_open.
        destruct l2 as [|y l2]; [reflexivity|].
        assert (Hp : prefix_of tracker_open (y :: l2) = false).
        { apply contains_prefix_false. rewrite Hx in Ht.
          apply contains_suffix_false in Ht. exact Ht. }
        unfold tracker_open, close_string in *. cbn [app].
        rewrite prefix_of_cons in *.
        rewrite prefix_of_before_anchor; auto.
      * (* in the closing tag *)
        destruct l2 as [|y l2]; simpl in Hb.
        -- subst b. reflexivity.
        -- unfold close_string in Hb. injection Hb as _ Hb.
           destruct b as [|c b]; [reflexivity|].
           apply match_format_head. intros ->.
           assert (Hin : In c_lt (l2 ++ c_lt :: b))
             by (apply in_or_app; right; left; reflexivity).
           rewrite <- Hb in Hin. revert Hin. apply mem_false_notin. reflexivity.
Qed.

(** X25.  The format pattern matches at a position exactly when the
    text there is the opening tag of the tracker entry, [%s] right after
    it, a text without [%], and [%d] right before [</string>].  A text
    that is one tracker entry whose content is anything else, with text
    before [%s] or after [%d], is left as it is. *)
Theorem format_rewrite_needs_exact_shape :
  (forall s,
     match_format s <> None <->
     exists attrs middle r,
       s = tracker_entry attrs (pct_s ++ middle ++ pct_d) ++ r /\
       ~ In c_gt attrs /\ ~ In c_percent middle) /\
  (forall attrs content,
     ~ In c_gt attrs ->
     contains close_string content = false ->
     contains tracker_open content = false ->
     (forall middle, ~ In c_percent middle -> content <> pct_s ++ middle ++ pct_d) ->
     fix_format_specifiers (tracker_entry attrs content) = tracker_entry attrs content).
Proof.
  split; [|apply fix_format_off_shape].
  intros s. split.
  - destruct (match_format s) as [[g len]|] eqn:E; [intros _|congruence].
    destruct (match_format_spec _ E) as ([(attrs & Ho & Hn) Hm Hc] & _ & r & ->).
    exists attrs, (fmt_middle g), r. split; auto.
    rewrite tracker_entry_target_text. unfold format_text.
    cbn [fmt_start fmt_middle fmt_end]. rewrite Ho, Hc. reflexivity.
  - intros (attrs & middle & r & -> & Ha & Hm).
    rewrite tracker_entry_target_text, match_format_complete; [discriminate|].
    constructor; cbn [fmt_start fmt_middle fmt_end]; eauto.
Qed.

Lemma format_rewrite_needs_exact_shape_witness :
  fix_format_specifiers (tracker_entry [] (lit "%s: %d items"))
  = tracker_entry [] (lit "%s: %d items").
Proof.
  apply (proj2 format_rewrite_needs_exact_shape).
  - simpl. tauto.
  - reflexivity.
  - reflexivity.
  - intros middle _ E. apply (f_equal (@rev char)) in E.
    rewrite !rev_app_distr in E. simpl in E. discriminate.
Defined.

(** C4.  The middle text of the format pattern may run over a closing
    tag: when the tracker entry holds [%s] alone and the content of a
    later entry ends with [%d], the match runs from the tracker entry to
    the end of that entry, and the later entry is rewritten too. *)
Theorem format_rewrite_crosses_entries :
  let tracker :=
    lit "trackers_blocked_panel_categorical_num_trackers_blocked" in
  let text :=
    string_entry tracker (lit "%s") ++ string_entry (lit "other") (lit "%d") in
  map (map_piece (fun c => c)) (entry_parts text)
    = [ inr (Entry (lit "<string name=" ++ [c_quote] ++ tracker ++ [c_quote; c_gt])
                   (lit "%s") close_string);
        inr (Entry (lit "<string name=" ++ [c_quote] ++ lit "other" ++ [c_quote; c_gt])
                   (lit "%d") close_string) ] /\
  fix_format_specifiers text
    = string_entry tracker (lit "%1$s") ++ string_entry (lit "other") (lit "%2$d") /\
  transform text
    = string_entry tracker (lit "%1$s") ++ string_entry (lit "other") (lit "%2$d").
Proof. cbv zeta. repeat split; vm_compute; reflexivity. Qed.

(** C9.  The same run of the middle text rewrites a tracker entry whose
    content is not of the shape: when the content is [%s items] and the
    content of a later entry ends with [%d], the [%s] of the tracker
    entry is numbered, with the unit word after it. *)
Theorem format_rewrite_off_shape_content :
  let tracker :=
    lit "trackers_blocked_panel_categorical_num_trackers_blocked" in
  let text :=
    string_entry tracker (lit "%s items") ++ string_entry (lit "other") (lit "%d") in
  map (map_piece (fun c => c)) (entry_parts text)
    = [ inr (Entry (lit "<string name=" ++ [c_quote] ++ tracker ++ [c_quote; c_gt])
                   (lit "%s items") close_string);
        inr (Entry (lit "<string name=" ++ [c_quote] ++ lit "other" ++ [c_quote; c_gt])
                   (lit "%d") close_string) ] /\
  fix_format_specifiers text
    = string_entry tracker (lit "%1$s items") ++ string_entry (lit "other") (lit "%2$d") /\
  transform text
    = string_entry tracker (lit "%1$s items") ++ string_entry (lit "other") (lit "%2$d").
Proof. cbv zeta. repeat split; vm_compute; reflexivity. Qed.

(** ** Letter case *)

Lemma is_ascii_upper_iff c : is_ascii_upper c = true <-> 65 <= c <= 90.
Proof.
  unfold is_ascii_upper. rewrite andb_true_iff, !N.leb_le. tauto.
Qed.

Lemma is_ascii_lower_iff c : is_ascii_lower c = true <-> 97 <= c <= 122.
Proof.
  unfold is_ascii_lower. rewrite andb_true_iff, !N.leb_le. tauto.
Qed.

Lemma unicode_tolower_cased p :
  iscased p = true -> 97 <= unicode_tolower p <= 122.
Proof.
  unfold iscased, unicode_tolower. intros H.
  destruct (is_ascii_upper p) eqn:U.
  - apply is_ascii_upper_iff in U. lia.
  - simpl in H. apply is_ascii_lower_iff in H.
    destruct (N.eqb_spec p 304); [lia|]. destruct (N.eqb_spec p 8490); lia.
Qed.

Lemma unicode_tolower_uncased c :
  iscased c = false -> unicode_tolower c = 39 -> c = 39.
Proof.
  unfold iscased, unicode_tolower. intros H.
  destruct (is_ascii_upper c); [discriminate|].
  destruct (N.eqb_spec c 304); [discriminate|].
  destruct (N.eqb_spec c 8490); [discriminate|auto].
Qed.

Lemma fixes_match lo t :
  97 <= lo <= 122 ->
  existsb (N.eqb t) (lo :: ignorecase_fixes lo)
  = (lo =? (if t =? 305 then 105 else if t =? 383 then 115 else t)).
Proof.
  intros H. unfold ignorecase_fixes.
  destruct (N.eqb_spec t 305) as [->|T1];
    [|destruct (N.eqb_spec t 383) as [->|T2]];
  (destruct (N.eqb_spec lo 105) as [->|L1];
    [|destruct (N.eqb_spec lo 115) as [->|L2]]);
    cbn [existsb];
    repeat match goal with
    | |- context [N.eqb ?a ?b] => destruct (N.eqb_spec a b)
    end; cbn [orb]; try reflexivity; try lia.
Qed.

Lemma casefold_cased p : iscased p = true -> casefold p = unicode_tolower p.
Proof.
  intros H. apply unicode_tolower_cased in H. unfold casefold. cbv zeta.
  destruct (N.eqb_spec (unicode_tolower p) 305); [lia|].
  destruct (N.eqb_spec (unicode_tolower p) 383); [lia|reflexivity].
Qed.

Lemma casefold_apos c : casefold c = c_apos <-> c = c_apos.
Proof.
  unfold c_apos. split; [|intros ->; reflexivity].
  unfold casefold. cbv zeta. intros H.
  destruct (N.eqb_spec (unicode_tolower c) 305); [discriminate|].
  destruct (N.eqb_spec (unicode_tolower c) 383); [discriminate|].
  destruct (iscased c) eqn:Ec.
  - apply unicode_tolower_cased in Ec. lia.
  - apply unicode_tolower_uncased; auto.
Qed.

Lemma casefold_backslash c : casefold c = c_backslash <-> c = c_backslash.
Proof.
  unfold c_backslash. split; [|intros ->; reflexivity].
  unfold casefold. cbv zeta. intros H.
  destruct (N.eqb_spec (unicode_tolower c) 305); [discriminate|].
  destruct (N.eqb_spec (unicode_tolower c) 383); [discriminate|].
  revert H. unfold unicode_tolower.
  destruct (is_ascii_upper c) eqn:U.
  - apply is_ascii_upper_iff in U. lia.
  - destruct (N.eqb_spec c 304); [discriminate|].
    destruct (N.eqb_spec c 8490); [discriminate|auto].
Qed.

Lemma char_match_ci_casefold p c :
  pattern_char p = true -> char_match_ci p c = (casefold p =? casefold c).
Proof.
  unfold pattern_char, char_match_ci. intros H.
  destruct (iscased p) eqn:Ep.
  - cbv zeta. rewrite casefold_cased by assumption.
    apply fixes_match, unicode_tolower_cased, Ep.
  - simpl in H. apply N.eqb_eq in H. subst p.
    change (casefold c_apos) with c_apos.
    destruct (N.eqb_spec c c_apos) as [->|Hc]; [reflexivity|].
    symmetry. apply N.eqb_neq. intros E. apply Hc. apply casefold_apos. auto.
Qed.

Lemma prefix_ci_casefold pat :
  forallb pattern_char pat = true ->
  forall s, prefix_ci pat s = prefix_of (fold_str pat) (fold_str s).
Proof.
  induction pat as [|a pat IH]; intros H s; [reflexivity|].
  simpl in H. apply andb_true_iff in H. destruct H as [Ha H].
  destruct s as [|b s]; [reflexivity|].
  simpl. rewrite IH, char_match_ci_casefold; auto.
Qed.

(** A case-insensitive substitution, seen through case folding, is a
    plain replacement. *)
Lemma re_sub_ci_casefold pat repl :
  forallb pattern_char pat = true ->
  forall s,
    fold_str (re_sub_ci pat repl s)
    = str_replace (fold_str pat) (fold_str repl) (fold_str s).
Proof.
  intros H s.
  assert (P : forall t, match_literal (fold_str pat) (fold_str t) = match_literal_ci pat t).
  { intros t. unfold match_literal, match_literal_ci.
    rewrite <- prefix_ci_casefold by assumption.
    unfold fold_str. rewrite length_map. reflexivity. }
  unfold re_sub_ci, str_replace, scan_sub. generalize 0%nat.
  induction s as [|c s IH]; intros skip; [reflexivity|].
  destruct skip as [|k]; [|apply IH].
  cbn [sub_from fold_str map].
  change (casefold c :: map casefold s) with (fold_str (c :: s)).
  rewrite P. destruct (match_literal_ci pat (c :: s)) as [[g len]|].
  - unfold fold_str at 1. rewrite map_app. f_equal. apply IH.
  - cbn [fold_str map]. f_equal. apply IH.
Qed.

(** ** Escaping by context

    One walk over the text, with the text already passed (nearest
    character first) and the text to come at hand: an apostrophe that the
    test accepts gets a backslash. *)

Section EscapeWith.
Variable test : pystr -> pystr -> bool.

Lemma escape_with_plain w : forall before_rev rest,
  ~ In c_apos w ->
  escape_with test before_rev (w ++ rest) = w ++ escape_with test (rev w ++ before_rev) rest.
Proof.
  induction w as [|x w IH]; intros b rest Hw; [reflexivity|].
  simpl. destruct (N.eqb_spec x c_apos) as [->|Hx]; [simpl in Hw; tauto|].
  simpl. rewrite IH by (simpl in Hw; tauto). rewrite <- app_assoc. reflexivity.
Qed.

(** Up to the first apostrophe or backslash the output is the input. *)
Lemma prefix_of_escape_with q :
  ~ In c_apos q -> ~ In c_backslash q ->
  forall b s, prefix_of q (escape_with test b s) = prefix_of q s.
Proof.
  induction q as [|a q IH]; intros Ha Hb b s; [reflexivity|].
  destruct s as [|c s]; [reflexivity|].
  cbn [escape_with].
  destruct ((c =? c_apos) && test b s) eqn:E.
  - apply andb_true_iff in E. destruct E as [E _]. apply N.eqb_eq in E. subst c.
    cbn [app]. rewrite !prefix_of_cons.
    destruct (N.eqb_spec a c_backslash) as [->|]; [simpl in Hb; tauto|].
    destruct (N.eqb_spec a c_apos) as [->|]; [simpl in Ha; tauto|].
    reflexivity.
  - cbn [app]. rewrite !prefix_of_cons, IH; simpl in Ha, Hb; tauto.
Qed.
End EscapeWith.

Lemma escape_with_ext t1 t2 :
  (forall b a, t1 b a = t2 b a) ->
  forall s b, escape_with t1 b s = escape_with t2 b s.
Proof.
  intros H. induction s as [|c s IH]; intros b; [reflexivity|].
  simpl. rewrite H, IH. reflexivity.
Qed.

Lemma escape_with_never s : forall b, escape_with (fun _ _ => false) b s = s.
Proof.
  induction s as [|c s IH]; intros b; [reflexivity|].
  simpl. rewrite andb_false_r, IH. reflexivity.
Qed.

Lemma prefix_of_app_cases q : forall x y,
  prefix_of q (x ++ y) = true ->
  (exists q2, x = q ++ q2) \/ (exists q2, q = x ++ q2 /\ prefix_of q2 y = true).
Proof.
  induction q as [|a q IH]; intros x y H.
  - left. exists x. reflexivity.
  - destruct x as [|b x].
    + right. exists (a :: q). auto.
    + simpl in H. apply andb_true_iff in H. destruct H as [Hab H].
      apply N.eqb_eq in Hab. subst b.
      destruct (IH _ _ H) as [(q2 & ->)|(q2 & -> & Hq)].
      * left. exists q2. reflexivity.
      * right. exists q2. auto.
Qed.

Section OneForm.
Variables u v : pystr.
Hypothesis u_not_nil : u <> [].
Hypothesis u_no_apos : ~ In c_apos u.
Hypothesis v_no_apos : ~ In c_apos v.
Hypothesis u_head : forall a u', u = a :: u' -> ~ In a v.

Local Abbreviation form := (u ++ c_apos :: v).
Local Abbreviation escaped := (u ++ c_backslash :: c_apos :: v).

Lemma none_pending_nil s : none_pending u v [] s.
Proof.
  intros u1 u2 _ Hne H. destruct u1 as [|x u1]; [congruence|].
  simpl in H. destruct (rev u1 ++ [x]) eqn:E; [|discriminate].
  apply app_eq_nil in E. destruct E; discriminate.
Qed.

Lemma none_pending_step c s before_rev :
  prefix_of form (c :: s) = false ->
  none_pending u v before_rev (c :: s) -> none_pending u v (c :: before_rev) s.
Proof.
  intros Hmiss Hinv u1 u2 Hu Hne Hp.
  destruct (prefix_of (u2 ++ c_apos :: v) s) eqn:E; [exfalso|reflexivity].
  destruct (exists_last Hne) as (u1' & x & ->).
  rewrite rev_app_distr in Hp. simpl in Hp.
  apply andb_true_iff in Hp. destruct Hp as [Hx Hp]. apply N.eqb_eq in Hx. subst x.
  destruct u1' as [|y u1'].
  - simpl in Hu. rewrite Hu in Hmiss. simpl in Hmiss.
    rewrite N.eqb_refl, E in Hmiss. discriminate.
  - assert (F : prefix_of ((c :: u2) ++ c_apos :: v) (c :: s) = false).
    { apply (Hinv (y :: u1')); auto; [|discriminate].
      rewrite Hu, <- app_assoc. reflexivity. }
    simpl in F. rewrite N.eqb_refl, E in F. discriminate.
Qed.

Lemma none_pending_after before_rev r :
  none_pending u v (rev v ++ c_apos :: rev u ++ before_rev) r.
Proof.
  intros u1 u2 Hu Hne Hp. exfalso.
  destruct u1 as [|a u1]; [congruence|].
  assert (Ha : ~ In a v) by (apply (u_head (u' := u1 ++ u2)); rewrite Hu; reflexivity).
  assert (Hin : In a (rev (a :: u1))) by (apply -> in_rev; left; reflexivity).
  apply prefix_of_app_cases in Hp. destruct Hp as [(q2 & Hq)|(q2 & Hq & Hp)].
  - apply Ha. apply in_rev. rewrite Hq. apply in_or_app. auto.
  - destruct q2 as [|x q2].
    + rewrite app_nil_r in Hq. apply Ha. apply in_rev. rewrite <- Hq. exact Hin.
    + simpl in Hp. apply andb_true_iff in Hp. destruct Hp as [Hx _].
      apply N.eqb_eq in Hx. subst x.
      apply u_no_apos. rewrite Hu. apply in_or_app. left.
      apply in_rev. rewrite Hq. apply in_or_app. right. left. reflexivity.
Qed.

(** Replacing the form by its escaped text is escaping the apostrophes
    that stand in it. *)
Lemma str_replace_escape : forall s before_rev,
  none_pending u v before_rev s ->
  str_replace form escaped s = escape_with (in_form u v) before_rev s.
Proof.
  assert (Hform : form <> []) by (destruct u; discriminate).
  apply (str_replace_ind (old := form) (fun s => forall before_rev,
    none_pending u v before_rev s ->
    str_replace form escaped s = escape_with (in_form u v) before_rev s)); auto.
  - intros c s Hmiss IH b Hinv.
    rewrite str_replace_miss by assumption. cbn [escape_with].
    assert (E : (c =? c_apos) && in_form u v b s = false).
    { destruct ((c =? c_apos) && in_form u v b s) eqn:E; [exfalso|reflexivity].
      apply andb_true_iff in E. destruct E as [Ec E]. apply N.eqb_eq in Ec. subst c.
      unfold in_form in E. apply andb_true_iff in E. destruct E as [E1 E2].
      assert (F : prefix_of ([] ++ c_apos :: v) (c_apos :: s) = false).
      { apply (Hinv u []); auto. rewrite app_nil_r. reflexivity. }
      simpl in F. rewrite E2 in F. discriminate. }
    rewrite E. cbn [app]. f_equal. apply IH.
    apply none_pending_step; assumption.
  - intros r IH b Hinv.
    rewrite str_replace_hit by assumption.
    rewrite <- !app_assoc.
    rewrite escape_with_plain by assumption. f_equal.
    cbn [app escape_with]. rewrite N.eqb_refl.
    unfold in_form at 1. rewrite !prefix_of_app. cbn [andb app].
    f_equal. f_equal.
    rewrite escape_with_plain by assumption. f_equal.
    apply IH. apply none_pending_after.
Qed.
End OneForm.

Lemma prefix_of_escaped_ctx xs ys :
  escaped_ctx xs ys ->
  forall q, ~ In c_apos q -> prefix_of q ys = prefix_of q xs.
Proof.
  induction 1 as [|c xs ys H IH|xs ys H IH]; intros q Hq; [reflexivity| |].
  - destruct q as [|a q]; [reflexivity|]. simpl. rewrite IH; simpl in Hq; tauto.
  - destruct q as [|a q]; [reflexivity|]. rewrite !prefix_of_cons.
    destruct (N.eqb_spec a c_apos) as [->|]; [simpl in Hq; tauto|reflexivity].
Qed.

Section Compose.
Variable test : pystr -> pystr -> bool.
Variables u v : pystr.
Hypothesis u_not_nil : u <> [].
Hypothesis u_no_apos : ~ In c_apos u.
Hypothesis u_no_backslash : ~ In c_backslash u.
Hypothesis v_no_apos : ~ In c_apos v.
Hypothesis v_no_backslash : ~ In c_backslash v.

Lemma in_form_after_backslash b a : in_form u v (c_backslash :: b) a = false.
Proof.
  unfold in_form. destruct (exists_last u_not_nil) as (u' & x & Hu).
  rewrite Hu, rev_app_distr. simpl.
  destruct (N.eqb_spec x c_backslash) as [->|]; [|reflexivity].
  exfalso. apply u_no_backslash. rewrite Hu. apply in_or_app. right. left. reflexivity.
Qed.

(** Escaping for one more form, after the others. *)
Lemma escape_with_compose : forall s bs bs',
  escaped_ctx bs bs' ->
  escape_with (in_form u v) bs' (escape_with test bs s)
  = escape_with (fun b a => test b a || in_form u v b a) bs s.
Proof.
  induction s as [|c s IH]; intros bs bs' Hctx; [reflexivity|].
  cbn [escape_with].
  destruct (N.eqb_spec c c_apos) as [->|Hc].
  - destruct (test bs s) eqn:T; cbn [andb orb app].
    + cbn [escape_with app].
      change (c_backslash =? c_apos) with false. cbn [andb app].
      rewrite N.eqb_refl, in_form_after_backslash. cbn [andb app].
      f_equal. f_equal. apply IH. apply ctx_escaped. assumption.
    + cbn [escape_with]. rewrite N.eqb_refl. cbn [andb].
      assert (E : in_form u v bs' (escape_with test (c_apos :: bs) s)
                  = in_form u v bs s).
      { unfold in_form. rewrite (prefix_of_escaped_ctx Hctx).
        - rewrite prefix_of_escape_with; auto.
        - intros Hin. apply u_no_apos. apply in_rev. exact Hin. }
      rewrite E. f_equal. apply IH. constructor. assumption.
  - cbn [andb app escape_with].
    destruct (N.eqb_spec c c_apos); [contradiction|]. cbn [andb app].
    f_equal. apply IH. constructor. assumption.
Qed.
End Compose.

(** ** The listed forms *)

Lemma apostrophe_patterns_ok : forallb pattern_ok apostrophe_patterns = true.
Proof. vm_compute. reflexivity. Qed.

Lemma str_eqb_eq a b : str_eqb a b = true -> a = b.
Proof. unfold str_eqb. destruct (list_eq_dec N.eq_dec a b); [auto|discriminate]. Qed.

Lemma mem_negb_notin c p : negb (mem c p) = true -> ~ In c p.
Proof. intros H. apply mem_false_notin. destruct (mem c p); [discriminate|reflexivity]. Qed.

Lemma pattern_ok_facts pr :
  pattern_ok pr = true ->
  exists u v,
    split_form (fst pr) = (u, v) /\
    forallb pattern_char (fst pr) = true /\
    forallb pattern_char u = true /\ forallb pattern_char v = true /\
    fold_str (fst pr) = fold_str u ++ c_apos :: fold_str v /\
    fold_str (snd pr) = fold_str u ++ c_backslash :: c_apos :: fold_str v /\
    fold_str u <> [] /\
    ~ In c_apos (fold_str u) /\ ~ In c_backslash (fold_str u) /\
    ~ In c_apos (fold_str v) /\ ~ In c_backslash (fold_str v) /\
    (forall a u', fold_str u = a :: u' -> ~ In a (fold_str v)).
Proof.
  unfold pattern_ok. destruct (split_form (fst pr)) as [u v]. cbv zeta.
  rewrite !andb_true_iff.
  intros [[[[[[[[[H1 H2] H3] H4] H5] H6] H7] H8] H9] H10].
  exists u, v. repeat split; auto using str_eqb_eq, mem_negb_notin.
  - intros E. rewrite E in H10. discriminate.
  - intros a u' E. rewrite E in H10. apply mem_negb_notin, H10.
Qed.

Lemma folded_step_escape pr test x :
  pattern_ok pr = true ->
  folded_step (escape_with test [] x) pr
  = escape_with (fun b a => test b a || folded_test [pr] b a) [] x.
Proof.
  intros H. destruct (pattern_ok_facts _ H)
    as (u & v & Hs & _ & _ & _ & Hp & Hr & Hne & Hua & Hub & Hva & Hvb & Hh).
  unfold folded_step, folded_test. cbn [existsb]. cbv zeta.
  rewrite Hs, Hp, Hr. cbn [fst snd].
  rewrite str_replace_escape with (before_rev := []);
    auto using none_pending_nil.
  rewrite escape_with_compose; auto using ctx_nil.
  apply escape_with_ext. intros b a. rewrite orb_false_r. reflexivity.
Qed.

Lemma folded_steps_escape L :
  forallb pattern_ok L = true ->
  forall test x,
    fold_left folded_step L (escape_with test [] x)
    = escape_with (fun b a => test b a || folded_test L b a) [] x.
Proof.
  induction L as [|pr L IH]; intros H test x.
  - simpl. apply escape_with_ext. intros b a. rewrite orb_false_r. reflexivity.
  - simpl in H. apply andb_true_iff in H. destruct H as [Hpr H].
    cbn [fold_left]. rewrite folded_step_escape, IH by assumption.
    apply escape_with_ext. intros b a.
    unfold folded_test. cbn [existsb]. rewrite orb_false_r, orb_assoc. reflexivity.
Qed.

Lemma apostrophe_passes_casefold L :
  forallb pattern_ok L = true ->
  forall c,
    fold_str (fold_left (fun acc pr => re_sub_ci (fst pr) (snd pr) acc) L c)
    = fold_left folded_step L (fold_str c).
Proof.
  induction L as [|pr L IH]; intros H c; [reflexivity|].
  simpl in H. apply andb_true_iff in H. destruct H as [Hpr H].
  cbn [fold_left]. rewrite IH by assumption. unfold folded_step at 2.
  rewrite re_sub_ci_casefold; [reflexivity|].
  destruct (pattern_ok_facts _ Hpr) as (u & v & _ & Hc & _). exact Hc.
Qed.

Lemma forallb_rev (A : Type) (f : A -> bool) l :
  forallb f l = true -> forallb f (rev l) = true.
Proof.
  rewrite !forallb_forall. intros H x Hx. apply H, in_rev, Hx.
Qed.

Lemma ci_test_casefold L :
  forallb pattern_ok L = true ->
  forall b a, ci_test L b a = folded_test L (fold_str b) (fold_str a).
Proof.
  induction L as [|pr L IH]; intros H b a; [reflexivity|].
  simpl in H. apply andb_true_iff in H. destruct H as [Hpr H].
  unfold ci_test, folded_test in *. cbn [map existsb]. rewrite IH by assumption.
  f_equal.
  destruct (pattern_ok_facts _ Hpr) as (u & v & Hs & _ & Hu & Hv & _).
  rewrite Hs. cbn [fst snd]. unfold in_form.
  rewrite !prefix_ci_casefold by auto using forallb_rev.
  unfold fold_str. rewrite map_rev. reflexivity.
Qed.

Lemma casefold_apos_eqb c : (casefold c =? c_apos) = (c =? c_apos).
Proof.
  destruct (N.eqb_spec c c_apos) as [->|H]; [reflexivity|].
  apply N.eqb_neq. intros E. apply H, casefold_apos, E.
Qed.

Lemma escape_with_casefold L :
  forallb pattern_ok L = true ->
  forall s b,
    fold_str (escape_with (ci_test L) b s)
    = escape_with (folded_test L) (fold_str b) (fold_str s).
Proof.
  intros H. induction s as [|c s IH]; intros b; [reflexivity|].
  cbn [escape_with fold_str map]. unfold fold_str in *.
  rewrite map_app, IH, casefold_apos_eqb.
  rewrite (ci_test_casefold _ H). unfold fold_str.
  destruct ((c =? c_apos) && folded_test L (map casefold b) (map casefold s));
    reflexivity.
Qed.

(** The loop of the apostrophe pass and the one-walk escape agree, letter
    case aside. *)
Lemma apostrophes_content_escape c :
  fold_str (apostrophes_content c) = fold_str (escape_listed c).
Proof.
  unfold apostrophes_content, escape_listed.
  rewrite apostrophe_passes_casefold by apply apostrophe_patterns_ok.
  change in_listed_form with (ci_test apostrophe_patterns).
  rewrite escape_with_casefold by apply apostrophe_patterns_ok.
  rewrite <- (escape_with_never (fold_str c) []) at 1.
  rewrite folded_steps_escape by apply apostrophe_patterns_ok.
  apply escape_with_ext. reflexivity.
Qed.

(** C6.  On the content of an entry, the apostrophe pass puts a backslash
    before exactly the apostrophes that stand in a listed form, matched
    without regard to letter case; every other apostrophe, and every
    other character up to letter case, is as it was.  Case folding keeps
    apostrophes and backslashes apart from all other characters.  On a
    file, the pass rewrites the content of the entries and nothing else. *)
Theorem apostrophes_escape_listed_forms :
  (forall c, fold_str (apostrophes_content c) = fold_str (escape_listed c)) /\
  (forall x, casefold x = c_apos <-> x = c_apos) /\
  (forall x, casefold x = c_backslash <-> x = c_backslash) /\
  (forall text,
     fix_apostrophes text
     = flat_map (render (fun e =>
         start_tag e ++ apostrophes_content (string_content e) ++ end_tag e))
         (entry_parts text)) /\
  transform (string_entry (lit "z") (lit "Firefox isn't slow"))
    = string_entry (lit "z") (lit "Waterfox isn\'t slow").
Proof.
  split; [apply apostrophes_content_escape|].
  split; [apply casefold_apos|]. split; [apply casefold_backslash|].
  split; [apply (sub_entries_parts apostrophes_content)|].
  vm_compute. reflexivity.
Qed.

(** ** A run over the files *)

Module RunFacts.
Section Facts.
Variable W : Type.
Variable glob_strings : W -> list pystr.
Variable read_text : W -> pystr -> result pystr.
Variable write_text : W -> pystr -> pystr -> result unit * W.
Variable print_error : W -> list pystr -> pystr -> option exn.

Lemma print_accepted line st :
  print_error (IO.world st) (IO.console st) line = None ->
  IO.print print_error line st
  = (Return tt, IO.State (IO.world st) (IO.console st ++ [line])).
Proof. unfold IO.print. intros ->. reflexivity. Qed.

Lemma accepted_app (a b : list pystr) :
  Run.accepted print_error (a ++ b) ->
  Run.accepted print_error a /\ Run.accepted print_error b.
Proof.
  intros H. split; intros w out line Hin; apply H, in_or_app; auto.
Qed.

(** One file, when the standard output accepts its error line. *)
Lemma process_file_run path st :
  Run.accepted print_error
    (match fst (Run.file_outcome read_text write_text (IO.world st) path) with
     | None => []
     | Some e => [Run.error_line path e]
     end) ->
  IO.process_file read_text write_text print_error path st
  = let (o, w') := Run.file_outcome read_text write_text (IO.world st) path in
    (Return (Run.succeeded (path, o)),
     IO.State w' (IO.console st ++ match o with
                                    | None => []
                                    | Some e => [Run.error_line path e]
                                    end)).
Proof.
  destruct st as [w out].
  unfold IO.process_file, IO.try_except, IO.bind, IO.open_read, IO.open_write,
    IO.print, IO.ret, Run.file_outcome. cbn [IO.world IO.console].
  destruct (read_text w path) as [content|e].
  - destruct (write_text w path (transform content)) as [[[]|e] w']; cbn;
      intros H; rewrite ?app_nil_r; [reflexivity|].
    unfold Run.error_line in H.
    rewrite (H w' out _ (or_introl eq_refl)). reflexivity.
  - cbn. intros H. unfold Run.error_line in H.
    rewrite (H w out _ (or_introl eq_refl)). reflexivity.
Qed.

Lemma process_each_run : forall files n st,
  Run.accepted print_error
    (flat_map Run.report (fst (Run.run_files read_text write_text files (IO.world st)))) ->
  IO.process_each read_text write_text print_error files n st
  = let (os, w') := Run.run_files read_text write_text files (IO.world st) in
    (Return (n + Run.successes os)%nat,
     IO.State w' (IO.console st ++ flat_map Run.report os)).
Proof.
  induction files as [|path rest IH]; intros n st H.
  - destruct st as [w out]. cbn. rewrite app_nil_r, Nat.add_0_r. reflexivity.
  - cbn [IO.process_each Run.run_files] in *. unfold IO.bind at 1 2.
    pose proof (process_file_run path
      (IO.State (IO.world st) (IO.console st ++ [Run.processing_line path]))) as Hf.
    cbn [IO.world IO.console] in Hf.
    destruct (Run.file_outcome read_text write_text (IO.world st) path) as [o w1].
    specialize (IH (if Run.succeeded (path, o) then S n else n)
      (IO.State w1 ((IO.console st ++ [Run.processing_line path])
                    ++ match o with None => [] | Some e => [Run.error_line path e] end))).
    cbn [IO.world IO.console] in IH.
    destruct (Run.run_files read_text write_text rest w1) as [os w2].
    cbn [fst flat_map] in H. apply accepted_app in H. destruct H as [H1 H2].
    unfold Run.report in H1. cbn [fst snd] in H1.
    rewrite print_accepted
      by (apply H1; left; reflexivity).
    cbn [IO.world IO.console]. fold (Run.processing_line path).
    rewrite Hf by (intros w out line Hin; apply H1; right; exact Hin).
    rewrite IH by exact H2.
    unfold Run.successes, Run.report, Run.succeeded, Run.processing_line.
    destruct o as [e|]; cbn [filter snd fst length flat_map app];
      rewrite <- ?app_assoc; cbn [app];
      [reflexivity|]. f_equal. f_equal. lia.
Qed.

Lemma run_files_paths : forall files w, map fst (fst (Run.run_files read_text write_text files w)) = files.
Proof.
  induction files as [|path rest IH]; intros w; [reflexivity|].
  cbn [Run.run_files]. destruct (Run.file_outcome read_text write_text w path) as [o w1].
  specialize (IH w1). destruct (Run.run_files read_text write_text rest w1) as [os w2].
  cbn in *. f_equal. exact IH.
Qed.

Lemma run_files_length files w :
  length (fst (Run.run_files read_text write_text files w)) = length files.
Proof.
  rewrite <- (run_files_paths files w) at 2.
  rewrite length_map. reflexivity.
Qed.

(** The run in closed form, when the standard output accepts its
    lines. *)
Lemma process_string_files_lines st :
  Run.accepted print_error
    (Run.run_lines (fst (Run.run_files read_text write_text
                           (glob_strings (IO.world st)) (IO.world st)))) ->
  IO.process_string_files glob_strings read_text write_text print_error st
  = let (os, w') :=
      Run.run_files read_text write_text (glob_strings (IO.world st)) (IO.world st) in
    (Return tt, IO.State w' (IO.console st ++ Run.run_lines os)).
Proof.
  unfold IO.process_string_files.
  pose proof (run_files_length (glob_strings (IO.world st)) (IO.world st)) as Hl.
  pose proof (process_each_run (glob_strings (IO.world st)) 0
    (IO.State (IO.world st)
       (IO.console st ++ [Run.found_line (length (glob_strings (IO.world st)))]))) as He.
  cbn [IO.world IO.console] in He.
  destruct (glob_strings (IO.world st)) as [|path rest] eqn:G.
  - cbn [Run.run_files fst Run.run_lines]. intros H.
    apply print_accepted, H. left. reflexivity.
  - destruct (Run.run_files read_text write_text (path :: rest) (IO.world st))
      as [os w'] eqn:R.
    cbn [fst] in *. intros H.
    destruct os as [|o os]; [discriminate|].
    unfold Run.run_lines in H.
    apply accepted_app in H. destruct H as [H1 H2].
    apply accepted_app in H2. destruct H2 as [H2 H3].
    unfold IO.bind at 1 2. rewrite Hl in H1.
    fold (Run.found_line (length (path :: rest))).
    rewrite print_accepted by (apply H1; left; reflexivity).
    cbn [IO.world IO.console]. rewrite He by exact H2.
    unfold Run.summary_line in H3. rewrite Hl, Nat.add_0_l in *.
    rewrite print_accepted by (apply H3; left; reflexivity).
    cbn [IO.world IO.console].
    unfold Run.run_lines, Run.summary_line.
    rewrite Hl, <- !app_assoc. reflexivity.
Qed.

(** C8, amended.  A file that cannot be read or written does not stop
    the run, and no exception escapes it, as long as the standard output
    accepts the lines of the run.  With no file found the run prints one
    line.  Otherwise every file found is processed in turn, on the file
    system the files before it left, whatever happened to them: each adds
    its [Processing:] line and, when reading or writing it raised, the
    line with its path and the message of the exception; the last line
    counts the files that went through against all files found. *)
Theorem process_string_files_contained (st : IO.state W) :
  let files := glob_strings (IO.world st) in
  let run := Run.run_files read_text write_text files (IO.world st) in
  Run.accepted print_error (Run.run_lines (fst run)) ->
  map fst (fst run) = files /\
  IO.process_string_files glob_strings read_text write_text print_error st
  = (Return tt,
     IO.State (snd run)
       (IO.console st
        ++ match files with
           | [] => [lit "No strings.xml files found!"]
           | _ :: _ =>
               [Run.found_line (length files)] ++ flat_map Run.report (fst run)
               ++ [Run.summary_line (Run.successes (fst run)) (length files)]
           end)).
Proof.
  cbv zeta. intros H. split; [apply run_files_paths|].
  rewrite process_string_files_lines by exact H.
  pose proof (run_files_length (glob_strings (IO.world st)) (IO.world st)) as Hl.
  destruct (Run.run_files read_text write_text (glob_strings (IO.world st)) (IO.world st))
    as [os w'].
  cbn [fst snd] in *. unfold Run.run_lines.
  destruct (glob_strings (IO.world st)) as [|path rest];
    destruct os as [|o os]; try discriminate; [reflexivity|].
  rewrite Hl. reflexivity.
Qed.
End Facts.
End RunFacts.

(** ** Running a pass again *)

Lemma occurrences_zero_contains p s :
  occurrences p s = 0%nat -> contains p s = false.
Proof. intros H. rewrite contains_occurrences, H. reflexivity. Qed.

Lemma prefix_of_app_l p q : forall s,
  prefix_of (p ++ q) s = true -> prefix_of p s = true.
Proof.
  induction p as [|a p IH]; intros s H; [reflexivity|].
  destruct s as [|b s]; [discriminate|].
  simpl in *. apply andb_true_iff in H. destruct H as [-> H]. simpl. eauto.
Qed.

Lemma contains_app_l p q : forall s,
  contains p s = false -> contains (p ++ q) s = false.
Proof.
  induction s as [|c s IH]; cbn [contains]; intros H;
    apply orb_false_iff in H; destruct H as [H1 H2].
  - destruct (prefix_of (p ++ q) []) eqn:E; [|reflexivity].
    apply prefix_of_app_l in E. congruence.
  - rewrite IH by assumption.
    destruct (prefix_of (p ++ q) (c :: s)) eqn:E; [|reflexivity].
    apply prefix_of_app_l in E. congruence.
Qed.

Lemma brand_content_idempotent c :
  brand_content (brand_content c) = brand_content c.
Proof.
  rewrite (brand_content_cases c).
  destruct (contains Mozilla_Account c) eqn:P.
  - rewrite brand_content_cases, protected_after_firefox, P.
    apply str_replace_absent, firefox_removed.
  - set (y := str_replace Mozilla BrowserWorks (str_replace Firefox Waterfox c)).
    assert (Hm : occurrences Mozilla y = 0%nat) by apply mozilla_removed.
    assert (Hf : occurrences Firefox y = 0%nat).
    { unfold y. rewrite firefox_kept_by_mozilla. apply firefox_removed. }
    assert (Hp : contains Mozilla_Account y = false).
    { apply (contains_app_l Mozilla (lit " Account")).
      apply occurrences_zero_contains, Hm. }
    rewrite brand_content_cases, Hp.
    assert (E : str_replace Firefox Waterfox y = y)
      by (apply str_replace_absent, Hf).
    rewrite E. apply str_replace_absent, Hm.
Qed.

Lemma sub_entries_ext f g text :
  (forall c, f c = g c) -> sub_entries f text = sub_entries g text.
Proof.
  intros H. rewrite !sub_entries_parts. apply flat_map_ext.
  intros [c|e]; [reflexivity|]. unfold render, on_content. rewrite H. reflexivity.
Qed.

(** The brand pass changes nothing in its own output. *)
Lemma replace_brand_names_idempotent text :
  replace_brand_names (replace_brand_names text) = replace_brand_names text.
Proof.
  change (sub_entries brand_content (sub_entries brand_content text)
          = sub_entries brand_content text).
  rewrite sub_entries_fuse by apply brand_content_close_free.
  apply sub_entries_ext, brand_content_idempotent.
Qed.

Lemma length_str_replace_ge old new :
  old <> [] -> (length old <= length new)%nat ->
  forall s, (length s <= length (str_replace old new s))%nat.
Proof.
  intros Hne Hlen.
  apply (str_replace_ind (old := old)
           (fun s => (length s <= length (str_replace old new s))%nat));
    [assumption| | |].
  - reflexivity.
  - intros c s E IH. rewrite str_replace_miss by assumption. simpl. lia.
  - intros r IH. rewrite str_replace_hit by assumption.
    rewrite !length_app. lia.
Qed.

(** A replacement by a longer text that leaves the text as it is found
    nothing to replace. *)
Lemma str_replace_fixed old new :
  old <> [] -> (length old < length new)%nat ->
  forall z, str_replace old new z = z -> occurrences old z = 0%nat.
Proof.
  intros Hne Hlen.
  apply (str_replace_ind (old := old)
           (fun z => str_replace old new z = z -> occurrences old z = 0%nat));
    [assumption| | |].
  - intros _. destruct old; [congruence|reflexivity].
  - intros c s E IH H. rewrite str_replace_miss in H by assumption.
    injection H as H. cbn [occurrences]. rewrite E, IH; auto.
  - intros r _ H. exfalso. rewrite str_replace_hit in H by assumption.
    apply (f_equal (@length char)) in H. rewrite !length_app in H.
    pose proof (length_str_replace_ge new Hne (Nat.lt_le_incl _ _ Hlen) r). lia.
Qed.

Lemma occurrences_zero_suffix p a b :
  occurrences p (a ++ b) = 0%nat -> prefix_of p b = false.
Proof.
  intros H. apply contains_prefix_false, contains_suffix_false with a.
  apply occurrences_zero_contains, H.
Qed.

Lemma fold_left_fixed (A B : Type) (step : A -> B -> A) (L : list B) (y : A) :
  (forall x, In x L -> step y x = y) -> fold_left step L y = y.
Proof.
  induction L as [|x L IH]; intros H; [reflexivity|].
  simpl. rewrite H by (left; reflexivity). apply IH. intros x' Hx. apply H. right. exact Hx.
Qed.

Lemma folded_test_In L pr b a :
  In pr L -> folded_test [pr] b a = true -> folded_test L b a = true.
Proof.
  intros Hin H. unfold folded_test in *. cbn [existsb] in H. rewrite orb_false_r in H.
  apply existsb_exists. exists pr. auto.
Qed.

(** The content after the apostrophe pass, case-folded. *)
Lemma apostrophes_content_folded c :
  fold_str (apostrophes_content c)
  = escape_with (folded_test apostrophe_patterns) [] (fold_str c).
Proof.
  rewrite apostrophes_content_escape. unfold escape_listed.
  change in_listed_form with (ci_test apostrophe_patterns).
  apply escape_with_casefold, apostrophe_patterns_ok.
Qed.

(** No listed form, in any letter case, is left in the content after the
    apostrophe pass. *)
Lemma apostrophes_content_no_form c pr a b :
  In pr apostrophe_patterns ->
  apostrophes_content c = a ++ b -> prefix_ci (fst pr) b = false.
Proof.
  intros Hin Hab.
  assert (Hok : pattern_ok pr = true).
  { pose proof apostrophe_patterns_ok as H. rewrite forallb_forall in H. auto. }
  destruct (pattern_ok_facts _ Hok)
    as (u & v & Hs & Hc & _ & _ & Hp & Hr & Hne & _).
  rewrite prefix_ci_casefold by assumption.
  apply occurrences_zero_suffix with (fold_str a).
  unfold fold_str at 2 3. rewrite <- map_app, <- Hab. fold (fold_str (apostrophes_content c)).
  rewrite apostrophes_content_folded.
  apply str_replace_fixed with (new := fold_str (snd pr)).
  - rewrite Hp. destruct (fold_str u); discriminate.
  - rewrite Hp, Hr, !length_app. simpl. lia.
  - change (folded_step
              (escape_with (folded_test apostrophe_patterns) [] (fold_str c)) pr
            = escape_with (folded_test apostrophe_patterns) [] (fold_str c)).
    rewrite folded_step_escape by assumption.
    apply escape_with_ext. intros b' a'.
    destruct (folded_test apostrophe_patterns b' a') eqn:T; [reflexivity|].
    destruct (folded_test [pr] b' a') eqn:T'; [|reflexivity].
    rewrite (folded_test_In _ _ _ _ Hin T') in T. discriminate.
Qed.

Lemma re_sub_ci_idle pat repl y :
  (forall a b, y = a ++ b -> prefix_ci pat b = false) -> re_sub_ci pat repl y = y.
Proof.
  intros H. apply scan_sub_idle. intros a b Hab.
  unfold match_literal_ci. rewrite (H a b Hab). reflexivity.
Qed.

Lemma apostrophes_content_idempotent c :
  apostrophes_content (apostrophes_content c) = apostrophes_content c.
Proof.
  unfold apostrophes_content at 1. apply fold_left_fixed. intros pr Hin.
  apply re_sub_ci_idle. intros a b Hab.
  eapply apostrophes_content_no_form; eauto.
Qed.

(** ** Characters a pass cannot introduce *)

Lemma sub_from_notin (G : Type) (m : pystr -> option (G * nat)) repl ch :
  (forall g, ~ In ch (repl g)) ->
  forall s skip, ~ In ch s -> ~ In ch (sub_from m repl skip s).
Proof.
  intros Hr. induction s as [|c s IH]; intros skip Hs; [exact Hs|].
  assert (Hs' : ~ In ch s) by (intros H; apply Hs; right; exact H).
  destruct skip as [|k]; simpl; [|apply IH, Hs'].
  destruct (m (c :: s)) as [[g len]|].
  - intros H. apply in_app_or in H. destruct H as [H|H].
    + exact (Hr g H).
    + exact (IH _ Hs' H).
  - intros [H|H]; [apply Hs; left; exact H|exact (IH _ Hs' H)].
Qed.

Lemma str_replace_notin old new ch s :
  ~ In ch new -> ~ In ch s -> ~ In ch (str_replace old new s).
Proof. intros Hn. apply sub_from_notin. intros _. exact Hn. Qed.

Lemma re_sub_ci_notin pat repl ch s :
  ~ In ch repl -> ~ In ch s -> ~ In ch (re_sub_ci pat repl s).
Proof. intros Hn. apply sub_from_notin. intros _. exact Hn. Qed.

Lemma plain_notin w ch : plain w = true -> In ch special_chars -> ~ In ch w.
Proof.
  unfold plain. rewrite forallb_forall. intros H Hin.
  apply mem_negb_notin, H, Hin.
Qed.

Lemma brand_content_notin ch c :
  In ch special_chars -> ~ In ch c -> ~ In ch (brand_content c).
Proof.
  intros Hch Hc. unfold brand_content. cbv zeta.
  assert (H1 : ~ In ch (str_replace Firefox Waterfox c)).
  { apply str_replace_notin; auto. apply plain_notin; auto. }
  destruct (negb (contains Mozilla_Account (str_replace Firefox Waterfox c))); auto.
  apply str_replace_notin; auto. apply plain_notin; auto.
Qed.

Lemma replacements_plain :
  forallb (fun pr => plain (snd pr)) apostrophe_patterns = true.
Proof. vm_compute. reflexivity. Qed.

Lemma apostrophes_content_notin ch c :
  In ch special_chars -> ~ In ch c -> ~ In ch (apostrophes_content c).
Proof.
  intros Hch. unfold apostrophes_content.
  pose proof replacements_plain as Hp. rewrite forallb_forall in Hp.
  revert c. induction apostrophe_patterns as [|pr L IH]; intros c Hc; [exact Hc|].
  cbn [fold_left]. apply IH.
  - intros x Hx. apply Hp. right. exact Hx.
  - apply re_sub_ci_notin; auto. apply plain_notin; auto. apply Hp. left. reflexivity.
Qed.

Lemma sub_entries_notin f ch text :
  (forall c, ~ In ch c -> ~ In ch (f c)) ->
  ~ In ch text -> ~ In ch (sub_entries f text).
Proof.
  intros Hf. rewrite <- (entry_parts_text text) at 1. rewrite sub_entries_parts.
  rewrite !in_flat_map. intros Hn (p & Hp & Hin). apply Hn. exists p. split; auto.
  destruct p as [c|e]; [exact Hin|].
  unfold render, on_content, entry_text in *.
  apply in_app_or in Hin. destruct Hin as [Hin|Hin]; [apply in_or_app; auto|].
  apply in_app_or in Hin. destruct Hin as [Hin|Hin].
  - destruct (in_dec N.eq_dec ch (string_content e)) as [Hc|Hc].
    + apply in_or_app. right. apply in_or_app. auto.
    + exfalso. exact (Hf _ Hc Hin).
  - apply in_or_app. right. apply in_or_app. auto.
Qed.

(** Without a [%] there is nothing for the format pass. *)
Lemma fix_format_no_percent text :
  ~ In c_percent text -> fix_format_specifiers text = text.
Proof.
  intros H. apply scan_sub_idle. intros a b ->.
  apply match_format_few_percent.
  assert (Hb : ~ In c_percent b) by (intros Hin; apply H, in_or_app; auto).
  apply (count_occ_not_In N.eq_dec) in Hb. rewrite Hb. lia.
Qed.

(** ** What a case-insensitive substitution can touch *)

Lemma casefold_pattern_char p :
  pattern_char p = true -> 97 <= casefold p <= 122 \/ casefold p = 39.
Proof.
  unfold pattern_char. destruct (iscased p) eqn:E; simpl; intros H.
  - left. rewrite casefold_cased by assumption. apply unicode_tolower_cased, E.
  - right. apply N.eqb_eq in H. subst p. reflexivity.
Qed.

Lemma char_match_ci_not_special p ch :
  pattern_char p = true -> char_match_ci p ch = true -> ~ In ch special_chars.
Proof.
  intros Hp H. rewrite char_match_ci_casefold in H by assumption.
  apply N.eqb_eq in H. apply casefold_pattern_char in Hp. rewrite H in Hp.
  unfold special_chars, c_quote, c_percent, c_lt, c_gt.
  intros [<-|[<-|[<-|[<-|[<-|[]]]]]]; vm_compute in Hp;
    destruct Hp as [[Hp _]|Hp]; try discriminate; apply Hp; reflexivity.
Qed.

Lemma prefix_ci_matched pat : forall s,
  prefix_ci pat s = true ->
  length (firstn (length pat) s) = length pat /\
  (forall ch, In ch (firstn (length pat) s) ->
     exists p, In p pat /\ char_match_ci p ch = true) /\
  (In c_apos pat -> In c_apos (firstn (length pat) s)).
Proof.
  induction pat as [|a pat IH]; intros s H.
  - simpl. repeat split; [intros ch []|intros []].
  - destruct s as [|b s]; [discriminate|]. simpl in H.
    apply andb_true_iff in H. destruct H as [Hab H].
    destruct (IH _ H) as (Hl & Hc & Ha). cbn [length firstn].
    split; [rewrite Hl; reflexivity|]. split.
    + intros ch [<-|Hin]; [exists a; split; [left; reflexivity|exact Hab]|].
      destruct (Hc _ Hin) as (p & Hp & Hm). exists p. split; [right|]; assumption.
    + intros [->|Hin]; [|right; auto].
      left. change (char_match_ci c_apos b) with (b =? c_apos) in Hab.
      apply N.eqb_eq in Hab. auto.
Qed.

Lemma re_sub_ci_miss pat repl c s :
  prefix_ci pat (c :: s) = false ->
  re_sub_ci pat repl (c :: s) = c :: re_sub_ci pat repl s.
Proof.
  intros H. unfold re_sub_ci. apply scan_sub_copy.
  unfold match_literal_ci. rewrite H. reflexivity.
Qed.

Lemma re_sub_ci_hit pat repl s :
  pat <> [] -> prefix_ci pat s = true ->
  re_sub_ci pat repl s = repl ++ re_sub_ci pat repl (skipn (length pat) s).
Proof.
  intros Hne H. unfold re_sub_ci.
  destruct (prefix_ci_matched _ _ H) as (Hl & _).
  apply scan_sub_match with (g := tt) (a := firstn (length pat) s).
  - unfold match_literal_ci. rewrite H, Hl. reflexivity.
  - intros E. rewrite E in Hl. destruct pat; [congruence|discriminate].
  - symmetry. apply firstn_skipn.
Qed.

(** A literal that ends with [>] and has no apostrophe does not begin
    with a text that has an apostrophe and no [>]. *)
Lemma prefix_of_clash q w t :
  In c_gt q -> ~ In c_gt w -> In c_apos w -> ~ In c_apos q ->
  prefix_of q (w ++ t) = false.
Proof.
  intros Hq Hw Ha Hqa. destruct (prefix_of q (w ++ t)) eqn:E; [exfalso|reflexivity].
  apply prefix_of_app_cases in E. destruct E as [(q2 & ->)|(q2 & -> & _)].
  - apply Hw, in_or_app. auto.
  - apply Hqa, in_or_app. auto.
Qed.

Section CiSub.
Variables pat repl : pystr.
Hypothesis pat_chars : forallb pattern_char pat = true.
Hypothesis pat_apos : In c_apos pat.
Hypothesis repl_plain : plain repl = true.
Hypothesis repl_apos : In c_apos repl.

Lemma pat_not_nil : pat <> [].
Proof. intros E. rewrite E in pat_apos. exact pat_apos. Qed.

Lemma matched_plain s ch :
  prefix_ci pat s = true -> In ch special_chars ->
  ~ In ch (firstn (length pat) s).
Proof.
  intros H Hch Hin. destruct (prefix_ci_matched _ _ H) as (_ & Hc & _).
  destruct (Hc _ Hin) as (p & Hp & Hm).
  pose proof pat_chars as Hall. rewrite forallb_forall in Hall.
  eapply char_match_ci_not_special; eauto.
Qed.

Lemma special_gt : In c_gt special_chars.
Proof. simpl. tauto. Qed.

Lemma special_lt : In c_lt special_chars.
Proof. simpl. tauto. Qed.

(** A literal that ends with [>] and has no apostrophe begins in the
    output where it began in the input. *)
Lemma prefix_of_re_sub_ci q0 :
  ~ In c_apos (q0 ++ [c_gt]) ->
  forall s, prefix_of (q0 ++ [c_gt]) (re_sub_ci pat repl s)
            = prefix_of (q0 ++ [c_gt]) s.
Proof.
  induction q0 as [|a q0 IH]; intros Hq s.
  - destruct s as [|c s]; [reflexivity|].
    destruct (prefix_ci pat (c :: s)) eqn:E.
    + rewrite re_sub_ci_hit by auto using pat_not_nil.
      rewrite <- (firstn_skipn (length pat) (c :: s)) at 2.
      rewrite !prefix_of_clash; auto using special_gt, plain_notin, matched_plain;
        try (simpl; tauto).
      destruct (prefix_ci_matched _ _ E) as (_ & _ & Ha). auto.
    + rewrite re_sub_ci_miss by assumption. reflexivity.
  - destruct s as [|c s]; [reflexivity|].
    assert (Hin : In c_gt ((a :: q0) ++ [c_gt]))
      by (apply in_or_app; right; left; reflexivity).
    destruct (prefix_ci pat (c :: s)) eqn:E.
    + rewrite re_sub_ci_hit by auto using pat_not_nil.
      rewrite <- (firstn_skipn (length pat) (c :: s)) at 2.
      rewrite !prefix_of_clash; auto using special_gt, plain_notin, matched_plain.
      destruct (prefix_ci_matched _ _ E) as (_ & _ & Ha). auto.
    + rewrite re_sub_ci_miss by assumption.
      cbn [app]. rewrite !prefix_of_cons, IH; [reflexivity|].
      intros H. apply Hq. right. exact H.
Qed.

Lemma mem_true_in c p : mem c p = true -> In c p.
Proof.
  unfold mem. intros H. apply existsb_exists in H. destruct H as (x & Hx & E).
  apply N.eqb_eq in E. subst x. exact Hx.
Qed.

Lemma contains_skip h p' w t :
  ~ In h w -> contains (h :: p') (w ++ t) = contains (h :: p') t.
Proof.
  intros Hw. rewrite !contains_occurrences.
  rewrite (occurrences_skip h p'); [reflexivity|].
  destruct (mem h w) eqn:E; [|reflexivity].
  exfalso. apply Hw, mem_true_in, E.
Qed.

(** The closing tag occurs in the output exactly when it occurs in the
    input. *)
Lemma contains_close_re_sub_ci :
  forall s, contains close_string (re_sub_ci pat repl s) = contains close_string s.
Proof.
  intros s. remember (length s) as n eqn:Hn. revert s Hn.
  induction n as [n IH] using lt_wf_ind. intros s Hn.
  destruct s as [|c s]; [reflexivity|].
  destruct (prefix_ci pat (c :: s)) eqn:E.
  - rewrite re_sub_ci_hit by auto using pat_not_nil.
    rewrite <- (firstn_skipn (length pat) (c :: s)) at 2.
    unfold close_string.
    rewrite !contains_skip
      by auto using special_lt, plain_notin, matched_plain.
    apply (IH (length (skipn (length pat) (c :: s)))); auto.
    rewrite length_skipn. subst n. pose proof pat_not_nil.
    destruct pat; [congruence|]. simpl. lia.
  - rewrite re_sub_ci_miss by assumption. cbn [contains].
    rewrite (IH (length s)) by (subst n; simpl; auto).
    f_equal. unfold close_string. rewrite !prefix_of_cons. f_equal.
    apply (prefix_of_re_sub_ci (lit "/string")). simpl. intuition discriminate.
Qed.
End CiSub.

Lemma apostrophe_patterns_frame : forallb pattern_frame apostrophe_patterns = true.
Proof. vm_compute. reflexivity. Qed.

Lemma pattern_frame_facts pr :
  pattern_frame pr = true ->
  forallb pattern_char (fst pr) = true /\ In c_apos (fst pr) /\
  plain (snd pr) = true /\ In c_apos (snd pr).
Proof.
  unfold pattern_frame. rewrite !andb_true_iff.
  intros [[[H1 H2] H3] H4]. auto using mem_true_in.
Qed.

Lemma apostrophes_content_close c :
  contains close_string (apostrophes_content c) = contains close_string c.
Proof.
  unfold apostrophes_content.
  pose proof apostrophe_patterns_frame as Hp. rewrite forallb_forall in Hp.
  revert c. induction apostrophe_patterns as [|pr L IH]; intros c; [reflexivity|].
  cbn [fold_left]. rewrite IH by (intros x Hx; apply Hp; right; exact Hx).
  destruct (pattern_frame_facts pr) as (H1 & H2 & H3 & H4);
    [apply Hp; left; reflexivity|].
  apply contains_close_re_sub_ci; assumption.
Qed.

Lemma apostrophes_content_close_free c :
  contains close_string c = false ->
  contains close_string (apostrophes_content c) = false.
Proof. rewrite apostrophes_content_close. auto. Qed.

(** The apostrophe pass changes nothing in its own output. *)
Lemma fix_apostrophes_idempotent text :
  fix_apostrophes (fix_apostrophes text) = fix_apostrophes text.
Proof.
  change (sub_entries apostrophes_content (sub_entries apostrophes_content text)
          = sub_entries apostrophes_content text).
  rewrite sub_entries_fuse by apply apostrophes_content_close_free.
  apply sub_entries_ext, apostrophes_content_idempotent.
Qed.

(** ** The artifact and the passes before the cleanup *)

Lemma art_agree_refl t : art_agree t t.
Proof. repeat split. Qed.

Lemma art_agree_trans t1 t2 t3 :
  art_agree t1 t2 -> art_agree t2 t3 -> art_agree t1 t3.
Proof. intros (A1 & A2 & A3) (B1 & B2 & B3). repeat split; congruence. Qed.

Lemma art_agree_cons c t t' : art_agree t t' -> art_agree (c :: t) (c :: t').
Proof.
  intros (A1 & A2 & A3). unfold art_agree, artifact, c_gt in *.
  split; [|split].
  - rewrite !prefix_of_cons. reflexivity.
  - rewrite !prefix_of_cons. f_equal. exact A1.
  - cbn [contains]. rewrite !prefix_of_cons.
    f_equal; [f_equal; exact A2|exact A3].
Qed.

Lemma art_agree_app u t t' : art_agree t t' -> art_agree (u ++ t) (u ++ t').
Proof. intros H. induction u as [|c u IH]; [exact H|]. apply art_agree_cons, IH. Qed.

(** A stretch without quote and [>] neither ends nor holds an artifact. *)
Lemma art_agree_plain w w' t t' :
  w <> [] -> w' <> [] ->
  ~ In c_quote w -> ~ In c_gt w -> ~ In c_quote w' -> ~ In c_gt w' ->
  art_agree t t' -> art_agree (w ++ t) (w' ++ t').
Proof.
  intros Hw Hw' Q1 G1 Q2 G2 (A1 & A2 & A3).
  destruct w as [|x w]; [congruence|]. destruct w' as [|x' w']; [congruence|].
  unfold art_agree, artifact in *.
  rewrite !contains_skip by assumption.
  cbn [app]. rewrite !prefix_of_cons.
  assert (E1 : (c_gt =? x) = false)
    by (apply N.eqb_neq; intros E; apply G1; left; auto).
  assert (E2 : (c_gt =? x') = false)
    by (apply N.eqb_neq; intros E; apply G2; left; auto).
  rewrite E1, E2. auto.
Qed.

Lemma art_agree_str_replace old new t t' :
  old <> [] -> new <> [] -> plain old = true -> plain new = true ->
  art_agree t t' ->
  forall c, art_agree (str_replace old new c ++ t) (c ++ t').
Proof.
  intros Ho Hn Po Pn H.
  apply (str_replace_ind (old := old)
           (fun c => art_agree (str_replace old new c ++ t) (c ++ t')));
    [assumption| | |].
  - exact H.
  - intros c s E IH. rewrite str_replace_miss by assumption.
    apply art_agree_cons, IH.
  - intros r IH. rewrite str_replace_hit by assumption. rewrite <- !app_assoc.
    apply art_agree_plain; auto; apply plain_notin; auto; simpl; tauto.
Qed.

Lemma art_agree_re_sub_ci pat repl t t' :
  forallb pattern_char pat = true -> In c_apos pat ->
  plain repl = true -> In c_apos repl ->
  art_agree t t' ->
  forall c, art_agree (re_sub_ci pat repl c ++ t) (c ++ t').
Proof.
  intros Hc Ha Pr Ra H c. remember (length c) as n eqn:Hn. revert c Hn.
  induction n as [n IH] using lt_wf_ind. intros c Hn.
  assert (Hne : pat <> []) by (intros E; rewrite E in Ha; exact Ha).
  destruct c as [|x c]; [exact H|].
  destruct (prefix_ci pat (x :: c)) eqn:E.
  - rewrite re_sub_ci_hit by assumption.
    rewrite <- (firstn_skipn (length pat) (x :: c)) at 2.
    rewrite <- !app_assoc.
    destruct (prefix_ci_matched _ _ E) as (Hl & _ & _).
    apply art_agree_plain.
    + intros E'. rewrite E' in Ra. exact Ra.
    + intros E'. rewrite E' in Hl. destruct pat; [congruence|discriminate].
    + apply plain_notin; auto. simpl; tauto.
    + apply plain_notin; auto. simpl; tauto.
    + apply matched_plain; auto. simpl; tauto.
    + apply matched_plain; auto. simpl; tauto.
    + apply (IH (length (skipn (length pat) (x :: c)))); auto.
      rewrite length_skipn. subst n. destruct pat; [congruence|]. simpl. lia.
  - rewrite re_sub_ci_miss by assumption. apply art_agree_cons.
    apply (IH (length c)); auto. subst n. simpl. lia.
Qed.

Lemma art_agree_brand_content t t' c :
  art_agree t t' -> art_agree (brand_content c ++ t) (c ++ t').
Proof.
  intros H. unfold brand_content. cbv zeta.
  assert (H1 : art_agree (str_replace Firefox Waterfox c ++ t) (c ++ t'))
    by (apply art_agree_str_replace; auto; discriminate).
  destruct (negb (contains Mozilla_Account (str_replace Firefox Waterfox c))); auto.
  apply art_agree_trans with (str_replace Firefox Waterfox c ++ t); auto.
  apply art_agree_str_replace; auto using art_agree_refl; discriminate.
Qed.

Lemma art_agree_apostrophes_content t t' c :
  art_agree t t' -> art_agree (apostrophes_content c ++ t) (c ++ t').
Proof.
  intros H. unfold apostrophes_content.
  pose proof apostrophe_patterns_frame as Hp. rewrite forallb_forall in Hp.
  revert c. induction apostrophe_patterns as [|pr L IH]; intros c.
  - apply art_agree_app, H.
  - cbn [fold_left].
    apply art_agree_trans with (re_sub_ci (fst pr) (snd pr) c ++ t').
    + apply IH. intros x Hx. apply Hp. right. exact Hx.
    + destruct (pattern_frame_facts pr) as (H1 & H2 & H3 & H4);
        [apply Hp; left; reflexivity|].
      apply art_agree_re_sub_ci; auto using art_agree_refl.
Qed.

Lemma art_agree_sub_entries f :
  (forall c t t', art_agree t t' -> art_agree (f c ++ t) (c ++ t')) ->
  forall text, art_agree (sub_entries f text) text.
Proof.
  intros Hf. apply entries_ind.
  - apply art_agree_refl.
  - intros c s E IH. rewrite sub_entries_copy by assumption.
    apply art_agree_cons, IH.
  - intros e r He IH. rewrite sub_entries_entry by assumption.
    unfold on_content, entry_text. rewrite <- !app_assoc.
    apply art_agree_app, Hf, art_agree_app, IH.
Qed.

Lemma contains_artifact_brand text :
  contains artifact (replace_brand_names text) = contains artifact text.
Proof.
  apply (art_agree_sub_entries brand_content).
  intros c t t'. apply art_agree_brand_content.
Qed.

Lemma contains_artifact_apostrophes text :
  contains artifact (fix_apostrophes text) = contains artifact text.
Proof.
  apply (art_agree_sub_entries apostrophes_content).
  intros c t t'. apply art_agree_apostrophes_content.
Qed.

Lemma clean_artifacts_absent text :
  contains artifact text = false -> clean_artifacts text = text.
Proof.
  intros H. apply str_replace_absent.
  rewrite contains_occurrences in H.
  destruct (occurrences artifact text) eqn:E; [exact E|discriminate].
Qed.

(** ** Running the pipeline again *)

Lemma replace_brand_names_no_percent text :
  ~ In c_percent text -> ~ In c_percent (replace_brand_names text).
Proof.
  apply (sub_entries_notin brand_content). intros c.
  apply brand_content_notin. simpl. tauto.
Qed.

Lemma fix_apostrophes_no_percent text :
  ~ In c_percent text -> ~ In c_percent (fix_apostrophes text).
Proof.
  apply (sub_entries_notin apostrophes_content). intros c.
  apply apostrophes_content_notin. simpl. tauto.
Qed.

(** The output of a run on a text without [%] and without the artifact:
    the format pass and the cleanup have nothing to do. *)
Lemma transform_brand_apostrophes text :
  ~ In c_percent text -> contains artifact text = false ->
  transform text = fix_apostrophes (replace_brand_names text).
Proof.
  intros Hp Ha. unfold transform.
  rewrite fix_format_no_percent by apply replace_brand_names_no_percent, Hp.
  apply clean_artifacts_absent.
  rewrite contains_artifact_apostrophes, contains_artifact_brand. exact Ha.
Qed.

(** A second run on a text without [%] and without the artifact: the
    format pass and the cleanup are idle in both runs, and the apostrophe
    pass of the second run repeats that of the first. *)
Lemma transform_twice text :
  ~ In c_percent text ->
  contains artifact text = false ->
  replace_brand_names (fix_apostrophes (replace_brand_names text))
    = fix_apostrophes (replace_brand_names text) ->
  transform (transform text) = transform text.
Proof.
  intros Hp Ha Hb.
  rewrite (transform_brand_apostrophes text Hp Ha).
  set (y := fix_apostrophes (replace_brand_names text)) in *.
  assert (Hpy : ~ In c_percent y)
    by apply fix_apostrophes_no_percent, replace_brand_names_no_percent, Hp.
  assert (Hay : contains artifact y = false).
  { unfold y. rewrite contains_artifact_apostrophes, contains_artifact_brand. exact Ha. }
  rewrite (transform_brand_apostrophes y Hpy Hay), Hb.
  apply fix_apostrophes_idempotent.
Qed.

(** Without apostrophes the apostrophe pass is idle, and the condition on
    the first run holds. *)
Lemma apostrophes_content_no_apostrophe c :
  ~ In c_apos c -> apostrophes_content c = c.
Proof.
  intros Hc. unfold apostrophes_content. apply fold_left_fixed. intros pr Hin.
  apply re_sub_ci_idle. intros a b Hab.
  destruct (prefix_ci (fst pr) b) eqn:E; [exfalso|reflexivity].
  pose proof apostrophe_patterns_frame as Hp. rewrite forallb_forall in Hp.
  destruct (pattern_frame_facts pr (Hp _ Hin)) as (_ & Ha & _).
  destruct (prefix_ci_matched _ _ E) as (_ & _ & Hm).
  apply Hc. rewrite Hab. apply in_or_app. right.
  rewrite <- (firstn_skipn (length (fst pr)) b). apply in_or_app. left. auto.
Qed.

Lemma sub_entries_idle f ch :
  (forall c, ~ In ch c -> f c = c) ->
  forall text, ~ In ch text -> sub_entries f text = text.
Proof.
  intros Hf. apply (entries_ind (fun text => ~ In ch text -> sub_entries f text = text)).
  - reflexivity.
  - intros c s E IH H. rewrite sub_entries_copy by assumption. f_equal.
    apply IH. intros Hin. apply H. right. exact Hin.
  - intros e r He IH H. rewrite sub_entries_entry by assumption.
    unfold on_content, entry_text in *. rewrite Hf, IH.
    + rewrite <- !app_assoc. reflexivity.
    + intros Hin. apply H, in_or_app. auto.
    + intros Hin. apply H. apply in_or_app. left.
      apply in_or_app. right. apply in_or_app. left. exact Hin.
Qed.

Lemma replace_brand_names_no_apostrophe text :
  ~ In c_apos text -> ~ In c_apos (replace_brand_names text).
Proof.
  apply (sub_entries_notin brand_content). intros c Hc.
  unfold brand_content. cbv zeta.
  assert (H1 : ~ In c_apos (str_replace Firefox Waterfox c)).
  { apply str_replace_notin; auto. apply mem_false_notin. reflexivity. }
  destruct (negb (contains Mozilla_Account (str_replace Firefox Waterfox c))); auto.
  apply str_replace_notin; auto. apply mem_false_notin. reflexivity.
Qed.

(** X21.  On a text without [%], without apostrophe and without the
    artifact, a second run of the pipeline changes nothing: the brand
    names the first run has put in are not replaced again. *)
Lemma transform_idempotent_no_apostrophe text :
  ~ In c_percent text -> ~ In c_apos text -> contains artifact text = false ->
  transform (transform text) = transform text.
Proof.
  intros Hp Hq Ha. apply transform_twice; auto.
  assert (E : fix_apostrophes (replace_brand_names text) = replace_brand_names text).
  { apply (sub_entries_idle apostrophes_content c_apos).
    - apply apostrophes_content_no_apostrophe.
    - apply replace_brand_names_no_apostrophe, Hq. }
  rewrite E. apply replace_brand_names_idempotent.
Qed.

Lemma transform_idempotent_no_apostrophe_witness :
  transform (transform (string_entry (lit "a") (lit "Firefox and Mozilla")))
  = transform (string_entry (lit "a") (lit "Firefox and Mozilla")).
Proof.
  apply transform_idempotent_no_apostrophe.
  - apply mem_false_notin. vm_compute. reflexivity.
  - apply mem_false_notin. vm_compute. reflexivity.
  - vm_compute. reflexivity.
Defined.

(** * Further properties of the passes *)

(** ** Running one pass again *)

(** X1.  The brand pass changes nothing on its own output: what it has
    replaced, and what it has protected, stays as it is. *)
Theorem brand_pass_twice (text : pystr) :
  replace_brand_names (replace_brand_names text) = replace_brand_names text.
Proof. apply replace_brand_names_idempotent. Qed.

(** X2.  The apostrophe pass changes nothing on its own output: an
    apostrophe it has escaped is not escaped again. *)
Theorem apostrophe_pass_twice (text : pystr) :
  fix_apostrophes (fix_apostrophes text) = fix_apostrophes text.
Proof. apply fix_apostrophes_idempotent. Qed.

(** ** Texts without a complete entry *)

Lemma contains_prefix_true p s : prefix_of p s = true -> contains p s = true.
Proof. destruct s; simpl; intros ->; reflexivity. Qed.

Lemma contains_suffix_true p a b : contains p b = true -> contains p (a ++ b) = true.
Proof.
  intros H. destruct (contains p (a ++ b)) eqn:E; [reflexivity|].
  apply contains_suffix_false in E. congruence.
Qed.

(** A match of the entry pattern begins with [<string] and holds a
    [</string>]. *)
Lemma match_entry_tags s e len :
  match_entry s = Some (e, len) ->
  contains open_string s = true /\ contains close_string s = true.
Proof.
  intros H. destruct (match_entry_spec _ H) as ([(attrs & Ho & _) Hc _] & _ & r & ->).
  unfold entry_text. rewrite Ho, Hc. split.
  - apply contains_prefix_true. rewrite <- !app_assoc. apply prefix_of_app.
  - replace ((((open_string ++ attrs ++ [c_gt]) ++ string_content e ++ close_string)) ++ r)
      with ((open_string ++ attrs ++ [c_gt]) ++ string_content e ++ close_string ++ r)
      by (rewrite <- !app_assoc; reflexivity).
    apply contains_occ2.
Qed.

(** So does a match of the format pattern. *)
Lemma match_format_tags s g len :
  match_format s = Some (g, len) ->
  contains open_string s = true /\ contains close_string s = true.
Proof.
  intros H. destruct (match_format_spec _ H) as ([(attrs & Ho & _) _ Hc] & _ & r & ->).
  unfold format_text. rewrite Ho, Hc. split.
  - apply contains_prefix_true.
    change tracker_open with (open_string ++ skipn (length open_string) tracker_open).
    rewrite <- !app_assoc. apply prefix_of_app.
  - replace (((tracker_open ++ attrs ++ [c_gt]) ++ pct_s ++ fmt_middle g ++ pct_d ++ close_string) ++ r)
      with ((tracker_open ++ attrs ++ [c_gt]) ++ (pct_s ++ fmt_middle g ++ pct_d) ++ close_string ++ r)
      by (rewrite <- !app_assoc; reflexivity).
    apply contains_occ2.
Qed.

Lemma scan_sub_no_tags (G : Type) (m : pystr -> option (G * nat)) repl text :
  (forall s g len, m s = Some (g, len) ->
     contains open_string s = true /\ contains close_string s = true) ->
  contains open_string text = false \/ contains close_string text = false ->
  scan_sub m repl text = text.
Proof.
  intros Hm Ht. apply scan_sub_idle. intros a b ->.
  destruct (m b) as [[g len]|] eqn:E; [exfalso|reflexivity].
  destruct (Hm _ _ _ E) as [Ho Hc].
  apply (contains_suffix_true _ a) in Ho. apply (contains_suffix_true _ a) in Hc.
  destruct Ht; congruence.
Qed.

(** X3.  A text in which [<string] does not occur, or in which
    [</string>] does not occur, holds no entry: the three scanning passes
    return it as it is.  An entry that is opened and never closed is not
    rewritten. *)
Theorem passes_need_an_entry (text : pystr) :
  contains open_string text = false \/ contains close_string text = false ->
  replace_brand_names text = text /\
  fix_format_specifiers text = text /\
  fix_apostrophes text = text.
Proof.
  intros H. split; [|split].
  - apply scan_sub_no_tags; [apply match_entry_tags|exact H].
  - apply scan_sub_no_tags; [apply match_format_tags|exact H].
  - apply scan_sub_no_tags; [apply match_entry_tags|exact H].
Qed.

Lemma passes_need_an_entry_witness :
  replace_brand_names (lit "<string>Firefox isn't Mozilla") = lit "<string>Firefox isn't Mozilla" /\
  fix_format_specifiers (lit "<string>Firefox isn't Mozilla") = lit "<string>Firefox isn't Mozilla" /\
  fix_apostrophes (lit "<string>Firefox isn't Mozilla") = lit "<string>Firefox isn't Mozilla".
Proof.
  apply passes_need_an_entry. right. vm_compute. reflexivity.
Defined.

(** ** Texts the format pass leaves alone *)

Lemma count_occ_suffix (c : char) (a b : pystr) :
  (count_occ N.eq_dec b c <= count_occ N.eq_dec (a ++ b) c)%nat.
Proof. rewrite count_occ_app. apply Nat.le_add_l. Qed.

(** X5.  The format pass needs the opening tag of the tracker entry and
    two [%] characters: a text with fewer than two [%], or without that
    opening tag, is returned as it is. *)
Theorem format_pass_idle (text : pystr) :
  (count_occ N.eq_dec text c_percent < 2)%nat \/ contains tracker_open text = false ->
  fix_format_specifiers text = text.
Proof.
  intros [H|H]; [|apply fix_format_absent, H].
  apply scan_sub_idle. intros a b ->. apply match_format_few_percent.
  pose proof (count_occ_suffix c_percent a b). lia.
Qed.

Lemma format_pass_idle_witness :
  fix_format_specifiers (tracker_entry [] (lit "%s items"))
  = tracker_entry [] (lit "%s items").
Proof.
  apply format_pass_idle. left. vm_compute. apply le_n.
Defined.

(** ** The artifact and the three scanning passes *)

Lemma art_agree_replace_format g t t' :
  art_agree t t' ->
  art_agree (replace_format_specifiers g ++ t) (format_text g ++ t').
Proof.
  intros H. unfold replace_format_specifiers, format_text.
  rewrite <- !app_assoc. apply art_agree_app.
  apply (@art_agree_plain pct_1s pct_s); try discriminate;
    try (apply mem_false_notin; reflexivity).
  apply art_agree_app.
  apply (@art_agree_plain pct_2d pct_d); try discriminate;
    try (apply mem_false_notin; reflexivity).
  apply art_agree_app, H.
Qed.

Lemma match_format_ok : matcher_ok match_format.
Proof.
  apply m_text_ok with (text_of := format_text).
  intros s g len H. destruct (match_format_spec _ H) as (Hg & Hl & Hr).
  split; [apply format_text_not_nil, Hg|auto].
Qed.

Lemma art_agree_fix_format text : art_agree (fix_format_specifiers text) text.
Proof.
  revert text. apply (scan_ind match_format_ok).
  - apply art_agree_refl.
  - intros c s E IH. unfold fix_format_specifiers. rewrite scan_sub_copy by assumption.
    apply art_agree_cons, IH.
  - intros g a r E Ha IH.
    destruct (match_format_spec _ E) as (Hg & Hl & r' & Hr).
    destruct (app_same_length _ _ _ _ Hr Hl) as [-> _].
    rewrite fix_format_match by assumption.
    apply art_agree_replace_format, IH.
Qed.

(** X6.  None of the three scanning passes makes or removes an
    occurrence of the artifact: it is in the output of a pass
    exactly when it is in its input. *)
Theorem passes_keep_artifact (text : pystr) :
  contains artifact (replace_brand_names text) = contains artifact text /\
  contains artifact (fix_format_specifiers text) = contains artifact text /\
  contains artifact (fix_apostrophes text) = contains artifact text.
Proof.
  split; [apply contains_artifact_brand|]. split; [|apply contains_artifact_apostrophes].
  apply art_agree_fix_format.
Qed.

(** X7.  The cleanup has work to do only when the file that was read
    holds the artifact: on any other text, what is written back is the
    output of the three scanning passes. *)
Theorem cleanup_only_for_input_artifacts (text : pystr) :
  contains artifact text = false ->
  transform text
  = fix_apostrophes (fix_format_specifiers (replace_brand_names text)).
Proof.
  intros H. unfold transform. apply clean_artifacts_absent.
  rewrite contains_artifact_apostrophes.
  rewrite (proj2 (proj2 (art_agree_fix_format _))).
  rewrite contains_artifact_brand. exact H.
Qed.

Lemma cleanup_only_for_input_artifacts_witness :
  transform (tracker_entry [] (lit "%s: %d Firefox isn't"))
  = fix_apostrophes (fix_format_specifiers (replace_brand_names
      (tracker_entry [] (lit "%s: %d Firefox isn't")))).
Proof.
  apply cleanup_only_for_input_artifacts. vm_compute. reflexivity.
Defined.

(** ** What the cleanup leaves behind *)

Lemma prefix_of_clean q t :
  mem c_quote q = false ->
  prefix_of q (clean_artifacts t) = prefix_of q t.
Proof.
  intros Hq. apply (prefix_of_str_replace c_quote c_quote [c_gt; c_gt] [c_gt]); exact Hq.
Qed.

Lemma clean_artifacts_copy c s :
  prefix_of artifact (c :: s) = false ->
  clean_artifacts (c :: s) = c :: clean_artifacts s.
Proof. apply str_replace_miss. Qed.

Lemma clean_artifacts_hit r :
  clean_artifacts (artifact ++ r) = artifact_fixed ++ clean_artifacts r.
Proof. apply str_replace_hit. discriminate. Qed.

(** X8.  One run of the cleanup does not always finish the job: its
    output still holds the artifact exactly when the input holds the
    artifact followed by one more [>]. *)
Theorem cleanup_leftover (t : pystr) :
  contains artifact (clean_artifacts t) = contains (artifact ++ [c_gt]) t.
Proof.
  revert t.
  apply (@str_replace_ind artifact
           (fun t => contains artifact (clean_artifacts t)
                     = contains (artifact ++ [c_gt]) t)).
  - discriminate.
  - reflexivity.
  - intros c s E IH. rewrite clean_artifacts_copy by assumption.
    change (prefix_of artifact (c :: clean_artifacts s)
            || contains artifact (clean_artifacts s)
            = prefix_of (artifact ++ [c_gt]) (c :: s)
              || contains (artifact ++ [c_gt]) s).
    rewrite IH. f_equal.
    assert (E' : prefix_of (artifact ++ [c_gt]) (c :: s) = false).
    { destruct (prefix_of (artifact ++ [c_gt]) (c :: s)) eqn:F; [|reflexivity].
      apply prefix_of_app_l in F. congruence. }
    rewrite E', <- E. unfold artifact. rewrite !prefix_of_cons.
    f_equal. apply prefix_of_clean. reflexivity.
  - intros r IH. rewrite clean_artifacts_hit.
    change (prefix_of [c_gt] (clean_artifacts r)
            || contains artifact (clean_artifacts r)
            = prefix_of [c_gt] r || contains (artifact ++ [c_gt]) r).
    rewrite IH, prefix_of_clean by reflexivity. reflexivity.
Qed.

(** X9.  Each occurrence of the artifact costs the text exactly one
    character: the cleanup shortens a text by the number of occurrences
    of the artifact in it. *)
Theorem cleanup_length (t : pystr) :
  (length (clean_artifacts t) + occurrences artifact t = length t)%nat.
Proof.
  revert t.
  apply (@str_replace_ind artifact
           (fun t => (length (clean_artifacts t) + occurrences artifact t
                      = length t)%nat)).
  - discriminate.
  - reflexivity.
  - intros c s E IH. rewrite clean_artifacts_copy by assumption.
    change (occurrences artifact (c :: s))
      with ((if prefix_of artifact (c :: s) then 1 else 0)
            + occurrences artifact s)%nat.
    rewrite E. cbn [length]. lia.
  - intros r IH. rewrite clean_artifacts_hit.
    change (occurrences artifact (artifact ++ r))
      with (1 + occurrences (c_quote :: [c_gt; c_gt]) ([c_gt; c_gt] ++ r))%nat.
    rewrite (@occurrences_skip c_quote [c_gt; c_gt] [c_gt; c_gt] r) by reflexivity.
    change (c_quote :: [c_gt; c_gt]) with artifact.
    rewrite !length_app.
    change (length artifact_fixed) with 2%nat. change (length artifact) with 3%nat. lia.
Qed.

(** ** Files with nothing to fix *)

Lemma contains_prefix_part p : forall c b,
  contains p c = true -> contains p (c ++ b) = true.
Proof.
  induction c as [|x c IH]; intros b H.
  - simpl in H. rewrite orb_false_r in H. destruct p; [|discriminate].
    destruct b; reflexivity.
  - cbn [contains] in H. apply orb_true_iff in H. destruct H as [H|H].
    + apply contains_prefix_true. apply prefix_of_true_iff in H.
      destruct H as (r & ->). rewrite <- app_assoc. apply prefix_of_app.
    + change (contains p ((x :: c) ++ b))
        with (prefix_of p ((x :: c) ++ b) || contains p (c ++ b)).
      rewrite (IH b H). apply orb_true_r.
Qed.

Lemma contains_part_false p a c b :
  contains p (a ++ c ++ b) = false -> contains p c = false.
Proof.
  intros H. apply contains_suffix_false in H.
  destruct (contains p c) eqn:E; [|reflexivity].
  rewrite (contains_prefix_part p c b E) in H. discriminate.
Qed.

Lemma contains_false_occurrences p s :
  contains p s = false -> occurrences p s = 0%nat.
Proof.
  rewrite contains_occurrences. destruct (occurrences p s); [reflexivity|discriminate].
Qed.

(** A pass that has nothing to do on any part of a text returns the
    text. *)
Lemma sub_entries_fixed f text :
  (forall a c b, text = a ++ c ++ b -> f c = c) -> sub_entries f text = text.
Proof.
  revert text.
  apply (entries_ind (fun text =>
           (forall a c b, text = a ++ c ++ b -> f c = c) -> sub_entries f text = text)).
  - reflexivity.
  - intros x s E IH H. rewrite sub_entries_copy by assumption. f_equal.
    apply IH. intros a c b ->. apply (H (x :: a) c b). reflexivity.
  - intros e r He IH H. rewrite sub_entries_entry by assumption.
    unfold on_content, entry_text.
    rewrite (H (start_tag e) (string_content e) (end_tag e ++ r))
      by (unfold entry_text; rewrite <- !app_assoc; reflexivity).
    rewrite IH; [rewrite <- !app_assoc; reflexivity|].
    intros a c b ->. apply (H (entry_text e ++ a) c b).
    unfold entry_text. rewrite <- !app_assoc. reflexivity.
Qed.

Lemma brand_content_absent c :
  contains Firefox c = false -> contains Mozilla c = false -> brand_content c = c.
Proof.
  intros HF HM.
  assert (E : str_replace Firefox Waterfox c = c)
    by (apply str_replace_absent, contains_false_occurrences, HF).
  rewrite brand_content_cases, E.
  destruct (contains Mozilla_Account c); [reflexivity|].
  apply str_replace_absent, contains_false_occurrences, HM.
Qed.

(** X10.  A text in which neither [Firefox] nor [Mozilla] occurs comes
    out of the brand pass as it went in.  The names are matched with
    their capital letter only. *)
Theorem brand_pass_idle (text : pystr) :
  contains Firefox text = false -> contains Mozilla text = false ->
  replace_brand_names text = text.
Proof.
  intros HF HM. apply (sub_entries_fixed brand_content).
  intros a c b ->. apply brand_content_absent; eapply contains_part_false; eauto.
Qed.

Lemma brand_pass_idle_witness :
  replace_brand_names (string_entry (lit "a") (lit "firefox and MOZILLA"))
  = string_entry (lit "a") (lit "firefox and MOZILLA").
Proof. apply brand_pass_idle; vm_compute; reflexivity. Defined.

(** X11.  A text without an apostrophe comes out of the apostrophe pass
    as it went in. *)
Theorem apostrophe_pass_idle (text : pystr) :
  ~ In c_apos text -> fix_apostrophes text = text.
Proof.
  apply (sub_entries_idle apostrophes_content c_apos).
  apply apostrophes_content_no_apostrophe.
Qed.

Lemma apostrophe_pass_idle_witness :
  fix_apostrophes (string_entry (lit "a") (lit "ISNT it"))
  = string_entry (lit "a") (lit "ISNT it").
Proof.
  apply apostrophe_pass_idle. apply mem_false_notin. vm_compute. reflexivity.
Defined.

(** X12.  A file with nothing to fix is written back as it was read: no
    brand name, no apostrophe, no artifact, and no tracker entry to
    renumber. *)
Theorem transform_nothing_to_fix (text : pystr) :
  contains Firefox text = false ->
  contains Mozilla text = false ->
  (count_occ N.eq_dec text c_percent < 2)%nat \/ contains tracker_open text = false ->
  ~ In c_apos text ->
  contains artifact text = false ->
  transform text = text.
Proof.
  intros HF HM Hf Ha Hart. unfold transform.
  assert (E1 : replace_brand_names text = text).
  { apply (sub_entries_fixed brand_content).
    intros a c b ->. apply brand_content_absent; eapply contains_part_false; eauto. }
  assert (E2 : fix_format_specifiers text = text).
  { destruct Hf as [H|H]; [|apply fix_format_absent, H].
    apply scan_sub_idle. intros a b ->. apply match_format_few_percent.
    pose proof (count_occ_suffix c_percent a b). lia. }
  assert (E3 : fix_apostrophes text = text).
  { apply (sub_entries_idle apostrophes_content c_apos); [|exact Ha].
    apply apostrophes_content_no_apostrophe. }
  rewrite E1, E2, E3. apply clean_artifacts_absent, Hart.
Qed.

Lemma transform_nothing_to_fix_witness :
  transform (lit "<resources>" ++ string_entry (lit "a") (lit "100% ready")
             ++ lit "</resources>")
  = lit "<resources>" ++ string_entry (lit "a") (lit "100% ready")
    ++ lit "</resources>".
Proof.
  apply transform_nothing_to_fix.
  - vm_compute. reflexivity.
  - vm_compute. reflexivity.
  - left. vm_compute. apply le_n.
  - apply mem_false_notin. vm_compute. reflexivity.
  - vm_compute. reflexivity.
Defined.

(** ** What the brand pass guarantees about its output *)

(** X13.  In the output of the brand pass, no entry holds [Firefox], and
    an entry holds [Mozilla] only together with [Mozilla Account]. *)
Theorem brand_pass_output (text : pystr) :
  Forall (fun p => match p with
                   | inl _ => True
                   | inr e =>
                       occurrences Firefox (string_content e) = 0%nat /\
                       (contains Mozilla_Account (string_content e) = false ->
                        occurrences Mozilla (string_content e) = 0%nat)
                   end)
         (entry_parts (replace_brand_names text)).
Proof.
  change (replace_brand_names text) with (sub_entries brand_content text).
  rewrite entry_parts_sub_entries by apply brand_content_close_free.
  apply Forall_forall. intros p Hp. apply in_map_iff in Hp.
  destruct Hp as ([c|e] & <- & _); [exact I|].
  cbn [map_piece map_content string_content].
  rewrite (brand_content_cases (string_content e)).
  destruct (contains Mozilla_Account (string_content e)) eqn:E.
  - split; [apply firefox_removed|]. rewrite protected_after_firefox, E. discriminate.
  - split; [rewrite firefox_kept_by_mozilla; apply firefox_removed|].
    intros _. apply mozilla_removed.
Qed.

(** ** The tracker entry inside a file *)

Lemma match_format_before_tracker c pre t :
  prefix_of tracker_open (c :: pre) = false ->
  match_format ((c :: pre) ++ tracker_open ++ t) = None.
Proof.
  intros H. apply match_format_open. rewrite <- H.
  apply (@prefix_of_anchored c_lt (tl tracker_open)); [reflexivity|discriminate].
Qed.

(** X4.  Wherever the tracker entry stands in a file, with any
    attributes after its name and any text without [%] between [%s] and
    [%d], the format pass numbers the two specifiers and keeps the tag,
    the text between them and the text before the entry as they are; the
    scan goes on after the entry. *)
Theorem format_pass_on_tracker_entry (pre attrs middle r : pystr) :
  contains tracker_open pre = false ->
  ~ In c_gt attrs -> ~ In c_percent middle ->
  fix_format_specifiers (pre ++ tracker_entry attrs (pct_s ++ middle ++ pct_d) ++ r)
  = pre ++ tracker_entry attrs (pct_1s ++ middle ++ pct_2d) ++ fix_format_specifiers r.
Proof.
  intros Hpre Ha Hm. induction pre as [|c pre IH].
  - apply fix_format_tracker_entry; assumption.
  - cbn [contains] in Hpre. apply orb_false_iff in Hpre. destruct Hpre as [H1 H2].
    change ((c :: pre) ++ tracker_entry attrs (pct_s ++ middle ++ pct_d) ++ r)
      with (c :: (pre ++ tracker_entry attrs (pct_s ++ middle ++ pct_d) ++ r)).
    unfold fix_format_specifiers at 1. rewrite scan_sub_copy.
    + change (scan_sub match_format replace_format_specifiers) with fix_format_specifiers.
      rewrite IH by assumption. reflexivity.
    + unfold tracker_entry. rewrite <- !app_assoc.
      apply (match_format_before_tracker c pre _ H1).
Qed.

Lemma format_pass_on_tracker_entry_witness :
  fix_format_specifiers
    (lit "<resources>" ++ tracker_entry (lit " translatable=no") (pct_s ++ lit " : " ++ pct_d)
     ++ lit "</resources>")
  = lit "<resources>" ++ tracker_entry (lit " translatable=no") (pct_1s ++ lit " : " ++ pct_2d)
    ++ fix_format_specifiers (lit "</resources>").
Proof.
  apply format_pass_on_tracker_entry.
  - vm_compute. reflexivity.
  - apply mem_false_notin. vm_compute. reflexivity.
  - apply mem_false_notin. vm_compute. reflexivity.
Defined.

(** ** The entry pattern *)

(** X14.  The entry pattern matches at a position exactly when the text
    there is [<string], a run without [>], a [>], a content in which
    [</string>] does not occur, and [</string>]: the tag ends at the
    first [>], the content at the first closing tag, and the three groups
    are determined by the text. *)
Theorem entry_pattern_matches (s : pystr) (e : entry) (len : nat) :
  match_entry s = Some (e, len) <->
  is_entry e /\ len = length (entry_text e) /\ exists r, s = entry_text e ++ r.
Proof.
  split; [apply match_entry_spec|].
  intros (He & -> & r & ->). apply match_entry_complete, He.
Qed.

(** X15.  The brand pass and the apostrophe pass take a file entry by
    entry: an entry at the head of a text is rewritten from its own
    content alone, and the rest of the text is scanned as a text of its
    own.  What one entry holds does not protect or expose another. *)
Theorem passes_work_entry_by_entry (e : entry) (r : pystr) :
  is_entry e ->
  replace_brand_names (entry_text e ++ r)
  = start_tag e ++ brand_content (string_content e) ++ end_tag e
    ++ replace_brand_names r /\
  fix_apostrophes (entry_text e ++ r)
  = start_tag e ++ apostrophes_content (string_content e) ++ end_tag e
    ++ fix_apostrophes r.
Proof.
  intros He. split.
  - change (replace_brand_names (entry_text e ++ r))
      with (sub_entries brand_content (entry_text e ++ r)).
    rewrite sub_entries_entry by assumption.
    unfold on_content. rewrite <- !app_assoc. reflexivity.
  - change (fix_apostrophes (entry_text e ++ r))
      with (sub_entries apostrophes_content (entry_text e ++ r)).
    rewrite sub_entries_entry by assumption.
    unfold on_content. rewrite <- !app_assoc. reflexivity.
Qed.

Lemma passes_work_entry_by_entry_witness :
  let e := Entry (open_string ++ [c_gt]) (lit "Mozilla Account isn't Mozilla") close_string in
  let r := string_entry (lit "b") (lit "Mozilla") in
  replace_brand_names (entry_text e ++ r)
  = start_tag e ++ brand_content (string_content e) ++ end_tag e
    ++ replace_brand_names r /\
  fix_apostrophes (entry_text e ++ r)
  = start_tag e ++ apostrophes_content (string_content e) ++ end_tag e
    ++ fix_apostrophes r.
Proof.
  apply passes_work_entry_by_entry. constructor.
  - exists []. split; [reflexivity|]. intros [].
  - reflexivity.
  - vm_compute. reflexivity.
Defined.

(** ** One file, the run and [main] *)

Module ScriptFacts.
Section Facts.
Variable W : Type.
Variable glob_strings : W -> list pystr.
Variable read_text : W -> pystr -> result pystr.
Variable write_text : W -> pystr -> pystr -> result unit * W.
Variable print_error : W -> list pystr -> pystr -> option exn.

(** X16.  [process_file] returns [True] exactly when the file was read
    and the rewritten text was written; then it prints nothing.  When
    reading or writing raises, it prints one line with the path and the
    message of the exception and returns [False]; the only exception that
    escapes it is one raised by that [print].  A file that could not be
    read is not written. *)
Theorem process_file_outcome (path : pystr) (st : IO.state W) :
  exists r st',
    IO.process_file read_text write_text print_error path st = (r, st') /\
    (r = Return true <->
     exists content,
       read_text (IO.world st) path = Return content /\
       fst (write_text (IO.world st) path (transform content)) = Return tt) /\
    (r = Return true -> IO.console st' = IO.console st) /\
    (r = Return false ->
     exists e,
       fst (Run.file_outcome read_text write_text (IO.world st) path) = Some e /\
       IO.console st' = IO.console st ++ [Run.error_line path e]) /\
    (forall e', r = Raised e' ->
     exists e,
       fst (Run.file_outcome read_text write_text (IO.world st) path) = Some e /\
       print_error (IO.world st') (IO.console st) (Run.error_line path e) = Some e' /\
       IO.console st' = IO.console st) /\
    (forall e, read_text (IO.world st) path = Raised e -> IO.world st' = IO.world st).
Proof.
  destruct st as [w out].
  unfold IO.process_file, IO.try_except, IO.bind, IO.open_read, IO.open_write,
    IO.print, IO.ret, Run.file_outcome, Run.error_line. cbn [IO.world IO.console].
  destruct (read_text w path) as [content|e].
  - destruct (write_text w path (transform content)) as [[[]|e] w'] eqn:Ew.
    + eexists _, _. split; [reflexivity|]. cbn.
      repeat split; try discriminate; eauto.
      intros _. exists content. rewrite Ew. auto.
    + cbn [fst snd IO.world IO.console].
      destruct (print_error w' out
                  (lit "Error processing " ++ path ++ lit ": " ++ exn_message e))
        as [e'|] eqn:Ep.
      * eexists _, _. split; [reflexivity|]. cbn.
        repeat split; try discriminate.
        -- intros (c & Hc & Hw). injection Hc as <-. rewrite Ew in Hw. discriminate.
        -- intros e'' H. injection H as <-. exists e. auto.
      * eexists _, _. split; [reflexivity|]. cbn.
        repeat split; try discriminate.
        -- intros (c & Hc & Hw). injection Hc as <-. rewrite Ew in Hw. discriminate.
        -- intros _. exists e. auto.
  - cbn [fst snd IO.world IO.console].
    destruct (print_error w out
                (lit "Error processing " ++ path ++ lit ": " ++ exn_message e))
      as [e'|] eqn:Ep.
    + eexists _, _. split; [reflexivity|]. cbn.
      repeat split; try discriminate.
      * intros (c & Hc & _). discriminate.
      * intros e'' H. injection H as <-. exists e. auto.
    + eexists _, _. split; [reflexivity|]. cbn.
      repeat split; try discriminate.
      * intros (c & Hc & _). discriminate.
      * intros _. exists e. auto.
Qed.

(** X17.  When the standard output accepts its lines, [main] returns
    normally: it prints its eight opening lines before any file is
    touched, then what the run prints, then its five closing lines,
    whatever became of the files; the file system it leaves is the one
    the run leaves. *)
Theorem main_run (st : IO.state W) :
  let run :=
    Run.run_files read_text write_text (glob_strings (IO.world st)) (IO.world st) in
  Run.accepted print_error (Run.banner ++ Run.run_lines (fst run) ++ Run.closing) ->
  IO.main glob_strings read_text write_text print_error st
  = (Return tt,
     IO.State (snd run)
       (IO.console st ++ Run.banner ++ Run.run_lines (fst run) ++ Run.closing)).
Proof.
  cbv zeta. intros H.
  apply RunFacts.accepted_app in H. destruct H as [Hb H].
  apply RunFacts.accepted_app in H. destruct H as [Hr Hc].
  pose proof (RunFacts.process_string_files_lines glob_strings read_text write_text
    (IO.State (IO.world st) (IO.console st ++ Run.banner)) Hr) as Hrun.
  cbn [IO.world IO.console] in Hrun.
  destruct (Run.run_files read_text write_text (glob_strings (IO.world st)) (IO.world st))
    as [os w'].
  cbn [fst snd] in *.
  unfold IO.main.
  do 8 (unfold IO.bind at 1;
        rewrite RunFacts.print_accepted
          by (apply Hb; unfold Run.banner; cbn [In]; tauto);
        cbn [IO.world IO.console]).
  unfold IO.bind at 1.
  match goal with
  | |- context [IO.State (IO.world st) ?c] =>
      replace c with (IO.console st ++ Run.banner)
        by (unfold Run.banner; rewrite <- !app_assoc; reflexivity)
  end.
  rewrite Hrun.
  do 4 (unfold IO.bind at 1;
        rewrite RunFacts.print_accepted
          by (apply Hc; unfold Run.closing; cbn [In]; tauto);
        cbn [IO.world IO.console]).
  rewrite RunFacts.print_accepted
    by (apply Hc; unfold Run.closing; cbn [In]; tauto).
  cbn [IO.world IO.console].
  unfold Run.closing. rewrite <- !app_assoc. reflexivity.
Qed.

(** X23.  A standard output that cannot encode the arrow of the third
    opening line stops [main] there: the exception of that [print]
    escapes, two lines are printed, and no file is looked for. *)
Theorem main_stops_at_the_arrow (st : IO.state W) (e : exn) :
  let l1 := lit "Starting comprehensive brand replacement..." in
  let l2 := lit "This script will:" in
  let l3 := lit "1. Replace Firefox " ++ [8594] ++ lit " Waterfox" in
  print_error (IO.world st) (IO.console st) l1 = None ->
  print_error (IO.world st) (IO.console st ++ [l1]) l2 = None ->
  print_error (IO.world st) ((IO.console st ++ [l1]) ++ [l2]) l3 = Some e ->
  IO.main glob_strings read_text write_text print_error st
  = (Raised e, IO.State (IO.world st) ((IO.console st ++ [l1]) ++ [l2])).
Proof.
  cbv zeta. intros H1 H2 H3. unfold IO.main.
  unfold IO.bind at 1. rewrite RunFacts.print_accepted by exact H1.
  cbn [IO.world IO.console].
  unfold IO.bind at 1. rewrite RunFacts.print_accepted by exact H2.
  cbn [IO.world IO.console].
  unfold IO.bind at 1. unfold IO.print at 1. cbn [IO.world IO.console].
  rewrite H3. reflexivity.
Qed.
End Facts.
End ScriptFacts.

(** ** A run over the files in memory *)

Module MemFSFacts.
Import MemFS.

Lemma has_path_iff path pf : has_path path pf = true <-> fst pf = path.
Proof.
  unfold has_path. destruct (list_eq_dec N.eq_dec (fst pf) path); split;
    auto; discriminate.
Qed.

Lemma has_path_false path pf : has_path path pf = false <-> fst pf <> path.
Proof.
  unfold has_path. destruct (list_eq_dec N.eq_dec (fst pf) path); split;
    auto; try discriminate. intros H. contradiction.
Qed.

(** A path names one file. *)
Lemma one_file_per_path : forall (w : fs) path f f',
  NoDup (map fst w) -> In (path, f) w -> In (path, f') w -> f = f'.
Proof.
  induction w as [|[q d] w IH]; intros path f f' Hn H H'; [contradiction|].
  cbn [map fst] in Hn. inversion Hn as [|? ? Hq Hn']. subst.
  destruct H as [H|H], H' as [H'|H'].
  - congruence.
  - injection H as -> ->. exfalso. apply Hq.
    apply (in_map fst) in H'. exact H'.
  - injection H' as -> ->. exfalso. apply Hq.
    apply (in_map fst) in H. exact H.
  - eapply IH; eauto.
Qed.

Lemma lookup_in : forall (w : fs) path f,
  NoDup (map fst w) -> In (path, f) w -> lookup path w = Some f.
Proof.
  unfold lookup. induction w as [|[q d] w IH]; intros path f Hn H; [contradiction|].
  cbn [find]. destruct (has_path path (q, d)) eqn:E.
  - apply has_path_iff in E. cbn [fst] in E. subst q. cbn [option_map snd].
    f_equal. eapply one_file_per_path; eauto. left. reflexivity.
  - apply has_path_false in E. cbn [fst] in E.
    destruct H as [H|H]; [congruence|].
    cbn [map fst] in Hn. inversion Hn. subst. apply IH; assumption.
Qed.

Lemma rewrite_file_path pf : fst (rewrite_file pf) = fst pf.
Proof. unfold rewrite_file. destruct (snd pf); reflexivity. Qed.

Lemma rewrite_one (w : fs) path f :
  NoDup (map fst w) -> In (path, f) w ->
  rewrite_files [path] w
  = map (fun pf => if has_path path pf then rewrite_file (path, f) else pf) w.
Proof.
  intros Hn H. unfold rewrite_files. apply map_ext_in. intros [q d] Hin.
  cbn [existsb]. rewrite orb_false_r.
  destruct (has_path path (q, d)) eqn:F; [|reflexivity].
  apply has_path_iff in F. cbn [fst] in F. subst q.
  f_equal. f_equal. eapply one_file_per_path; eauto.
Qed.

Lemma store_rewrite (w : fs) path c :
  NoDup (map fst w) -> In (path, Text c) w ->
  store path (Text (transform c)) w = rewrite_files [path] w.
Proof.
  intros Hn H. rewrite (@rewrite_one w path (Text c) Hn H). unfold store.
  assert (E : existsb (has_path path) w = true).
  { apply existsb_exists. exists (path, Text c). split; [exact H|].
    apply has_path_iff. reflexivity. }
  rewrite E. reflexivity.
Qed.

Lemma unreadable_rewrite (w : fs) path e :
  NoDup (map fst w) -> In (path, Unreadable e) w -> rewrite_files [path] w = w.
Proof.
  intros Hn H. rewrite (@rewrite_one w path (Unreadable e) Hn H).
  rewrite <- (map_id w) at 2. apply map_ext_in. intros [q d] Hin.
  destruct (has_path path (q, d)) eqn:F; [|reflexivity].
  apply has_path_iff in F. cbn [fst] in F. subst q.
  unfold rewrite_file. cbn [snd]. f_equal.
  eapply one_file_per_path; eauto.
Qed.

Lemma rewrite_files_paths files (w : fs) : map fst (rewrite_files files w) = map fst w.
Proof.
  unfold rewrite_files. rewrite map_map. apply map_ext. intros pf.
  destruct (existsb (fun q => has_path q pf) files);
    [apply rewrite_file_path|reflexivity].
Qed.

Lemma rewrite_files_cons path rest (w : fs) :
  ~ In path rest ->
  rewrite_files rest (rewrite_files [path] w) = rewrite_files (path :: rest) w.
Proof.
  intros Hp. unfold rewrite_files. rewrite map_map. apply map_ext. intros pf.
  cbn [existsb]. rewrite orb_false_r.
  destruct (has_path path pf) eqn:E; cbn [orb]; [|reflexivity].
  apply has_path_iff in E.
  assert (F : existsb (fun q => has_path q (rewrite_file pf)) rest = false).
  { destruct (existsb (fun q => has_path q (rewrite_file pf)) rest) eqn:F;
      [|reflexivity].
    apply existsb_exists in F. destruct F as (q & Hq & F).
    apply has_path_iff in F. rewrite rewrite_file_path in F.
    exfalso. apply Hp. congruence. }
  rewrite F. reflexivity.
Qed.

(** Rewriting files does not change which files can be opened. *)
Lemma outcome_rewrite_files files (w : fs) path :
  outcome (rewrite_files files w) path = outcome w path.
Proof.
  unfold outcome, lookup, rewrite_files.
  induction w as [|pf w IH]; [reflexivity|].
  cbn [map find].
  assert (E : forall g : bool,
             has_path path (if g then rewrite_file pf else pf) = has_path path pf).
  { intros []; [|reflexivity]. unfold has_path. rewrite rewrite_file_path. reflexivity. }
  rewrite E. destruct (has_path path pf); [|exact IH].
  cbn [option_map].
  destruct (existsb (fun q => has_path q pf) files); [|reflexivity].
  unfold rewrite_file. destruct pf as [q [c|e]]; reflexivity.
Qed.

Section Env.
Variable no_such_file : pystr -> exn.

(** Files that are there, each listed once: the texts are rewritten,
    each from what it held at the start, and the files that cannot be
    opened are left as they are. *)
Lemma run_files_mem : forall files (w : fs),
  NoDup (map fst w) -> NoDup files -> incl files (map fst w) ->
  Run.run_files (read_text no_such_file) write_text files w
  = (map (fun path => (path, outcome w path)) files, rewrite_files files w).
Proof.
  induction files as [|path rest IH]; intros w Hw Hf Hin.
  - cbn [Run.run_files map]. f_equal. unfold rewrite_files.
    symmetry. rewrite <- (map_id w) at 2. apply map_ext. reflexivity.
  - inversion Hf as [|? ? Hp Hrest]. subst.
    assert (Hpath : In path (map fst w)) by (apply Hin; left; reflexivity).
    apply in_map_iff in Hpath. destruct Hpath as ([q f] & Hq & Hc).
    cbn [fst] in Hq. subst q.
    assert (E1 : Run.file_outcome (read_text no_such_file) write_text w path
                 = (outcome w path, rewrite_files [path] w)).
    { unfold Run.file_outcome, read_text, write_text, outcome.
      rewrite (@lookup_in _ _ _ Hw Hc). destruct f as [c|e].
      - rewrite (@store_rewrite _ _ _ Hw Hc). reflexivity.
      - rewrite (@unreadable_rewrite _ _ _ Hw Hc). reflexivity. }
    cbn [Run.run_files]. rewrite E1, IH.
    + rewrite rewrite_files_cons by assumption. cbn [map]. f_equal. f_equal.
      apply map_ext. intros p. rewrite outcome_rewrite_files. reflexivity.
    + rewrite rewrite_files_paths. exact Hw.
    + exact Hrest.
    + rewrite rewrite_files_paths. intros x Hx. apply Hin. right. exact Hx.
Qed.

Lemma rewritten_glob (w : fs) : rewrite_files (glob_strings w) w = rewritten w.
Proof.
  unfold rewrite_files, rewritten, glob_strings. apply map_ext_in. intros pf Hpf.
  destruct (glob_match (fst pf)) eqn:E.
  - assert (F : existsb (fun q => has_path q pf) (filter glob_match (map fst w)) = true).
    { apply existsb_exists. exists (fst pf). split.
      - apply filter_In. split; [apply in_map, Hpf|exact E].
      - apply has_path_iff. reflexivity. }
    rewrite F. reflexivity.
  - destruct (existsb (fun q => has_path q pf) (filter glob_match (map fst w))) eqn:F;
      [|reflexivity].
    apply existsb_exists in F. destruct F as (q & Hq & F).
    apply filter_In in Hq. apply has_path_iff in F. destruct Hq as [_ Hq].
    congruence.
Qed.

Lemma run_files_glob (w : fs) :
  NoDup (map fst w) ->
  Run.run_files (read_text no_such_file) write_text (glob_strings w) w
  = (outcomes w, rewritten w).
Proof.
  intros Hw. rewrite run_files_mem.
  - rewrite rewritten_glob. reflexivity.
  - exact Hw.
  - apply NoDup_filter, Hw.
  - intros x Hx. apply filter_In in Hx. tauto.
Qed.

Variable print_error : fs -> list pystr -> pystr -> option exn.

(** X18.  On a file system in memory, with a standard output that
    accepts the lines of the run, a run rewrites every text file the
    pattern finds, each with the four-pass pipeline applied to what it
    held, and leaves every other file as it is; no file is added or
    removed; a file found that cannot be opened is reported with its
    exception and left as it is, and the summary counts the others. *)
Theorem run_rewrites_the_files_found (w : fs) (out : list pystr) :
  NoDup (map fst w) ->
  Run.accepted print_error (Run.run_lines (outcomes w)) ->
  IO.process_string_files glob_strings (read_text no_such_file)
    write_text print_error (IO.State w out)
  = (Return tt, IO.State (rewritten w) (out ++ Run.run_lines (outcomes w))).
Proof.
  intros Hw Hp.
  rewrite RunFacts.process_string_files_lines; cbn [IO.world IO.console];
    rewrite run_files_glob by exact Hw; [reflexivity|exact Hp].
Qed.
End Env.

Lemma run_rewrites_the_files_found_witness :
  let w := [ (values_dir ++ lit "-fr/strings.xml",
              Text (string_entry (lit "a") (lit "Firefox n'est pas Mozilla")));
             (values_dir ++ lit "-de/strings.xml",
              Unreadable (Exn (lit "'utf-8' codec can't decode byte 0xff in position 0: invalid start byte")));
             (values_dir ++ lit "/strings.xml",
              Text (string_entry (lit "a") (lit "Firefox isn't Mozilla")));
             (values_dir ++ lit "/colors.xml", Text (lit "Firefox")) ] in
  IO.process_string_files glob_strings (read_text (fun _ => Exn []))
    write_text (@strict_utf8 fs) (IO.State w [])
  = (Return tt, IO.State (rewritten w) ([] ++ Run.run_lines (outcomes w))).
Proof.
  cbv zeta. apply run_rewrites_the_files_found.
  - repeat constructor; cbn [In map fst]; intuition discriminate.
  - intros w out line Hin. vm_compute in Hin.
    repeat (destruct Hin as [<-|Hin]; [vm_compute; reflexivity|]).
    destruct Hin.
Defined.
End MemFSFacts.

(** ** The run on sample file systems *)

Lemma process_string_files_contained_witness :
  let w := [ (values_dir ++ lit "-de/strings.xml",
              MemFS.Unreadable (Exn (lit "[Errno 13] Permission denied")));
             (values_dir ++ lit "/strings.xml",
              MemFS.Text (string_entry (lit "a") (lit "Firefox isn't Mozilla"))) ] in
  let files := MemFS.glob_strings w in
  let run :=
    Run.run_files (MemFS.read_text (fun _ => Exn [])) MemFS.write_text files w in
  map fst (fst run) = files /\
  IO.process_string_files MemFS.glob_strings (MemFS.read_text (fun _ => Exn []))
    MemFS.write_text (@strict_utf8 MemFS.fs) (IO.State w [])
  = (Return tt,
     IO.State (snd run)
       ([] ++ match files with
              | [] => [lit "No strings.xml files found!"]
              | _ :: _ =>
                  [Run.found_line (length files)] ++ flat_map Run.report (fst run)
                  ++ [Run.summary_line (Run.successes (fst run)) (length files)]
              end)).
Proof.
  cbv zeta.
  apply (@RunFacts.process_string_files_contained MemFS.fs MemFS.glob_strings
           (MemFS.read_text (fun _ => Exn [])) MemFS.write_text (@strict_utf8 MemFS.fs)
           (IO.State _ [])).
  intros w out line Hin. vm_compute in Hin.
  repeat (destruct Hin as [<-|Hin]; [vm_compute; reflexivity|]).
  destruct Hin.
Defined.

(** C8, as stated, fails.  On a standard output that encodes strictly, a
    path with a surrogate (a directory name with a byte that is not
    UTF-8) makes the [print] of its [Processing:] line raise: the
    exception escapes the run, and neither that file nor the file after
    it is rewritten. *)
Lemma print_failure_escapes :
  let bad := values_dir ++ lit "-" ++ [56575] ++ strings_xml in
  let good := values_dir ++ strings_xml in
  let w := [ (bad, MemFS.Text (string_entry (lit "a") (lit "Firefox")));
             (good, MemFS.Text (string_entry (lit "a") (lit "Firefox"))) ] in
  MemFS.glob_strings w = [bad; good] /\
  IO.process_string_files MemFS.glob_strings (MemFS.read_text (fun _ => Exn []))
    MemFS.write_text (@strict_utf8 MemFS.fs) (IO.State w [])
  = (Raised (unicode_encode_error 57 [56575]), IO.State w [Run.found_line 2]) /\
  exn_message (unicode_encode_error 57 [56575])
  = lit "'utf-8' codec can't encode character '\udcff' in position 57: surrogates not allowed".
Proof. cbv zeta. repeat split; vm_compute; reflexivity. Qed.

Lemma main_run_witness :
  let w := [ (values_dir ++ lit "-de/strings.xml",
              MemFS.Unreadable (Exn (lit "[Errno 13] Permission denied")));
             (values_dir ++ lit "/strings.xml",
              MemFS.Text (string_entry (lit "a") (lit "Firefox isn't Mozilla"))) ] in
  let run :=
    Run.run_files (MemFS.read_text (fun _ => Exn [])) MemFS.write_text
      (MemFS.glob_strings w) w in
  IO.main MemFS.glob_strings (MemFS.read_text (fun _ => Exn [])) MemFS.write_text
    (@strict_utf8 MemFS.fs) (IO.State w [])
  = (Return tt,
     IO.State (snd run) ([] ++ Run.banner ++ Run.run_lines (fst run) ++ Run.closing)).
Proof.
  cbv zeta.
  apply (@ScriptFacts.main_run MemFS.fs MemFS.glob_strings
           (MemFS.read_text (fun _ => Exn [])) MemFS.write_text (@strict_utf8 MemFS.fs)
           (IO.State _ [])).
  intros w out line Hin. vm_compute in Hin.
  repeat (destruct Hin as [<-|Hin]; [vm_compute; reflexivity|]).
  destruct Hin.
Defined.

Lemma main_stops_at_the_arrow_witness :
  let ascii_error :=
    Exn (lit "'ascii' codec can't encode character '\u2192' in position 19: ordinal not in range(128)") in
  let ascii_only (_ : MemFS.fs) (_ : list pystr) (line : pystr) :=
    if existsb (fun c => 127 <? c) line then Some ascii_error else None in
  let w := [ (values_dir ++ lit "/strings.xml",
              MemFS.Text (string_entry (lit "a") (lit "Firefox"))) ] in
  IO.main MemFS.glob_strings (MemFS.read_text (fun _ => Exn [])) MemFS.write_text
    ascii_only (IO.State w [])
  = (Raised ascii_error,
     IO.State w (([] ++ [lit "Starting comprehensive brand replacement..."])
                 ++ [lit "This script will:"])).
Proof.
  cbv zeta.
  apply (@ScriptFacts.main_stops_at_the_arrow MemFS.fs MemFS.glob_strings
           (MemFS.read_text (fun _ => Exn [])) MemFS.write_text _ (IO.State _ []));
    vm_compute; reflexivity.
Defined.

(** ** What the apostrophe pass guarantees about its output *)

(** X19.  In the output of the apostrophe pass, no entry holds a listed
    form with a bare apostrophe, in any letter case: at no position of
    the content of an entry does a pattern of the list match. *)
Theorem apostrophe_pass_output (text : pystr) :
  Forall (fun p => match p with
                   | inl _ => True
                   | inr e =>
                       forall pr a b,
                         In pr apostrophe_patterns ->
                         string_content e = a ++ b ->
                         prefix_ci (fst pr) b = false
                   end)
         (entry_parts (fix_apostrophes text)).
Proof.
  change (fix_apostrophes text) with (sub_entries apostrophes_content text).
  rewrite entry_parts_sub_entries by apply apostrophes_content_close_free.
  apply Forall_forall. intros p Hp. apply in_map_iff in Hp.
  destruct Hp as ([c|e] & <- & _); [exact I|].
  cbn [map_piece map_content string_content].
  intros pr a b Hpr Hab. eapply apostrophes_content_no_form; eauto.
Qed.

(** ** Characters no pass adds or removes *)

Lemma count_char_app ch a b :
  count_char ch (a ++ b) = (count_char ch a + count_char ch b)%nat.
Proof. apply count_occ_app. Qed.

Lemma count_char_cons ch c s t :
  count_char ch s = count_char ch t -> count_char ch (c :: s) = count_char ch (c :: t).
Proof. unfold count_char. cbn [count_occ]. intros ->. reflexivity. Qed.

Lemma firstn_length_app (a r : pystr) : firstn (length a) (a ++ r) = a.
Proof. induction a as [|x a IH]; [reflexivity|]. cbn. rewrite IH. reflexivity. Qed.

(** A scan whose replacements hold a character as often as the matches
    they replace keeps the number of its occurrences. *)
Lemma count_scan_sub (G : Type) (m : pystr -> option (G * nat)) repl ch :
  matcher_ok m ->
  (forall g a r, m (a ++ r) = Some (g, length a) ->
     count_char ch (repl g) = count_char ch a) ->
  forall s, count_char ch (scan_sub m repl s) = count_char ch s.
Proof.
  intros Hok Hm.
  apply (@scan_ind _ m Hok
           (fun s => count_char ch (scan_sub m repl s) = count_char ch s)).
  - reflexivity.
  - intros c s E IH. rewrite scan_sub_copy by assumption.
    apply count_char_cons, IH.
  - intros g a r E Ha IH.
    rewrite (@scan_sub_match _ m repl (a ++ r) g a r E Ha eq_refl).
    rewrite !count_char_app, IH, (Hm _ _ _ E). reflexivity.
Qed.

Lemma count_str_replace old new ch :
  old <> [] -> count_char ch new = count_char ch old ->
  forall s, count_char ch (str_replace old new s) = count_char ch s.
Proof.
  intros Hne Hc. apply count_scan_sub; [apply match_literal_ok, Hne|].
  intros [] a r H. unfold match_literal in H.
  destruct (prefix_of old (a ++ r)) eqn:E; [|discriminate].
  injection H as Hl. apply prefix_of_true_iff in E. destruct E as (r' & E).
  destruct (app_same_length _ _ _ _ E (eq_sym Hl)) as [-> _]. exact Hc.
Qed.

Lemma match_literal_ci_ok pat : pat <> [] -> matcher_ok (match_literal_ci pat).
Proof.
  intros Hne s g len H. unfold match_literal_ci in H.
  destruct (prefix_ci pat s) eqn:E; [|discriminate]. injection H as _ <-.
  destruct (prefix_ci_matched _ _ E) as (Hl & _).
  exists (firstn (length pat) s), (skipn (length pat) s).
  split; [symmetry; apply firstn_skipn|]. split; [exact Hl|].
  intros E'. rewrite E' in Hl. destruct pat; [congruence|discriminate].
Qed.

Lemma count_re_sub_ci pat repl ch :
  pat <> [] ->
  (forall s, prefix_ci pat s = true ->
     count_char ch (firstn (length pat) s) = count_char ch repl) ->
  forall s, count_char ch (re_sub_ci pat repl s) = count_char ch s.
Proof.
  intros Hne Hm. apply count_scan_sub; [apply match_literal_ci_ok, Hne|].
  intros [] a r H. unfold match_literal_ci in H.
  destruct (prefix_ci pat (a ++ r)) eqn:E; [|discriminate].
  injection H as Hl. rewrite <- (Hm _ E), Hl, firstn_length_app. reflexivity.
Qed.

(** A match of a pattern of letters and apostrophes has its apostrophes
    where the pattern has them. *)
Lemma count_apos_matched : forall pat s,
  forallb pattern_char pat = true -> prefix_ci pat s = true ->
  count_char c_apos (firstn (length pat) s) = count_char c_apos pat.
Proof.
  induction pat as [|p pat IH]; intros s Hp H; [reflexivity|].
  destruct s as [|c s]; [discriminate|].
  cbn [forallb] in Hp. apply andb_true_iff in Hp. destruct Hp as [Hp1 Hp2].
  cbn [prefix_ci] in H. apply andb_true_iff in H. destruct H as [H1 H2].
  rewrite char_match_ci_casefold in H1 by assumption. apply N.eqb_eq in H1.
  cbn [length firstn]. unfold count_char in *. cbn [count_occ].
  rewrite (IH s Hp2 H2).
  destruct (N.eq_dec c c_apos) as [Ec|Ec], (N.eq_dec p c_apos) as [Ep|Ep];
    try reflexivity; exfalso.
  - apply Ep. apply casefold_apos. rewrite H1. apply casefold_apos. exact Ec.
  - apply Ec. apply casefold_apos. rewrite <- H1. apply casefold_apos. exact Ep.
Qed.

Lemma count_zero_notin ch (s : pystr) : ~ In ch s -> count_char ch s = 0%nat.
Proof. apply count_occ_not_In. Qed.

Lemma kept_chars_cases ch :
  In ch kept_chars -> In ch special_chars \/ ch = c_apos.
Proof. unfold kept_chars, special_chars. cbn [In]. intuition auto. Qed.

Lemma apostrophe_patterns_count :
  forallb (fun pr => Nat.eqb (count_char c_apos (snd pr)) (count_char c_apos (fst pr)))
          apostrophe_patterns = true.
Proof. vm_compute. reflexivity. Qed.

Lemma count_apostrophes_content ch c :
  In ch kept_chars -> count_char ch (apostrophes_content c) = count_char ch c.
Proof.
  intros Hch. unfold apostrophes_content.
  pose proof apostrophe_patterns_frame as Hf. rewrite forallb_forall in Hf.
  pose proof apostrophe_patterns_count as Hn. rewrite forallb_forall in Hn.
  revert c. induction apostrophe_patterns as [|pr L IH]; intros c; [reflexivity|].
  cbn [fold_left]. rewrite IH.
  - destruct (pattern_frame_facts pr (Hf pr (or_introl eq_refl))) as (Hc & Ha & Hp & Hr).
    apply count_re_sub_ci.
    + intros E. rewrite E in Ha. exact Ha.
    + intros s Hs. destruct (@kept_chars_cases _ Hch) as [Hsp| ->].
      * rewrite (@count_zero_notin _ _ (@matched_plain (fst pr) Hc s ch Hs Hsp)).
        symmetry. apply count_zero_notin, plain_notin; assumption.
      * rewrite count_apos_matched by assumption.
        symmetry. apply Nat.eqb_eq. apply (Hn pr). left. reflexivity.
  - intros x Hx. apply Hf. right. exact Hx.
  - intros x Hx. apply Hn. right. exact Hx.
Qed.

Lemma count_brand_content ch c :
  In ch kept_chars -> count_char ch (brand_content c) = count_char ch c.
Proof.
  intros Hch. unfold brand_content. cbv zeta.
  assert (E1 : count_char ch (str_replace Firefox Waterfox c) = count_char ch c).
  { apply count_str_replace; [discriminate|].
    unfold kept_chars in Hch. cbn [In] in Hch.
    destruct Hch as [<-|[<-|[<-|[<-|[<-|[]]]]]]; reflexivity. }
  destruct (negb (contains Mozilla_Account (str_replace Firefox Waterfox c)));
    [|exact E1].
  rewrite count_str_replace; [exact E1|discriminate|].
  unfold kept_chars in Hch. cbn [In] in Hch.
  destruct Hch as [<-|[<-|[<-|[<-|[<-|[]]]]]]; reflexivity.
Qed.

Lemma count_sub_entries f ch :
  (forall c, count_char ch (f c) = count_char ch c) ->
  forall text, count_char ch (sub_entries f text) = count_char ch text.
Proof.
  intros Hf. apply count_scan_sub; [apply match_entry_ok|].
  intros e a r H. destruct (match_entry_spec _ H) as (_ & Hl & r' & Hr).
  destruct (app_same_length _ _ _ _ Hr Hl) as [-> _].
  unfold on_content, entry_text. rewrite !count_char_app, Hf. reflexivity.
Qed.

Lemma count_fix_format ch text :
  In ch kept_chars ->
  count_char ch (fix_format_specifiers text) = count_char ch text.
Proof.
  intros Hch. apply count_scan_sub; [apply match_format_ok|].
  intros g a r H. destruct (match_format_spec _ H) as (_ & Hl & r' & Hr).
  destruct (app_same_length _ _ _ _ Hr Hl) as [-> _].
  unfold replace_format_specifiers, format_text. rewrite !count_char_app.
  unfold kept_chars in Hch. cbn [In] in Hch.
  destruct Hch as [<-|[<-|[<-|[<-|[<-|[]]]]]]; reflexivity.
Qed.

Lemma count_clean_artifacts ch text :
  In ch kept_chars ->
  count_char ch (clean_artifacts text) = count_char ch text.
Proof.
  intros Hch. apply count_str_replace; [discriminate|].
  unfold kept_chars in Hch. cbn [In] in Hch.
  destruct Hch as [<-|[<-|[<-|[<-|[<-|[]]]]]]; reflexivity.
Qed.

(** X20.  The pipeline never adds or removes a double quote, a [%], a
    [/], a [<] or an apostrophe: each of them occurs in what is written
    back as often as in what was read. *)
Theorem transform_keeps_structure (text : pystr) :
  Forall (fun ch => count_char ch (transform text) = count_char ch text) kept_chars.
Proof.
  apply Forall_forall. intros ch Hch. unfold transform.
  rewrite count_clean_artifacts by assumption.
  rewrite (count_sub_entries apostrophes_content)
    by (intros c; apply count_apostrophes_content, Hch).
  rewrite count_fix_format by assumption.
  apply (count_sub_entries brand_content).
  intros c. apply count_brand_content, Hch.
Qed.

(** ** Files without the tracker entry *)

(** An occurrence of a literal cannot run over a character the literal
    does not have. *)
Lemma contains_foreign_split (q : pystr) (g : char) (u v : pystr) :
  q <> [] -> mem g q = false ->
  contains q (u ++ g :: v) = contains q u || contains q v.
Proof.
  intros Hne Hg. induction u as [|z u IH].
  - destruct q as [|a q]; [congruence|].
    apply mem_cons_false in Hg. destruct Hg as [Hag _].
    cbn [app contains]. rewrite prefix_of_cons, Hag. reflexivity.
  - change (contains q ((z :: u) ++ g :: v))
      with (prefix_of q ((z :: u) ++ g :: v) || contains q (u ++ g :: v)).
    rewrite (@prefix_of_before_anchor g q (z :: u) v Hg), IH.
    cbn [contains]. rewrite orb_assoc. reflexivity.
Qed.

(** An occurrence of a literal whose first character is nowhere else in
    it cannot run over that character. *)
Lemma contains_anchored_split (h : char) (p' x y : pystr) :
  mem h p' = false ->
  contains (h :: p') (x ++ h :: y)
  = contains (h :: p') x || contains (h :: p') (h :: y).
Proof.
  intros Hh. induction x as [|z x IH]; [reflexivity|].
  change (contains (h :: p') ((z :: x) ++ h :: y))
    with (prefix_of (h :: p') (z :: (x ++ h :: y))
          || contains (h :: p') (x ++ h :: y)).
  rewrite prefix_of_cons, (@prefix_of_before_anchor h p' x y Hh), IH.
  cbn [contains]. rewrite prefix_of_cons, orb_assoc. reflexivity.
Qed.

Lemma contains_tracker_close z :
  contains tracker_open (close_string ++ z) = contains tracker_open z.
Proof.
  change (close_string ++ z) with (c_lt :: (tl close_string ++ z)).
  change (contains tracker_open (c_lt :: (tl close_string ++ z)))
    with (prefix_of tracker_open (c_lt :: (tl close_string ++ z))
          || contains tracker_open (tl close_string ++ z)).
  assert (E : contains tracker_open (tl close_string ++ z) = contains tracker_open z)
    by (apply (@contains_skip c_lt (tl tracker_open)), mem_false_notin; reflexivity).
  rewrite E. reflexivity.
Qed.

(** Where the opening tag of the tracker entry can be found in an entry
    followed by a text: in the tag, in the content, or in the text. *)
Lemma contains_tracker_entry_text e z :
  is_entry e ->
  contains tracker_open (entry_text e ++ z)
  = contains tracker_open (removelast (start_tag e))
    || contains tracker_open (string_content e)
    || contains tracker_open z.
Proof.
  intros [(attrs & Ho & Ha) Hc _]. unfold entry_text. rewrite Ho, Hc.
  replace (removelast (open_string ++ attrs ++ [c_gt])) with (open_string ++ attrs)
    by (rewrite app_assoc, removelast_last; reflexivity).
  replace (((open_string ++ attrs ++ [c_gt]) ++ string_content e ++ close_string) ++ z)
    with ((open_string ++ attrs) ++ c_gt :: ((string_content e) ++ c_lt :: (tl close_string ++ z)))
    by (rewrite <- !app_assoc; reflexivity).
  rewrite contains_foreign_split by (discriminate || reflexivity).
  rewrite (@contains_anchored_split c_lt (tl tracker_open)) by reflexivity.
  change (c_lt :: tl tracker_open) with tracker_open.
  change (c_lt :: (tl close_string ++ z)) with (close_string ++ z).
  rewrite contains_tracker_close, orb_assoc. reflexivity.
Qed.

Lemma contains_tracker_sub_entries f :
  (forall c, contains tracker_open (f c) = contains tracker_open c) ->
  (forall c, contains close_string c = false -> contains close_string (f c) = false) ->
  forall s, contains tracker_open (sub_entries f s) = contains tracker_open s.
Proof.
  intros Hf Hclose.
  apply (entries_ind (fun s =>
           contains tracker_open (sub_entries f s) = contains tracker_open s)).
  - reflexivity.
  - intros c s E IH. rewrite sub_entries_copy by assumption.
    cbn [contains]. rewrite IH. f_equal.
    change tracker_open with (c_lt :: tl tracker_open). rewrite !prefix_of_cons. f_equal.
    apply prefix_of_sub_entries. reflexivity.
  - intros e r He IH. rewrite sub_entries_entry by assumption.
    rewrite on_content_text.
    rewrite !contains_tracker_entry_text by (try apply is_entry_map; assumption).
    cbn [map_content start_tag string_content]. rewrite Hf, IH. reflexivity.
Qed.

Lemma contains_tracker_brand_content c :
  contains tracker_open (brand_content c) = contains tracker_open c.
Proof.
  assert (E : contains tracker_open (str_replace Firefox Waterfox c)
              = contains tracker_open c)
    by (apply contains_str_replace; reflexivity).
  unfold brand_content. cbv zeta.
  destruct (negb (contains Mozilla_Account (str_replace Firefox Waterfox c)));
    [|exact E].
  rewrite <- E. apply contains_str_replace; reflexivity.
Qed.

(** X22.  On a file without the opening tag of the tracker entry and
    without the artifact, the pipeline is the brand rules and then the
    apostrophe rules applied to the content of each entry: tags,
    comments and the text between entries are written back as read. *)
Theorem transform_by_entries (text : pystr) :
  contains tracker_open text = false ->
  contains artifact text = false ->
  transform text
  = flat_map (render (fun e =>
      start_tag e ++ apostrophes_content (brand_content (string_content e))
      ++ end_tag e))
      (entry_parts text).
Proof.
  intros Ht Ha. unfold transform.
  assert (E : fix_format_specifiers (replace_brand_names text) = replace_brand_names text).
  { apply fix_format_absent.
    change (replace_brand_names text) with (sub_entries brand_content text).
    rewrite contains_tracker_sub_entries; auto.
    - apply contains_tracker_brand_content.
    - apply brand_content_close_free. }
  rewrite E. rewrite clean_artifacts_absent
    by (rewrite contains_artifact_apostrophes, contains_artifact_brand; exact Ha).
  change (fix_apostrophes (replace_brand_names text))
    with (sub_entries apostrophes_content (sub_entries brand_content text)).
  rewrite sub_entries_fuse by apply brand_content_close_free.
  apply (sub_entries_parts (fun c => apostrophes_content (brand_content c))).
Qed.

Lemma transform_by_entries_witness :
  let text := lit "<resources>" ++ string_entry (lit "a") (lit "%1$s isn't Firefox")
              ++ lit "</resources>" in
  transform text
  = flat_map (render (fun e =>
      start_tag e ++ apostrophes_content (brand_content (string_content e))
      ++ end_tag e))
      (entry_parts text).
Proof.
  cbv zeta. apply transform_by_entries; vm_compute; reflexivity.
Defined.

(** * A second run of the pipeline *)

(** ** Texts with characters put in *)

Section Inserted.
Variables (m : char) (foreign : char -> bool).
Local Abbreviation R := (inserted m foreign).
Local Abbreviation clear_lit := (clear m foreign).

Lemma clear_cons a q :
  clear_lit (a :: q) = true -> a <> m /\ foreign a = false /\ clear_lit q = true.
Proof.
  unfold clear. cbn [forallb].
  rewrite !andb_true_iff, !negb_true_iff, N.eqb_neq. tauto.
Qed.

Lemma foreign_notin w a : forallb foreign w = true -> foreign a = false -> ~ In a w.
Proof.
  intros Hw Ha Hin. rewrite forallb_forall in Hw.
  rewrite (Hw _ Hin) in Ha. discriminate.
Qed.

(** The characters put in around one [m], with that [m]. *)
Lemma block_assoc w1 w2 (t : pystr) : w1 ++ m :: w2 ++ t = (w1 ++ m :: w2) ++ t.
Proof. rewrite <- app_assoc. reflexivity. Qed.

Lemma block_notin w1 w2 a :
  forallb foreign w1 = true -> forallb foreign w2 = true ->
  a <> m -> foreign a = false -> ~ In a (w1 ++ m :: w2).
Proof.
  intros H1 H2 Ham Ha Hin. apply in_app_or in Hin.
  destruct Hin as [Hin|[Hin|Hin]].
  - exact (@foreign_notin w1 a H1 Ha Hin).
  - congruence.
  - exact (@foreign_notin w2 a H2 Ha Hin).
Qed.

Lemma block_in w1 w2 x :
  forallb foreign w1 = true -> forallb foreign w2 = true ->
  In x (w1 ++ m :: w2) -> x = m \/ foreign x = true.
Proof.
  intros H1 H2 Hin. rewrite forallb_forall in H1, H2.
  apply in_app_or in Hin. destruct Hin as [Hin|[Hin|Hin]]; auto.
Qed.

Lemma inserted_refl s : R s s.
Proof. induction s; constructor; auto. Qed.

Lemma inserted_app_same a s s' : R s s' -> R (a ++ s) (a ++ s').
Proof. intros H. induction a; cbn [app]; [exact H|constructor; exact IHa]. Qed.

Lemma inserted_app a a' b b' : R a a' -> R b b' -> R (a ++ b) (a' ++ b').
Proof.
  intros Ha Hb. induction Ha as [|c s s' H IH|w1 w2 s s' H1 H2 H IH].
  - exact Hb.
  - cbn [app]. constructor. exact IH.
  - replace ((w1 ++ m :: w2 ++ s') ++ b') with (w1 ++ m :: w2 ++ (s' ++ b'))
      by (rewrite <- !app_assoc; cbn [app]; rewrite <- !app_assoc; reflexivity).
    cbn [app]. apply inserted_at; assumption.
Qed.

Lemma inserted_cons_inv c s x :
  R (c :: s) x ->
  (exists s', x = c :: s' /\ R s s') \/
  (c = m /\ exists w1 w2 s',
     x = w1 ++ m :: w2 ++ s' /\ forallb foreign w1 = true /\
     forallb foreign w2 = true /\ R s s').
Proof.
  intros H. inversion H as [|c0 s0 s0' H0|w1 w2 s0 s0' H1 H2 H0].
  - left. exists s0'. split; [reflexivity|assumption].
  - right. split; [reflexivity|]. exists w1, w2, s0'. auto.
Qed.

Lemma prefix_of_head_notin a q w (t : pystr) :
  w <> [] -> ~ In a w -> prefix_of (a :: q) (w ++ t) = false.
Proof.
  intros Hne Hin. destruct w as [|x w]; [congruence|].
  cbn [app]. rewrite prefix_of_cons.
  destruct (a =? x) eqn:E; [|reflexivity].
  apply N.eqb_eq in E. exfalso. apply Hin. left. auto.
Qed.

(** A literal clear of the insertions begins the one text where it
    begins the other. *)
Lemma prefix_of_inserted q :
  clear_lit q = true -> forall s s', R s s' -> prefix_of q s' = prefix_of q s.
Proof.
  induction q as [|a q IH]; intros Hq s s' H; [reflexivity|].
  apply clear_cons in Hq. destruct Hq as (Ham & Haf & Hq).
  destruct H as [|c s s' H|w1 w2 s s' H1 H2 H].
  - reflexivity.
  - rewrite !prefix_of_cons. f_equal. apply IH; assumption.
  - rewrite block_assoc, prefix_of_head_notin.
    + rewrite prefix_of_cons. apply N.eqb_neq in Ham. rewrite Ham. reflexivity.
    + destruct w1; discriminate.
    + apply block_notin; assumption.
Qed.

Lemma inserted_strip q :
  clear_lit q = true ->
  forall r x, R (q ++ r) x -> exists r', x = q ++ r' /\ R r r'.
Proof.
  induction q as [|a q IH]; intros Hq r x H.
  - exists x. split; [reflexivity|exact H].
  - apply clear_cons in Hq. destruct Hq as (Ham & Haf & Hq).
    cbn [app] in H.
    inversion H as [|c s0 s0' H0|w1 w2 s0 s0' H1 H2 H0]; subst.
    + destruct (IH Hq _ _ H0) as (r' & -> & Hr).
      exists r'. split; [reflexivity|exact Hr].
    + congruence.
Qed.

Lemma strip_prefix_inserted q s s' :
  clear_lit q = true -> R s s' ->
  match strip_prefix q s, strip_prefix q s' with
  | Some r, Some r' => R r r'
  | None, None => True
  | _, _ => False
  end.
Proof.
  intros Hq H. unfold strip_prefix. rewrite (@prefix_of_inserted q Hq _ _ H).
  destruct (prefix_of q s) eqn:E; [|exact I].
  apply prefix_of_split in E. rewrite E in H.
  destruct (@inserted_strip q Hq _ _ H) as (r' & -> & Hr).
  rewrite skipn_length_app. exact Hr.
Qed.

Lemma inserted_notin g s s' :
  g <> m -> foreign g = false -> R s s' -> ~ In g s -> ~ In g s'.
Proof.
  intros Hg Hf H. induction H as [|c s s' H IH|w1 w2 s s' H1 H2 H IH]; intros Hn.
  - exact Hn.
  - intros [Hin|Hin]; [apply Hn; left; exact Hin|].
    apply IH; [|exact Hin]. intros Hs. apply Hn. right. exact Hs.
  - rewrite block_assoc. intros Hin. apply in_app_or in Hin.
    destruct Hin as [Hin|Hin].
    + exact (@block_notin w1 w2 g H1 H2 Hg Hf Hin).
    + apply IH; [|exact Hin]. intros Hs. apply Hn. right. exact Hs.
Qed.

(** It occurs in the one text when it occurs in the other. *)
Lemma contains_inserted q :
  q <> [] -> clear_lit q = true ->
  forall s s', R s s' -> contains q s' = contains q s.
Proof.
  intros Hne Hq s s' H. destruct q as [|a q]; [congruence|].
  pose proof (@clear_cons a q Hq) as (Ham & Haf & _).
  induction H as [|c s s' H IH|w1 w2 s s' H1 H2 H IH].
  - reflexivity.
  - cbn [contains]. rewrite IH. f_equal.
    apply (@prefix_of_inserted (a :: q) Hq). constructor. exact H.
  - rewrite block_assoc, contains_skip by (apply block_notin; assumption).
    rewrite IH. change (m :: s) with ([m] ++ s).
    rewrite contains_skip; [reflexivity|].
    intros [Hin|[]]. congruence.
Qed.

Lemma span_not_skip g w (t : pystr) :
  ~ In g w ->
  span_not g (w ++ t) = (w ++ fst (span_not g t), snd (span_not g t)).
Proof.
  induction w as [|a w IH]; intros Hn.
  - cbn [app]. destruct (span_not g t); reflexivity.
  - cbn [app span_not]. destruct (a =? g) eqn:E.
    + apply N.eqb_eq in E. exfalso. apply Hn. left. exact E.
    + rewrite IH by (intros Hin; apply Hn; right; exact Hin). reflexivity.
Qed.

(** A run of characters other than [g], for a [g] the insertions leave
    alone. *)
Lemma span_not_inserted g :
  g <> m -> foreign g = false ->
  forall s s', R s s' ->
    R (fst (span_not g s)) (fst (span_not g s')) /\
    R (snd (span_not g s)) (snd (span_not g s')).
Proof.
  intros Hg Hf s s' H. induction H as [|c s s' H IH|w1 w2 s s' H1 H2 H IH].
  - split; constructor.
  - cbn [span_not]. destruct (c =? g).
    + split; constructor. exact H.
    + destruct IH as [IH1 IH2].
      destruct (span_not g s), (span_not g s'). cbn [fst snd] in *.
      split; [constructor; exact IH1|exact IH2].
  - rewrite block_assoc, span_not_skip by (apply block_notin; assumption).
    cbn [span_not]. destruct (m =? g) eqn:E.
    + apply N.eqb_eq in E. congruence.
    + destruct IH as [IH1 IH2].
      destruct (span_not g s), (span_not g s'). cbn [fst snd] in *.
      split; [|exact IH2].
      rewrite <- block_assoc. apply inserted_at; assumption.
Qed.

Lemma find_sub_skip a q w (t : pystr) :
  ~ In a w ->
  find_sub (a :: q) (w ++ t)
  = match find_sub (a :: q) t with
    | Some (x, y) => Some (w ++ x, y)
    | None => None
    end.
Proof.
  induction w as [|c w IH]; intros Hn.
  - cbn [app]. destruct (find_sub (a :: q) t) as [[x y]|]; reflexivity.
  - cbn [app find_sub]. rewrite prefix_of_cons.
    destruct (a =? c) eqn:E.
    + apply N.eqb_eq in E. exfalso. apply Hn. left. auto.
    + cbn [andb]. rewrite IH by (intros Hin; apply Hn; right; exact Hin).
      destruct (find_sub (a :: q) t) as [[x y]|]; reflexivity.
Qed.

(** The text up to the first occurrence of the literal, and the text
    after it. *)
Lemma find_sub_inserted q :
  q <> [] -> clear_lit q = true ->
  forall s s', R s s' ->
    match find_sub q s, find_sub q s' with
    | Some (x, y), Some (x', y') => R x x' /\ R y y'
    | None, None => True
    | _, _ => False
    end.
Proof.
  intros Hne Hq s s' H. destruct q as [|a q]; [congruence|].
  pose proof (@clear_cons a q Hq) as (Ham & Haf & _).
  induction H as [|c s s' H IH|w1 w2 s s' H1 H2 H IH].
  - exact I.
  - pose proof (@strip_prefix_inserted (a :: q) _ _ Hq (inserted_copy c H)) as Hs.
    unfold strip_prefix in Hs. cbn [find_sub].
    destruct (prefix_of (a :: q) (c :: s)), (prefix_of (a :: q) (c :: s'));
      try contradiction.
    + split; [constructor|exact Hs].
    + destruct (find_sub (a :: q) s) as [[x y]|],
               (find_sub (a :: q) s') as [[x' y']|]; try contradiction; [|exact I].
      destruct IH as [IH1 IH2]. split; [constructor; exact IH1|exact IH2].
  - rewrite block_assoc, find_sub_skip by (apply block_notin; assumption).
    change (m :: s) with ([m] ++ s).
    rewrite find_sub_skip by (intros [Hin|[]]; congruence).
    destruct (find_sub (a :: q) s) as [[x y]|],
             (find_sub (a :: q) s') as [[x' y']|]; try contradiction; [|exact I].
    destruct IH as [IH1 IH2]. split; [|exact IH2].
    rewrite <- block_assoc. apply inserted_at; assumption.
Qed.

(** An end of the text with characters put in either begins with one of
    them or with the marked character, or is an end of the other text
    with characters put in. *)
Lemma inserted_suffix s s' :
  R s s' ->
  forall a' b', s' = a' ++ b' ->
    (exists a b, s = a ++ b /\ R b b') \/
    (exists x t, b' = x :: t /\ (x = m \/ foreign x = true)).
Proof.
  induction 1 as [|c s s' H IH|w1 w2 s s' H1 H2 H IH]; intros a' b' E.
  - symmetry in E. apply app_eq_nil in E. destruct E as [-> ->].
    left. exists [], []. split; [reflexivity|constructor].
  - destruct a' as [|x a'].
    + cbn [app] in E. subst b'. left. exists [], (c :: s).
      split; [reflexivity|constructor; exact H].
    + cbn [app] in E. injection E as Ex E. subst x.
      destruct (IH _ _ E) as [(a & b & -> & Hb)|Hr]; [|right; exact Hr].
      left. exists (c :: a), b. split; [reflexivity|exact Hb].
  - rewrite block_assoc in E. apply app_eq_app in E.
    destruct E as (l & [[Ea Eb]|[Ea Eb]]).
    + destruct l as [|x l].
      * cbn [app] in Eb. destruct (IH [] b' (eq_sym Eb)) as [(a & b & -> & Hb)|Hr];
          [|right; exact Hr].
        left. exists (m :: a), b. split; [reflexivity|exact Hb].
      * right. exists x, (l ++ s'). split; [subst b'; reflexivity|].
        apply (@block_in w1 w2 x H1 H2). rewrite Ea.
        apply in_or_app. right. left. reflexivity.
    + destruct (IH _ _ Eb) as [(a & b & -> & Hb)|Hr]; [|right; exact Hr].
      left. exists (m :: a), b. split; [reflexivity|exact Hb].
Qed.
End Inserted.

(** ** The patterns on a text with characters put in

    The entry pattern and the format pattern are made of literals and of
    two delimiters, [>] and [%]; when the insertions leave all of them
    alone, a pattern matches the one text where it matches the other. *)

Section InsertedPatterns.
Variables (m : char) (foreign : char -> bool).
Local Abbreviation R := (inserted m foreign).
Hypothesis clear_open : clear m foreign open_string = true.
Hypothesis clear_gt : clear m foreign [c_gt] = true.
Hypothesis clear_close : clear m foreign close_string = true.

Lemma close_not_nil : close_string <> [].
Proof. discriminate. Qed.

Lemma match_entry_inserted s s' :
  R s s' ->
  match match_entry s, match_entry s' with
  | Some (e, _), Some (e', _) =>
      R (string_content e) (string_content e') /\
      exists r r', s = entry_text e ++ r /\ s' = entry_text e' ++ r' /\ R r r'
  | None, None => True
  | _, _ => False
  end.
Proof.
  intros H. unfold match_entry.
  pose proof (@strip_prefix_inserted m foreign open_string s s' clear_open H) as H1.
  destruct (strip_prefix open_string s) as [r|] eqn:E1,
           (strip_prefix open_string s') as [r'|] eqn:E1'; try contradiction; [|exact I].
  pose proof (@clear_cons m foreign c_gt [] clear_gt) as (Hgm & Hgf & _).
  destruct (@span_not_inserted m foreign c_gt Hgm Hgf r r' H1) as [Ha Hb].
  destruct (span_not c_gt r) as [attrs r1] eqn:E2,
           (span_not c_gt r') as [attrs' r1'] eqn:E2'. cbn [fst snd] in Ha, Hb.
  pose proof (@strip_prefix_inserted m foreign [c_gt] r1 r1' clear_gt Hb) as H3.
  destruct (strip_prefix [c_gt] r1) as [r2|] eqn:E3,
           (strip_prefix [c_gt] r1') as [r2'|] eqn:E3'; try contradiction; [|exact I].
  pose proof (@find_sub_inserted m foreign close_string close_not_nil clear_close
                r2 r2' H3) as H4.
  destruct (find_sub close_string r2) as [[c rest]|] eqn:E4,
           (find_sub close_string r2') as [[c' rest']|] eqn:E4';
    try contradiction; [|exact I].
  destruct H4 as [Hc Hr]. cbv zeta. cbn [string_content]. split; [exact Hc|].
  exists rest, rest'.
  apply strip_prefix_some in E1, E1', E3, E3'.
  apply span_not_spec in E2, E2'. destruct E2 as (E2 & _), E2' as (E2' & _).
  apply find_sub_spec in E4, E4'. subst.
  unfold entry_text. cbn [start_tag string_content end_tag].
  rewrite <- !app_assoc. cbn [app]. auto.
Qed.

Lemma entry_parts_skip w t :
  ~ In c_lt w -> entry_parts (w ++ t) = map inl w ++ entry_parts t.
Proof.
  induction w as [|c w IH]; intros Hn; [reflexivity|].
  cbn [app map]. unfold entry_parts in *.
  rewrite scan_parts_copy
    by (apply match_entry_head; intros ->; apply Hn; left; reflexivity).
  rewrite IH by (intros Hin; apply Hn; right; exact Hin). reflexivity.
Qed.

Lemma entry_text_not_nil e : is_entry e -> entry_text e <> [].
Proof.
  intros [(attrs & Ho & _) _ _]. unfold entry_text. rewrite Ho. discriminate.
Qed.

(** A property of the content of every entry goes over to the text with
    characters put in, when it goes over from content to content. *)
Lemma every_content_inserted (P : pystr -> Prop) :
  (forall c c', R c c' -> P c -> P c') ->
  forall s s', R s s' -> every_content P s -> every_content P s'.
Proof.
  intros HP.
  pose proof (@clear_cons m foreign c_lt (tl open_string) clear_open)
    as (Hlm & Hlf & _).
  apply (entries_ind (fun s =>
           forall s', R s s' -> every_content P s -> every_content P s')).
  - intros s' H _. inversion H. constructor.
  - intros c s E IH s' H HF. unfold every_content, entry_parts in *.
    rewrite scan_parts_copy in HF by exact E.
    inversion HF as [|p l _ HF']; subst.
    destruct (inserted_cons_inv H)
      as [(s0' & -> & H0)|(-> & w1 & w2 & s0' & -> & H1 & H2 & H0)].
    + pose proof (match_entry_inserted H) as Hm. rewrite E in Hm.
      destruct (match_entry (c :: s0')) as [[e' len']|] eqn:E'; [contradiction|].
      rewrite scan_parts_copy by exact E'.
      constructor; [exact I|]. apply IH; assumption.
    + rewrite block_assoc.
      change (scan_parts match_entry ((w1 ++ m :: w2) ++ s0'))
        with (entry_parts ((w1 ++ m :: w2) ++ s0')).
      rewrite entry_parts_skip
        by (apply (@block_notin m foreign w1 w2 c_lt); assumption).
      apply Forall_app. split.
      * apply Forall_forall. intros p Hp. apply in_map_iff in Hp.
        destruct Hp as (x & <- & _). exact I.
      * apply IH; assumption.
  - intros e r He IH s' H HF.
    pose proof (match_entry_inserted H) as Hm.
    rewrite (match_entry_complete r He) in Hm.
    destruct (match_entry s') as [[e' len']|] eqn:E'; [|contradiction].
    destruct Hm as (Hc & r0 & r' & E0 & E1 & Hr).
    apply app_inv_head in E0. subst r0.
    destruct (match_entry_spec _ E') as (He' & Hlen & _). subst len'.
    unfold every_content, entry_parts in *.
    rewrite (scan_parts_match match_entry _ E' (entry_text_not_nil He') E1).
    rewrite (scan_parts_match match_entry _ (match_entry_complete r He)
               (entry_text_not_nil He) eq_refl) in HF.
    inversion HF as [|p l HPe HF']; subst.
    constructor; [exact (HP _ _ Hc HPe)|]. apply IH; assumption.
Qed.

(** Every content is rewritten with characters put in: so is the text. *)
Lemma inserted_sub_entries f :
  (forall c, R c (f c)) -> forall s, R s (sub_entries f s).
Proof.
  intros Hf. apply (entries_ind (fun s => R s (sub_entries f s))).
  - constructor.
  - intros c s E IH. rewrite sub_entries_copy by exact E. constructor. exact IH.
  - intros e r He IH. rewrite sub_entries_entry by exact He.
    unfold on_content, entry_text. rewrite <- !app_assoc.
    apply inserted_app_same. apply inserted_app; [apply Hf|].
    apply inserted_app_same. exact IH.
Qed.

Hypothesis clear_tracker : clear m foreign tracker_open = true.
Hypothesis clear_pct_s : clear m foreign pct_s = true.
Hypothesis clear_pct_d : clear m foreign pct_d = true.

Lemma match_format_inserted s s' :
  R s s' -> match_format s = None -> match_format s' = None.
Proof.
  intros H. unfold match_format.
  pose proof (@strip_prefix_inserted m foreign tracker_open s s' clear_tracker H) as H1.
  destruct (strip_prefix tracker_open s) as [r|] eqn:E1,
           (strip_prefix tracker_open s') as [r'|] eqn:E1';
    try contradiction; [|reflexivity].
  pose proof (@clear_cons m foreign c_gt [] clear_gt) as (Hgm & Hgf & _).
  destruct (@span_not_inserted m foreign c_gt Hgm Hgf r r' H1) as [_ Hb].
  destruct (span_not c_gt r) as [attrs r1], (span_not c_gt r') as [attrs' r1'].
  cbn [fst snd] in Hb.
  pose proof (@strip_prefix_inserted m foreign [c_gt] r1 r1' clear_gt Hb) as H3.
  destruct (strip_prefix [c_gt] r1) as [r2|], (strip_prefix [c_gt] r1') as [r2'|];
    try contradiction; [|reflexivity].
  pose proof (@strip_prefix_inserted m foreign pct_s r2 r2' clear_pct_s H3) as H4.
  destruct (strip_prefix pct_s r2) as [r3|], (strip_prefix pct_s r2') as [r3'|];
    try contradiction; [|reflexivity].
  pose proof (@clear_cons m foreign c_percent (tl pct_s) clear_pct_s)
    as (Hpm & Hpf & _).
  destruct (@span_not_inserted m foreign c_percent Hpm Hpf r3 r3' H4) as [_ Hd].
  destruct (span_not c_percent r3) as [mid r4],
           (span_not c_percent r3') as [mid' r4'].
  cbn [fst snd] in Hd.
  pose proof (@strip_prefix_inserted m foreign pct_d r4 r4' clear_pct_d Hd) as H5.
  destruct (strip_prefix pct_d r4) as [r5|], (strip_prefix pct_d r4') as [r5'|];
    try contradiction; [|reflexivity].
  pose proof (@strip_prefix_inserted m foreign close_string r5 r5' clear_close H5) as H6.
  destruct (strip_prefix close_string r5), (strip_prefix close_string r5');
    try contradiction; [discriminate|reflexivity].
Qed.
End InsertedPatterns.

(** ** What the format pass and the escapes put in *)

(** The format pass puts position numbers after [%] and changes nothing
    else. *)
Lemma numbered_fix_format s : numbered s (fix_format_specifiers s).
Proof.
  unfold numbered, fix_format_specifiers.
  apply (@scan_ind _ match_format match_format_ok (fun s =>
           inserted c_percent numbering_char s
             (scan_sub match_format replace_format_specifiers s))).
  - constructor.
  - intros c s0 E IH. rewrite scan_sub_copy by exact E. constructor. exact IH.
  - intros g a r E Hne IH.
    rewrite (scan_sub_match match_format replace_format_specifiers _ E Hne eq_refl).
    destruct (match_format_spec _ E) as (_ & Hlen & r0 & E0).
    apply app_same_length in E0; [|exact Hlen]. destruct E0 as [-> _].
    unfold format_text, replace_format_specifiers. rewrite <- !app_assoc.
    apply inserted_app_same.
    apply (@inserted_at c_percent numbering_char [] [49; 36]); try reflexivity.
    constructor. apply inserted_app_same.
    apply (@inserted_at c_percent numbering_char [] [50; 36]); try reflexivity.
    constructor. apply inserted_app_same. exact IH.
Qed.

(** Escaping by context puts backslashes before apostrophes and changes
    nothing else. *)
Lemma escaped_escape_with test : forall s b, escaped s (escape_with test b s).
Proof.
  unfold escaped. induction s as [|c s IH]; intros b; cbn [escape_with].
  - constructor.
  - destruct ((c =? c_apos) && test b s) eqn:E.
    + apply andb_true_iff in E. destruct E as [E _]. apply N.eqb_eq in E. subst c.
      apply (@inserted_at c_apos _ [c_backslash] []); try reflexivity. apply IH.
    + cbn [app]. constructor. apply IH.
Qed.

Lemma escaped_sub_entries s : escaped s (sub_entries escape_listed s).
Proof.
  apply inserted_sub_entries. intros c. apply escaped_escape_with.
Qed.

(** ** Counting the opening tag of the tracker entry *)

Lemma occurrences_foreign_split (q : pystr) (g : char) (u v : pystr) :
  q <> [] -> mem g q = false ->
  occurrences q (u ++ g :: v) = (occurrences q u + occurrences q v)%nat.
Proof.
  intros Hne Hg. induction u as [|z u IH].
  - destruct q as [|a q]; [congruence|].
    apply mem_cons_false in Hg. destruct Hg as [Hag _].
    cbn [app occurrences]. rewrite prefix_of_cons, Hag. reflexivity.
  - change (occurrences q ((z :: u) ++ g :: v))
      with ((if prefix_of q ((z :: u) ++ g :: v) then 1 else 0)
            + occurrences q (u ++ g :: v))%nat.
    rewrite (@prefix_of_before_anchor g q (z :: u) v Hg), IH.
    cbn [occurrences]. apply Nat.add_assoc.
Qed.

Lemma occurrences_anchored_split (h : char) (p' x y : pystr) :
  mem h p' = false ->
  occurrences (h :: p') (x ++ h :: y)
  = (occurrences (h :: p') x + occurrences (h :: p') (h :: y))%nat.
Proof.
  intros Hh. induction x as [|z x IH].
  - cbn [app occurrences prefix_of]. reflexivity.
  - change (occurrences (h :: p') ((z :: x) ++ h :: y))
      with ((if prefix_of (h :: p') (z :: (x ++ h :: y)) then 1 else 0)
            + occurrences (h :: p') (x ++ h :: y))%nat.
    rewrite prefix_of_cons, (@prefix_of_before_anchor h p' x y Hh), IH.
    cbn [occurrences]. rewrite prefix_of_cons. apply Nat.add_assoc.
Qed.

Lemma occurrences_tracker_close z :
  occurrences tracker_open (close_string ++ z) = occurrences tracker_open z.
Proof.
  change (close_string ++ z) with (c_lt :: (tl close_string ++ z)).
  change (occurrences tracker_open (c_lt :: (tl close_string ++ z)))
    with ((if prefix_of tracker_open (c_lt :: (tl close_string ++ z)) then 1 else 0)
          + occurrences tracker_open (tl close_string ++ z))%nat.
  assert (E : occurrences tracker_open (tl close_string ++ z)
              = occurrences tracker_open z)
    by (apply (@occurrences_skip c_lt (tl tracker_open)); reflexivity).
  rewrite E. reflexivity.
Qed.

Lemma occurrences_tracker_entry_text e z :
  is_entry e ->
  occurrences tracker_open (entry_text e ++ z)
  = (occurrences tracker_open (removelast (start_tag e))
     + occurrences tracker_open (string_content e)
     + occurrences tracker_open z)%nat.
Proof.
  intros [(attrs & Ho & Ha) Hc _]. unfold entry_text. rewrite Ho, Hc.
  replace (removelast (open_string ++ attrs ++ [c_gt])) with (open_string ++ attrs)
    by (rewrite app_assoc, removelast_last; reflexivity).
  replace (((open_string ++ attrs ++ [c_gt]) ++ string_content e ++ close_string) ++ z)
    with ((open_string ++ attrs) ++ c_gt :: ((string_content e) ++ c_lt :: (tl close_string ++ z)))
    by (rewrite <- !app_assoc; reflexivity).
  rewrite occurrences_foreign_split by (discriminate || reflexivity).
  rewrite (@occurrences_anchored_split c_lt (tl tracker_open)) by reflexivity.
  change (c_lt :: tl tracker_open) with tracker_open.
  change (c_lt :: (tl close_string ++ z)) with (close_string ++ z).
  rewrite occurrences_tracker_close, Nat.add_assoc. reflexivity.
Qed.

Lemma occurrences_tracker_sub_entries f :
  (forall c, occurrences tracker_open (f c) = occurrences tracker_open c) ->
  (forall c, contains close_string c = false -> contains close_string (f c) = false) ->
  forall s, occurrences tracker_open (sub_entries f s) = occurrences tracker_open s.
Proof.
  intros Hf Hclose.
  apply (entries_ind (fun s =>
           occurrences tracker_open (sub_entries f s) = occurrences tracker_open s)).
  - reflexivity.
  - intros c s E IH. rewrite sub_entries_copy by assumption.
    cbn [occurrences]. rewrite IH. f_equal.
    change tracker_open with (c_lt :: tl tracker_open). rewrite !prefix_of_cons.
    rewrite prefix_of_sub_entries by reflexivity. reflexivity.
  - intros e r He IH. rewrite sub_entries_entry by assumption.
    rewrite on_content_text.
    rewrite !occurrences_tracker_entry_text by (try apply is_entry_map; assumption).
    cbn [map_content start_tag string_content]. rewrite Hf, IH. reflexivity.
Qed.

Lemma occurrences_tracker_brand_content c :
  occurrences tracker_open (brand_content c) = occurrences tracker_open c.
Proof.
  assert (E : occurrences tracker_open (str_replace Firefox Waterfox c)
              = occurrences tracker_open c)
    by (apply occurrences_str_replace; reflexivity).
  unfold brand_content. cbv zeta.
  destruct (negb (contains Mozilla_Account (str_replace Firefox Waterfox c)));
    [|exact E].
  rewrite <- E. apply occurrences_str_replace; reflexivity.
Qed.

(** The brand pass neither makes nor breaks an opening tag of the
    tracker entry. *)
Lemma occurrences_tracker_brand text :
  occurrences tracker_open (replace_brand_names text) = occurrences tracker_open text.
Proof.
  change (replace_brand_names text) with (sub_entries brand_content text).
  apply occurrences_tracker_sub_entries.
  - apply occurrences_tracker_brand_content.
  - apply brand_content_close_free.
Qed.

(** ** The format pass is done after one run *)

Lemma no_format_match_absent x :
  contains tracker_open x = false -> no_format_match x.
Proof.
  intros H a b E. apply match_format_open, contains_prefix_false.
  apply (@contains_suffix_false tracker_open a b). rewrite <- E. exact H.
Qed.

Lemma no_format_match_cons c x :
  match_format (c :: x) = None -> no_format_match x -> no_format_match (c :: x).
Proof.
  intros H Hx a b E. destruct a as [|c0 a].
  - cbn [app] in E. subst b. exact H.
  - cbn [app] in E. injection E as _ E. exact (Hx a b E).
Qed.

(** The rewritten tracker entry is not matched again: [%1$s] stands
    where the pattern wants [%s]. *)
Lemma match_format_rewritten g r :
  is_format_match g -> match_format (replace_format_specifiers g ++ r) = None.
Proof.
  intros [(attrs & Ho & Ha) _ _]. unfold replace_format_specifiers, match_format.
  rewrite Ho, <- !app_assoc, strip_prefix_app.
  cbn [app]. rewrite span_not_app by exact Ha.
  rewrite strip_prefix_cons. reflexivity.
Qed.

Lemma one_more_le_one n : (1 + n <= 1)%nat -> n = 0%nat.
Proof. lia. Qed.

Lemma add_le_one_r b n : (b + n <= 1)%nat -> (n <= 1)%nat.
Proof. lia. Qed.

Lemma occurrences_tracker_head t :
  (occurrences tracker_open (tracker_open ++ t) <= 1)%nat ->
  contains tracker_open (tl tracker_open ++ t) = false.
Proof.
  change (tracker_open ++ t) with (c_lt :: (tl tracker_open ++ t)).
  intros H. cbn [occurrences] in H.
  change (c_lt :: (tl tracker_open ++ t)) with (tracker_open ++ t) in H.
  rewrite prefix_of_app in H.
  apply occurrences_zero_contains, one_more_le_one. exact H.
Qed.

(** With at most one opening tag of the tracker entry in the text, the
    format pattern matches nowhere in what the format pass returns. *)
Lemma fix_format_settled s :
  (occurrences tracker_open s <= 1)%nat ->
  no_format_match (fix_format_specifiers s).
Proof.
  apply (@scan_ind _ match_format match_format_ok (fun s =>
           (occurrences tracker_open s <= 1)%nat ->
           no_format_match (fix_format_specifiers s))).
  - intros _ a b E. symmetry in E. apply app_eq_nil in E. destruct E as [_ ->].
    reflexivity.
  - intros c s0 E IH H. unfold fix_format_specifiers.
    rewrite scan_sub_copy by exact E. fold (fix_format_specifiers s0).
    cbn [occurrences] in H.
    apply no_format_match_cons.
    + destruct (prefix_of tracker_open (c :: s0)) eqn:P.
      * assert (H0 : occurrences tracker_open s0 = 0%nat) by (apply one_more_le_one; exact H).
        rewrite fix_format_absent by (apply occurrences_zero_contains; exact H0).
        exact E.
      * apply match_format_open.
        rewrite (@prefix_of_inserted c_percent numbering_char tracker_open eq_refl
                   (c :: s0) (c :: fix_format_specifiers s0)); [exact P|].
        constructor. apply numbered_fix_format.
    + apply IH. exact (add_le_one_r _ _ H).
  - intros g a r E Hne IH H.
    destruct (match_format_spec _ E) as (Hg & Hlen & r0 & E0).
    apply app_same_length in E0; [|exact Hlen]. destruct E0 as [-> _].
    pose proof (numbered_fix_format (format_text g ++ r)) as Hn.
    rewrite (fix_format_match r Hg) in Hn |- *.
    pose proof (match_format_rewritten (fix_format_specifiers r) Hg) as Hr.
    destruct Hg as [(attrs & Ho & Ha) _ _].
    unfold format_text, replace_format_specifiers in *. rewrite Ho in *.
    rewrite <- !app_assoc in *.
    match type of Hn with
    | numbered (tracker_open ++ ?u) (tracker_open ++ ?u') =>
        remember u as u0; remember u' as u1
    end.
    apply occurrences_tracker_head in H.
    change (tracker_open ++ u0) with (c_lt :: (tl tracker_open ++ u0)) in Hn.
    change (tracker_open ++ u1) with (c_lt :: (tl tracker_open ++ u1)) in Hn, Hr |- *.
    destruct (inserted_cons_inv Hn) as [(x' & Ex & Hx)|(Habs & _)]; [|discriminate].
    injection Ex as Ex. subst x'.
    apply no_format_match_cons; [exact Hr|]. apply no_format_match_absent.
    exact (eq_trans (@contains_inserted c_percent numbering_char tracker_open
                       ltac:(discriminate) eq_refl _ _ Hx) H).
Qed.

(** Backslashes before apostrophes do not make the format pattern
    match. *)
Lemma no_format_match_escaped z z' :
  escaped z z' -> no_format_match z -> no_format_match z'.
Proof.
  intros H Hz a' b' E.
  destruct (inserted_suffix H _ _ E) as [(a & b & Ez & Hb)|(x & t & -> & Hx)].
  - apply (@match_format_inserted c_apos (fun c => c =? c_backslash)
             eq_refl eq_refl eq_refl eq_refl eq_refl b b' Hb).
    exact (Hz a b Ez).
  - apply match_format_head. destruct Hx as [->|Hx]; [discriminate|].
    apply N.eqb_eq in Hx. subst x. discriminate.
Qed.

(** ** The brand pass is done after one run *)

Lemma brand_content_fixed c : brand_fixed (brand_content c).
Proof.
  unfold brand_fixed. rewrite (brand_content_cases c).
  destruct (contains Mozilla_Account c) eqn:E.
  - split; [apply occurrences_zero_contains, firefox_removed|].
    left. rewrite protected_after_firefox. exact E.
  - split.
    + apply occurrences_zero_contains.
      rewrite firefox_kept_by_mozilla. apply firefox_removed.
    + right. apply occurrences_zero_contains, mozilla_removed.
Qed.

Lemma brand_fixed_idle c : brand_fixed c -> brand_content c = c.
Proof.
  intros [Hf Hm]. rewrite (brand_content_cases c).
  assert (E : str_replace Firefox Waterfox c = c)
    by (apply str_replace_absent, contains_false_occurrences; exact Hf).
  rewrite E. destruct (contains Mozilla_Account c) eqn:Ea; [reflexivity|].
  destruct Hm as [Hm|Hm]; [discriminate|].
  apply str_replace_absent, contains_false_occurrences. exact Hm.
Qed.

(** Characters put in that are not of the brand names leave the brand
    rules with nothing to do. *)
Lemma brand_fixed_inserted m foreign c c' :
  clear m foreign Firefox = true ->
  clear m foreign Mozilla_Account = true ->
  inserted m foreign c c' -> brand_fixed c -> brand_fixed c'.
Proof.
  intros Hf Ha H [H1 H2].
  assert (Hm : clear m foreign Mozilla = true).
  { unfold clear in *. rewrite forallb_forall in *. intros x Hx. apply Ha.
    cbn in Hx |- *. tauto. }
  unfold brand_fixed.
  rewrite (@contains_inserted m foreign Firefox ltac:(discriminate) Hf _ _ H).
  rewrite (@contains_inserted m foreign Mozilla ltac:(discriminate) Hm _ _ H).
  rewrite (@contains_inserted m foreign Mozilla_Account ltac:(discriminate) Ha _ _ H).
  split; assumption.
Qed.

Lemma replace_brand_names_settled text :
  every_content brand_fixed (replace_brand_names text).
Proof.
  unfold every_content.
  change (replace_brand_names text) with (sub_entries brand_content text).
  rewrite entry_parts_sub_entries by apply brand_content_close_free.
  apply Forall_forall. intros p Hp. apply in_map_iff in Hp.
  destruct Hp as ([c|e] & <- & _); [exact I|].
  cbn [map_piece map_content string_content]. apply brand_content_fixed.
Qed.

(** A rewrite of the contents that changes none of them changes
    nothing. *)
Lemma sub_entries_every_content f text :
  every_content (fun c => f c = c) text -> sub_entries f text = text.
Proof.
  intros H.
  transitivity (flat_map (render entry_text) (entry_parts text));
    [|apply entry_parts_text].
  rewrite sub_entries_parts. unfold every_content in H.
  induction H as [|p l Hp _ IH]; [reflexivity|].
  cbn [flat_map]. rewrite IH. f_equal.
  destruct p as [c|e]; [reflexivity|].
  cbn [render]. unfold on_content, entry_text. rewrite Hp. reflexivity.
Qed.

Lemma every_content_impl (P Q : pystr -> Prop) text :
  (forall c, P c -> Q c) -> every_content P text -> every_content Q text.
Proof.
  intros HPQ. unfold every_content. apply Forall_impl.
  intros [c|e]; [auto|apply HPQ].
Qed.

(** ** Running the pipeline again *)

(** The three scanning passes neither make nor break an artifact. *)
Lemma contains_artifact_passes text :
  contains artifact
    (fix_apostrophes (fix_format_specifiers (replace_brand_names text)))
  = contains artifact text.
Proof.
  rewrite contains_artifact_apostrophes.
  destruct (art_agree_fix_format (replace_brand_names text)) as (_ & _ & Hc).
  rewrite Hc. apply contains_artifact_brand.
Qed.

(** C3, as stated, fails: a second run can change the output of the
    first, and in three ways.  An artifact in the input: the cleanup
    takes one [>] off a quote followed by three and leaves an artifact
    for the second run; it takes one [>] off the tracker tag closed
    twice and leaves an entry the format pass of the second run
    rewrites.  A second opening tag of the tracker entry: the format
    pass rewrites from the first tag in the first run and from the
    second in the second run.  A contraction with an uppercase letter:
    the apostrophe pass lowercases it and so completes a brand name the
    second run replaces.  In each case the other two conditions of the
    amended statement hold. *)
Lemma transform_not_idempotent :
  let sound text :=
    fix_apostrophes (fix_format_specifiers (replace_brand_names text))
    = sub_entries escape_listed (fix_format_specifiers (replace_brand_names text)) in
  let three_gt := [c_quote; c_gt; c_gt; c_gt] in
  let closed_twice := tracker_open ++ lit ">>%s: %d</string>" in
  let two_tags :=
    tracker_open ++ lit ">%s " ++ tracker_open ++ lit " %d</string>%s:%d</string>" in
  let contraction := string_entry (lit "a") (lit "MozillAren't") in
  (transform three_gt = [c_quote; c_gt; c_gt] /\
   transform (transform three_gt) = [c_quote; c_gt] /\
   transform (transform three_gt) <> transform three_gt /\
   occurrences tracker_open three_gt = 0%nat /\ sound three_gt) /\
  (transform closed_twice = tracker_open ++ lit ">%s: %d</string>" /\
   transform (transform closed_twice) = tracker_open ++ lit ">%1$s: %2$d</string>" /\
   transform (transform closed_twice) <> transform closed_twice /\
   occurrences tracker_open closed_twice = 1%nat /\ sound closed_twice) /\
  (transform two_tags
   = tracker_open ++ lit ">%1$s " ++ tracker_open ++ lit " %2$d</string>%s:%d</string>" /\
   transform (transform two_tags)
   = tracker_open ++ lit ">%1$s " ++ tracker_open
     ++ lit " %2$d</string>%1$s:%2$d</string>" /\
   transform (transform two_tags) <> transform two_tags /\
   contains artifact two_tags = false /\ sound two_tags) /\
  (transform contraction = string_entry (lit "a") (lit "Mozillaren\'t") /\
   transform (transform contraction)
   = string_entry (lit "a") (lit "BrowserWorksren\'t") /\
   transform (transform contraction) <> transform contraction /\
   contains artifact contraction = false /\
   occurrences tracker_open contraction = 0%nat /\
   fix_apostrophes contraction = string_entry (lit "a") (lit "Mozillaren\'t") /\
   sub_entries escape_listed contraction
   = string_entry (lit "a") (lit "MozillAren\'t")).
Proof.
  cbv zeta.
  repeat match goal with |- _ /\ _ => split end;
    vm_compute; first [reflexivity|discriminate].
Qed.

(** C3, amended.  A second run of the pipeline changes nothing on the
    output of the first, for an input without the artifact and with at
    most one opening tag of the tracker entry, as long as the apostrophe
    pass of the first run has only put in its backslashes, letter case
    kept. *)
Theorem transform_idempotent_settled (text : pystr) :
  contains artifact text = false ->
  (occurrences tracker_open text <= 1)%nat ->
  fix_apostrophes (fix_format_specifiers (replace_brand_names text))
  = sub_entries escape_listed (fix_format_specifiers (replace_brand_names text)) ->
  transform (transform text) = transform text.
Proof.
  intros Ha Ht Hs.
  assert (Hay : contains artifact
                  (fix_apostrophes (fix_format_specifiers (replace_brand_names text)))
                = false)
    by (rewrite contains_artifact_passes; exact Ha).
  assert (Hy : transform text
               = fix_apostrophes (fix_format_specifiers (replace_brand_names text)))
    by (unfold transform; apply clean_artifacts_absent; exact Hay).
  rewrite Hy.
  set (w := replace_brand_names text) in *.
  set (z := fix_format_specifiers w) in *.
  set (y := fix_apostrophes z) in *.
  assert (HE : escaped z y) by (rewrite Hs; apply escaped_sub_entries).
  assert (HB : replace_brand_names y = y).
  { apply (@sub_entries_every_content brand_content y).
    apply (@every_content_impl brand_fixed (fun c => brand_content c = c) y
             brand_fixed_idle).
    apply (@every_content_inserted c_apos (fun c => c =? c_backslash)
             eq_refl eq_refl eq_refl brand_fixed
             (fun c c' => @brand_fixed_inserted c_apos (fun c => c =? c_backslash)
                            c c' eq_refl eq_refl) z y HE).
    apply (@every_content_inserted c_percent numbering_char
             eq_refl eq_refl eq_refl brand_fixed
             (fun c c' => @brand_fixed_inserted c_percent numbering_char
                            c c' eq_refl eq_refl)
             w z (numbered_fix_format w)).
    apply replace_brand_names_settled. }
  assert (HF : fix_format_specifiers y = y).
  { apply scan_sub_idle. apply (no_format_match_escaped HE).
    apply fix_format_settled. unfold w. rewrite occurrences_tracker_brand. exact Ht. }
  unfold transform. rewrite HB, HF.
  assert (HA : fix_apostrophes y = y) by apply fix_apostrophes_idempotent.
  rewrite HA. apply clean_artifacts_absent. exact Hay.
Qed.

Lemma transform_idempotent_settled_witness :
  transform (transform
    (lit "<resources>" ++ tracker_entry [] (lit "%s: %d")
     ++ string_entry (lit "z") (lit "Firefox isn't Mozilla's") ++ lit "</resources>"))
  = transform
      (lit "<resources>" ++ tracker_entry [] (lit "%s: %d")
       ++ string_entry (lit "z") (lit "Firefox isn't Mozilla's") ++ lit "</resources>").
Proof.
  apply transform_idempotent_settled.
  - vm_compute. reflexivity.
  - vm_compute. apply le_n.
  - vm_compute. reflexivity.
Defined.

(** ** The format pass on its own output *)

(** X27.  With at most one opening tag of the tracker entry in the text,
    the format pass changes nothing on its own output: [%1$s] stands
    where the pattern wants [%s]. *)
Theorem format_pass_twice (text : pystr) :
  (occurrences tracker_open text <= 1)%nat ->
  fix_format_specifiers (fix_format_specifiers text) = fix_format_specifiers text.
Proof.
  intros H. apply scan_sub_idle. apply fix_format_settled. exact H.
Qed.

Lemma format_pass_twice_witness :
  fix_format_specifiers
    (fix_format_specifiers
       (lit "<resources>" ++ tracker_entry [] (lit "%s: %d") ++ lit "</resources>"))
  = fix_format_specifiers
      (lit "<resources>" ++ tracker_entry [] (lit "%s: %d") ++ lit "</resources>").
Proof.
  apply format_pass_twice. vm_compute. apply le_n.
Defined.

(** X28.  All the format pass does to a text is to put [1$] or [2$]
    after some of its [%]: every other character is written back where
    it was. *)
Theorem format_pass_inserts_numbers (text : pystr) :
  numbered text (fix_format_specifiers text).
Proof. apply numbered_fix_format. Qed.
